(** * databeakers: recipes, beakers, seeds and transform wrappers

    A shallow embedding of [src/beakers/recipe.py] and
    [src/databeakers/wrappers.py], and the properties of the pipeline
    engine stated about it.

    Conventions.
    - A Python [dict] is an insertion-ordered association list ([Dict]):
      assigning to a key already present keeps the key's position.
    - A Python callable reads and writes ambient state (closures, files,
      the network).  That state is the type [World], a parameter of the
      development; a callable is a function [value -> World -> _ * World].
    - A call either returns or raises ([result]); code that may raise is
      written in the monad [M], which threads the machine state and stops
      at the first exception, keeping the state reached so far. *)

From Stdlib Require Import List String Ascii Bool Arith ZArith QArith Lia.
From Stdlib Require Import Permutation Sorted DecimalString.
Import ListNotations.
Open Scope string_scope.
Open Scope list_scope.
Close Scope Q_scope.

Set Implicit Arguments.

(** ** Python dictionaries *)

Class EqDec (K : Type) := eq_dec : forall x y : K, {x = y} + {x <> y}.

#[export] Instance string_EqDec : EqDec string := string_dec.
#[export] Instance nat_EqDec : EqDec nat := Nat.eq_dec.
#[export] Instance prod_EqDec (A B : Type) `{EqDec A} `{EqDec B} : EqDec (A * B).
Proof. intros [a b] [a' b']. destruct (eq_dec a a'), (eq_dec b b'); [left | right ..]; congruence. Defined.

Module Dict.
Section Dict.
Context {K V : Type} `{EqDec K}.

Definition t := list (K * V).

(** [d.get(k)] *)
Fixpoint get (k : K) (d : t) : option V :=
  match d with
  | [] => None
  | (k', v) :: d' => if eq_dec k k' then Some v else get k d'
  end.

(** [d[k] = v]: overwrite in place, or append. *)
Fixpoint set (k : K) (v : V) (d : t) : t :=
  match d with
  | [] => [(k, v)]
  | (k', v') :: d' => if eq_dec k k' then (k, v) :: d' else (k', v') :: set k v d'
  end.

(** [del d[k]] *)
Fixpoint del (k : K) (d : t) : t :=
  match d with
  | [] => []
  | (k', v') :: d' => if eq_dec k k' then d' else (k', v') :: del k d'
  end.

Definition keys (d : t) : list K := map fst d.
Definition values (d : t) : list V := map snd d.

(** [k in d] *)
Definition mem (k : K) (d : t) : bool :=
  match get k d with Some _ => true | None => false end.

End Dict.
Arguments t : clear implicits.
End Dict.

(** ** Python values, exceptions and call results *)

(** The values that travel through a recipe: [None], booleans, the pairs
    [(data, condition_func(data))] built by [add_conditional], instances of
    a pydantic model class (the class name and the serialised fields), and
    instances of [ErrorType]. *)
Inductive value : Type :=
| VNone
| VBool (b : bool)
| VTuple (fst_ snd_ : value)
| VModel (cls : string) (data : string)
| VErrorType (item : value) (exception : string) (exc_type : string).

(** [bool(v)]: [None] and [False] are falsy, a 2-tuple and a model instance
    are truthy. *)
Definition truthy (v : value) : bool :=
  match v with
  | VNone => false
  | VBool b => b
  | VTuple _ _ | VModel _ _ | VErrorType _ _ _ => true
  end.

(** [isinstance(v, BaseModel)] *)
Definition is_BaseModel (v : value) : bool :=
  match v with
  | VModel _ _ | VErrorType _ _ _ => true
  | _ => false
  end.

(** An exception instance: the names of the classes of [type(e).__mro__],
    most derived first, and [str(e)]. *)
Record exn : Type := Exn { exc_mro : list string; exc_str : string }.

(** [isinstance(e, cls)] *)
Definition isinstance1 (e : exn) (cls : string) : bool :=
  existsb (String.eqb cls) (exc_mro e).

(** [isinstance(e, classes)] for a tuple of classes. *)
Definition isinstance (e : exn) (classes : list string) : bool :=
  existsb (isinstance1 e) classes.

(** [type(e).__name__] and [str(type(e))] *)
Definition exc_class (e : exn) : string := hd "object" (exc_mro e).
Definition str_type (e : exn) : string := "<class '" ++ exc_class e ++ "'>".

Definition Exception_mro : list string := ["Exception"; "BaseException"; "object"].
Definition KeyError (key : string) : exn :=
  Exn ("KeyError" :: "LookupError" :: Exception_mro) ("'" ++ key ++ "'").
Definition TypeError (msg : string) : exn := Exn ("TypeError" :: Exception_mro) msg.
Definition RuntimeError (msg : string) : exn := Exn ("RuntimeError" :: Exception_mro) msg.
Definition ZeroDivisionError (msg : string) : exn :=
  Exn ("ZeroDivisionError" :: "ArithmeticError" :: Exception_mro) msg.
(** networkx: [NetworkXUnfeasible(NetworkXAlgorithmError(NetworkXException(Exception)))] *)
Definition NetworkXUnfeasible (msg : string) : exn :=
  Exn ("networkx.exception.NetworkXUnfeasible" :: "networkx.exception.NetworkXAlgorithmError"
       :: "networkx.exception.NetworkXException" :: Exception_mro) msg.

Inductive result (A : Type) : Type :=
| Return (a : A)
| Raise (e : exn).
Arguments Return {A} a.
Arguments Raise {A} e.

(** [str(n)] for an integer. *)
Definition str_nat (n : nat) : string := NilZero.string_of_uint (Nat.to_uint n).
Definition str_int (z : Z) : string := NilZero.string_of_int (Z.to_int z).

(** ** The recipe: data model *)

Module Beakers.
Section Engine.

(** The ambient state Python callables act on. *)
Variable World : Type.

(** A beaker id ([str(uuid.uuid1())] when generated): an opaque token. *)
Definition item_id := nat.

(** A callable: its [__name__], whether [inspect.iscoroutinefunction] holds
    for it, and what a call (run to completion) does. *)
Record Callable : Type := {
  __name__ : string;
  iscoroutinefunction : bool;
  call : value -> World -> result value * World
}.

(** [class Transform(BaseModel)]; [error_map] in declaration order, each key
    a tuple of exception classes. *)
Record Transform : Type := {
  name : string;
  transform_func : Callable;
  error_map : list (list string * string)
}.

(** [class Seed(BaseModel)] *)
Record Seed : Type := {
  seed_name : string;
  num_items : nat;
  imported_at : option string
}.

(** [class ErrorType(BaseModel)]: the field [item: BaseModel] is validated by
    pydantic when the instance is built. *)
Definition ValidationError (msg : string) : exn :=
  Exn ("pydantic_core._pydantic_core.ValidationError" :: "ValueError" :: Exception_mro) msg.

Definition ErrorType (item : value) (exception exc_type : string) : result value :=
  if is_BaseModel item then Return (VErrorType item exception exc_type)
  else Raise (ValidationError "1 validation error for ErrorType").

(** [if_cond_true], [if_cond_false]: subscripting anything but the pair
    raises. *)
Definition if_cond_true (data_cond_tup : value) : result value :=
  match data_cond_tup with
  | VTuple d c => Return (if truthy c then d else VNone)
  | _ => Raise (TypeError "object is not subscriptable")
  end.

Definition if_cond_false (data_cond_tup : value) : result value :=
  match data_cond_tup with
  | VTuple d c => Return (if negb (truthy c) then d else VNone)
  | _ => Raise (TypeError "object is not subscriptable")
  end.

(** *** The graph library

    [networkx.DiGraph] as the recipe uses it: nodes with a [datatype]
    attribute in insertion order, and edges with their attribute dictionary
    ([transform], and [to_beaker] once [graph_data] wrote it) in insertion
    order, so that the successors of a node and its predecessors are
    listed in the order their edges were first added. *)

Record EdgeData : Type := {
  transform : Transform;
  to_beaker : option string
}.

Record DiGraph : Type := {
  _node : Dict.t string (option (option string));
  _adj : Dict.t (string * string) EdgeData
}.

Definition DiGraph_empty : DiGraph := {| _node := []; _adj := [] |}.

Definition nodes (g : DiGraph) : list string := Dict.keys (_node g).

(** [G.add_node(n, datatype=dt)] *)
Definition add_node (n : string) (datatype : option string) (g : DiGraph) : DiGraph :=
  {| _node := Dict.set n (Some datatype) (_node g); _adj := _adj g |}.

(** The implicit node creation of [add_edge]: an absent endpoint is added
    with no attribute. *)
Definition touch_node (n : string) (g : DiGraph) : DiGraph :=
  if Dict.mem n (_node g) then g
  else {| _node := Dict.set n None (_node g); _adj := _adj g |}.

(** [G.add_edge(u, v, transform=t)]: the attribute dictionary of an edge
    already present is updated, not replaced. *)
Definition add_edge (u v : string) (t : Transform) (g : DiGraph) : DiGraph :=
  let g := touch_node v (touch_node u g) in
  let data :=
    match Dict.get (u, v) (_adj g) with
    | Some d => {| transform := t; to_beaker := to_beaker d |}
    | None => {| transform := t; to_beaker := None |}
    end in
  {| _node := _node g; _adj := Dict.set (u, v) data (_adj g) |}.

(** [G.out_edges(n, data=True)] and [G.in_edges(n, data=True)] *)
Definition out_edges (g : DiGraph) (n : string) : list (string * string * EdgeData) :=
  filter (fun e => if string_dec (fst (fst e)) n then true else false) (_adj g).

Definition in_edges (g : DiGraph) (n : string) : list (string * string * EdgeData) :=
  filter (fun e => if string_dec (snd (fst e)) n then true else false) (_adj g).

Definition successors (g : DiGraph) (n : string) : list string :=
  map (fun e => snd (fst e)) (out_edges g n).

Definition predecessors (g : DiGraph) (n : string) : list string :=
  map (fun e => fst (fst e)) (in_edges g n).

Definition in_degree (g : DiGraph) (n : string) : nat := List.length (in_edges g n).

(** [networkx.topological_generations]: Kahn's algorithm, one generation of
    zero in-degree nodes at a time. *)
Fixpoint visit_children (children : list string)
    (indegree_map : Dict.t string nat) (zero_indegree : list string)
    : result (Dict.t string nat * list string) :=
  match children with
  | [] => Return (indegree_map, zero_indegree)
  | child :: rest =>
      match Dict.get child indegree_map with
      | None => Raise (RuntimeError "Graph changed during iteration")
      | Some d =>
          if (d - 1 =? 0)%nat
          then visit_children rest (Dict.del child indegree_map) (zero_indegree ++ [child])
          else visit_children rest (Dict.set child (d - 1)%nat indegree_map) zero_indegree
      end
  end.

Fixpoint visit_generation (g : DiGraph) (this_generation : list string)
    (indegree_map : Dict.t string nat) (zero_indegree : list string)
    : result (Dict.t string nat * list string) :=
  match this_generation with
  | [] => Return (indegree_map, zero_indegree)
  | node :: rest =>
      if Dict.mem node (_node g) then
        match visit_children (successors g node) indegree_map zero_indegree with
        | Return (m, z) => visit_generation g rest m z
        | Raise e => Raise e
        end
      else Raise (RuntimeError "Graph changed during iteration")
  end.

(** The generations yielded, and the exception that ends the iteration if
    there is one.  [fuel] bounds the number of generations. *)
Fixpoint topological_generations_loop (fuel : nat) (g : DiGraph)
    (indegree_map : Dict.t string nat) (zero_indegree : list string)
    : list (list string) * option exn :=
  match zero_indegree with
  | [] =>
      match indegree_map with
      | [] => ([], None)
      | _ :: _ =>
          ([], Some (NetworkXUnfeasible
                       "Graph contains a cycle or graph changed during iteration"))
      end
  | _ :: _ =>
      match fuel with
      | O => ([], Some (RuntimeError "out of fuel"))
      | S fuel' =>
          match visit_generation g zero_indegree indegree_map [] with
          | Raise e => ([], Some e)
          | Return (m, z) =>
              let (gens, err) := topological_generations_loop fuel' g m z in
              (zero_indegree :: gens, err)
          end
      end
  end.

Definition initial_indegree_map (g : DiGraph) : Dict.t string nat :=
  filter (fun p => (0 <? snd p)%nat) (map (fun v => (v, in_degree g v)) (nodes g)).

Definition initial_zero_indegree (g : DiGraph) : list string :=
  filter (fun v => (in_degree g v =? 0)%nat) (nodes g).

Definition topological_generations (g : DiGraph) : list (list string) * option exn :=
  topological_generations_loop (S (List.length (nodes g))) g
    (initial_indegree_map g) (initial_zero_indegree g).

(** [networkx.topological_sort] is a generator: the nodes it yields before
    it raises have been handed to the caller's loop. *)
Definition topological_sort (g : DiGraph) : list string * option exn :=
  let (gens, err) := topological_generations g in (List.concat gens, err).

(** *** Beakers, the database and the recipe *)

Definition rows := Dict.t item_id value.

(** [SqliteBeaker(name, model, recipe)] keeps its rows in the recipe's
    database under its name; [TempBeaker(name, None, recipe)] keeps them in
    the object. *)
Inductive Beaker : Type :=
| SqliteBeaker (beaker_name : string) (model : string)
| TempBeaker (beaker_name : string) (_items : rows).

Definition Beaker_name (b : Beaker) : string :=
  match b with SqliteBeaker n _ => n | TempBeaker n _ => n end.

Definition is_TempBeaker (b : Beaker) : bool :=
  match b with TempBeaker _ _ => true | SqliteBeaker _ _ => false end.

(** A row of the [_seeds] table. *)
Record SeedRow : Type := {
  row_name : string;
  row_beaker_name : string;
  row_num_items : nat;
  row_imported_at : string
}.

Record Db : Type := {
  _seeds : list SeedRow;
  tables : Dict.t string rows
}.

(** What iterating [seed_func()] does: the records yielded, and the
    exception that ends the iteration if there is one. *)
Definition SeedFunc := World -> (list value * option exn) * World.

Record Recipe : Type := {
  recipe_name : string;
  graph : DiGraph;
  beakers : Dict.t string Beaker;
  seeds : Dict.t string (string * SeedFunc);
  db : Db
}.

(** [Recipe(name, db_name)]: [database] is what the file [db_name] holds. *)
Definition Recipe_init (name : string) (database : Db) : Recipe :=
  {| recipe_name := name; graph := DiGraph_empty; beakers := []; seeds := [];
     db := database |}.

Definition Db_empty : Db := {| _seeds := []; tables := [] |}.

(** What an execution leaves behind besides the recipe: the entries written
    with [log.info], the calls made to transform functions with their
    outcome, and the records stored in beakers. *)
Inductive event : Type :=
| Logged (event_name : string) (fields : list (string * string))
| Called (from_b to_b : string) (t : Transform) (id : item_id) (item : value)
    (res : result value)
| Inserted (beaker : string) (id : item_id) (item : value).

Record State : Type := {
  recipe : Recipe;
  world : World;
  uuid_counter : nat;
  stdout : list string;
  trace : list event
}.

Definition with_recipe (r : Recipe) (s : State) : State :=
  {| recipe := r; world := world s; uuid_counter := uuid_counter s;
     stdout := stdout s; trace := trace s |}.

Definition with_world (w : World) (s : State) : State :=
  {| recipe := recipe s; world := w; uuid_counter := uuid_counter s;
     stdout := stdout s; trace := trace s |}.

Definition with_graph (g : DiGraph) (r : Recipe) : Recipe :=
  {| recipe_name := recipe_name r; graph := g; beakers := beakers r;
     seeds := seeds r; db := db r |}.

Definition with_beakers (b : Dict.t string Beaker) (r : Recipe) : Recipe :=
  {| recipe_name := recipe_name r; graph := graph r; beakers := b;
     seeds := seeds r; db := db r |}.

Definition with_seeds (sd : Dict.t string (string * SeedFunc)) (r : Recipe) : Recipe :=
  {| recipe_name := recipe_name r; graph := graph r; beakers := beakers r;
     seeds := sd; db := db r |}.

Definition with_db (d : Db) (r : Recipe) : Recipe :=
  {| recipe_name := recipe_name r; graph := graph r; beakers := beakers r;
     seeds := seeds r; db := d |}.

(** *** The monad of recipe operations *)

Definition M (A : Type) : Type := State -> result A * State.

Definition ret {A} (a : A) : M A := fun s => (Return a, s).
Definition raise {A} (e : exn) : M A := fun s => (Raise e, s).
Definition bind {A B} (m : M A) (k : A -> M B) : M B :=
  fun s => match m s with
           | (Return a, s') => k a s'
           | (Raise e, s') => (Raise e, s')
           end.

Notation "x <- m ;; k" := (bind m (fun x => k))
  (at level 61, m at next level, right associativity).
Notation "m ;;; k" := (bind m (fun _ => k))
  (at level 61, right associativity).

Definition get_recipe : M Recipe := fun s => (Return (recipe s), s).
Definition put_recipe (r : Recipe) : M unit := fun s => (Return tt, with_recipe r s).
Definition emit (ev : event) : M unit :=
  fun s => (Return tt,
            {| recipe := recipe s; world := world s; uuid_counter := uuid_counter s;
               stdout := stdout s; trace := trace s ++ [ev] |}).
(** [typer.secho(line)] *)
Definition secho (line : string) : M unit :=
  fun s => (Return tt,
            {| recipe := recipe s; world := world s; uuid_counter := uuid_counter s;
               stdout := stdout s ++ [line]; trace := trace s |}).
(** [str(uuid.uuid1())] *)
Definition uuid1 : M item_id :=
  fun s => (Return (uuid_counter s),
            {| recipe := recipe s; world := world s; uuid_counter := S (uuid_counter s);
               stdout := stdout s; trace := trace s |}).
(** [f(item)] for a callable of the application. *)
Definition call_func (f : Callable) (item : value) : M value :=
  fun s => let (res, w) := call f item (world s) in (res, with_world w s).

(** [for x in l: body(x)] *)
Fixpoint for_each {A} (body : A -> M unit) (l : list A) : M unit :=
  match l with
  | [] => ret tt
  | x :: l' => body x ;;; for_each body l'
  end.

(** [self.beakers[key]] *)
Definition lookup_beaker (key : string) : M Beaker :=
  fun s => match Dict.get key (beakers (recipe s)) with
           | Some b => (Return b, s)
           | None => (Raise (KeyError key), s)
           end.

(** *** Beaker storage *)

(** Modelled from the spec: the record-type check of a Persistent Beaker
    ([beakers.py] is not among the sources).  A record conforms to a
    beaker's declared record type when it is an instance of that model
    class. *)
Definition conforms (model : string) (item : value) : bool :=
  match item with
  | VModel cls _ => String.eqb cls model
  | VErrorType _ _ _ => String.eqb "ErrorType" model
  | _ => false
  end.

(** Modelled from the spec: the rows of a beaker ([beakers.py] is not among
    the sources).  A Persistent Beaker reads the row-store its name
    designates in the durable store, a Temporary Beaker its own memory. *)
Definition Beaker_rows (r : Recipe) (b : Beaker) : rows :=
  match b with
  | SqliteBeaker n _ =>
      match Dict.get n (tables (db r)) with Some rs => rs | None => [] end
  | TempBeaker _ its => its
  end.

Definition rows_of (r : Recipe) (key : string) : rows :=
  match Dict.get key (beakers r) with
  | Some b => Beaker_rows r b
  | None => []
  end.

(** Modelled from the spec: [Beaker.items()], the (id, record) pairs in
    storage order, for the beaker registered under [key] ([beakers.py] is
    not among the sources). *)
Definition Beaker_items (key : string) : M rows :=
  fun s => (Return (rows_of (recipe s) key), s).

(** Modelled from the spec: [Beaker.id_set()], the ids currently stored
    ([beakers.py] is not among the sources). *)
Definition id_set (r : Recipe) (key : string) : list item_id :=
  nodup Nat.eq_dec (Dict.keys (rows_of r key)).

Definition Beaker_id_set (key : string) : M (list item_id) :=
  fun s => (Return (id_set (recipe s) key), s).

(** Modelled from the spec: [len(beaker)], the count of stored records
    ([beakers.py] is not among the sources). *)
Definition Beaker_len (key : string) : M nat :=
  fun s => (Return (List.length (rows_of (recipe s) key)), s).

(** The rows of the beaker registered under [key] become [rs]. *)
Definition write_rows (key : string) (rs : rows) (r : Recipe) : Recipe :=
  match Dict.get key (beakers r) with
  | Some (SqliteBeaker n _) =>
      with_db {| _seeds := _seeds (db r); tables := Dict.set n rs (tables (db r)) |} r
  | Some (TempBeaker n _) =>
      with_beakers (Dict.set key (TempBeaker n rs) (beakers r)) r
  | None => r
  end.

(** Whether the beaker registered under [key] takes [item]: a Temporary
    Beaker checks nothing. *)
Definition accepts (r : Recipe) (key : string) (item : value) : bool :=
  match Dict.get key (beakers r) with
  | Some (SqliteBeaker _ model) => conforms model item
  | Some (TempBeaker _ _) => true
  | None => false
  end.

(** Modelled from the spec: [Beaker.add_item(record, id)] ([beakers.py] is
    not among the sources): inserts or overwrites the record at [id], an id
    being generated when none is given; a record that does not conform to
    the declared record type fails with a validation error. *)
Definition Beaker_add_item (key : string) (item : value) (id : option item_id) : M unit :=
  r <- get_recipe ;;
  if accepts r key item then
    id <- match id with Some i => ret i | None => uuid1 end ;;
    put_recipe (write_rows key (Dict.set id item (rows_of r key)) r) ;;;
    emit (Inserted key id item)
  else raise (ValidationError "record does not conform to the beaker's type").

(** Modelled from the spec: [Beaker.reset()], which removes all records
    ([beakers.py] is not among the sources). *)
Definition Beaker_reset (key : string) : M unit :=
  r <- get_recipe ;; put_recipe (write_rows key [] r).

(** ** Recipe: graph and declaration API *)

(** [Recipe.add_beaker]; the Python method also returns the new beaker. *)
Definition add_beaker (name : string) (datatype : option string) (r : Recipe) : Recipe :=
  let r := with_graph (add_node name datatype (graph r)) r in
  match datatype with
  | None => with_beakers (Dict.set name (TempBeaker name []) (beakers r)) r
  | Some model => with_beakers (Dict.set name (SqliteBeaker name model) (beakers r)) r
  end.

(** [Recipe.add_transform] *)
Definition add_transform (from_beaker to_beaker : string) (transform_func : Callable)
    (name : option string) (error_map : option (list (list string * string)))
    (r : Recipe) : Recipe :=
  let name :=
    match name with
    | Some n => n
    | None =>
        let n := __name__ transform_func in
        if String.eqb n "<lambda>" then "λ" else n
    end in
  let transform :=
    {| name := name; transform_func := transform_func;
       error_map := match error_map with Some m => m | None => [] end |} in
  with_graph (add_edge from_beaker to_beaker transform (graph r)) r.

(** [lambda data: (data, condition_func(data))] *)
Definition pair_with_condition (condition_func : Callable) : Callable :=
  {| __name__ := "<lambda>";
     iscoroutinefunction := false;
     call := fun data w =>
       match call condition_func data w with
       | (Return c, w') => (Return (VTuple data c), w')
       | (Raise e, w') => (Raise e, w')
       end |}.

Definition if_cond_true_func : Callable :=
  {| __name__ := "if_cond_true"; iscoroutinefunction := false;
     call := fun x w => (if_cond_true x, w) |}.

Definition if_cond_false_func : Callable :=
  {| __name__ := "if_cond_false"; iscoroutinefunction := false;
     call := fun x w => (if_cond_false x, w) |}.

Definition cond_name_of (from_beaker : string) (condition_func : Callable) : string :=
  if String.eqb (__name__ condition_func) "<lambda>"
  then "cond-" ++ from_beaker
  else "cond-" ++ from_beaker ++ "-" ++ __name__ condition_func.

(** [Recipe.add_conditional]; [if_false] defaults to the empty string. *)
Definition add_conditional (from_beaker : string) (condition_func : Callable)
    (if_true if_false : string) (r : Recipe) : Recipe :=
  let cond_name := cond_name_of from_beaker condition_func in
  let r := add_beaker cond_name None r in
  let r := add_transform from_beaker cond_name (pair_with_condition condition_func)
             (Some cond_name) None r in
  let r := add_beaker if_true None r in
  let r := add_transform cond_name if_true if_cond_true_func None None r in
  if String.eqb if_false "" then r
  else add_transform cond_name if_false if_cond_false_func None None r.

(** ** Recipe: seeds *)

(** [Recipe.add_seed] *)
Definition add_seed (seed_name beaker_name : string) (seed_func : SeedFunc)
    (r : Recipe) : Recipe :=
  with_seeds (Dict.set seed_name (beaker_name, seed_func) (seeds r)) r.

(** [Recipe._db_get_seed]: the first row of [_seeds] with that name. *)
Definition _db_get_seed (seed_name : string) (r : Recipe) : option Seed :=
  match find (fun row => String.eqb (row_name row) seed_name) (_seeds (db r)) with
  | Some row =>
      Some {| seed_name := row_name row; num_items := row_num_items row;
              imported_at := Some (row_imported_at row) |}
  | None => None
  end.

(** [f"{seed.imported_at}"] *)
Definition str_imported_at (seed : Seed) : string :=
  match imported_at seed with Some ts => ts | None => "None" end.

(** [class SeedError(Exception)] of [beakers.exceptions]. *)
Definition SeedError (msg : string) : exn :=
  Exn ("beakers.exceptions.SeedError" :: Exception_mro) msg.

(** The [for item in seed_func()] loop of [run_seed], counting in
    [num_items]. *)
Fixpoint add_seed_items (beaker_name : string) (items : list value) (num_items : nat)
    : M nat :=
  match items with
  | [] => ret num_items
  | item :: rest =>
      Beaker_add_item beaker_name item None ;;;
      add_seed_items beaker_name rest (num_items + 1)
  end.

(** [INSERT INTO _seeds (name, beaker_name, num_items) VALUES (?, ?, ?)],
    [imported_at] taking the database's current timestamp [now]. *)
Definition insert_seed_row (now seed_name beaker_name : string) (num_items : nat) : M unit :=
  r <- get_recipe ;;
  put_recipe
    (with_db {| _seeds := _seeds (db r) ++
                  [{| row_name := seed_name; row_beaker_name := beaker_name;
                      row_num_items := num_items; row_imported_at := now |}];
                tables := tables (db r) |} r).

(** [Recipe.run_seed]; [now] is the database's clock when the ledger row is
    written. *)
Definition run_seed (now : string) (seed_name : string) : M unit :=
  r <- get_recipe ;;
  match Dict.get seed_name (seeds r) with
  | None => raise (SeedError ("Seed " ++ seed_name ++ " not found"))
  | Some (beaker_name, seed_func) =>
      _ <- lookup_beaker beaker_name ;;
      match _db_get_seed seed_name r with
      | Some seed =>
          raise (SeedError (seed_name ++ " already run at " ++ str_imported_at seed))
      | None =>
          emit (Logged "run_seed" [("seed_name", seed_name); ("beaker_name", beaker_name)]) ;;;
          produced <- (fun s => let '((items, err), w) := seed_func (world s) in
                                (Return (items, err), with_world w s)) ;;
          num_items <- add_seed_items beaker_name (fst produced) 0 ;;
          match snd produced with
          | Some e => raise e
          | None => insert_seed_row now seed_name beaker_name num_items
          end
      end
  end.

(** ** Recipe: commands *)

(** The loop of [Recipe.reset] over [self.beakers.values()]. *)
Definition reset_beaker (kb : string * Beaker) : M unit :=
  let (key, beaker) := kb in
  bl <- Beaker_len key ;;
  if (0 <? bl)%nat then
    Beaker_reset key ;;;
    secho (Beaker_name beaker ++ " reset (" ++ str_nat bl ++ ")")
  else secho (Beaker_name beaker ++ " empty").

(** [Recipe.reset]; it returns [None]. *)
Definition reset : M unit :=
  r <- get_recipe ;;
  put_recipe (with_db {| _seeds := []; tables := tables (db r) |} r) ;;;
  secho "seeds reset" ;;;
  for_each reset_beaker (beakers r).

(** The [reset] command of [cli.py]: it calls [ctx.obj.reset()] and exits
    with the code of a command that ended normally. *)
Definition cli_reset : M nat := reset ;;; ret 0%nat.

(** ** Recipe: introspection *)

(** One entry of the [nodes] dictionary of [graph_data]; ["rank"] is absent
    until the in-edges have been scanned. *)
Record NodeData : Type := {
  nd_name : string;
  nd_temp : bool;
  nd_len : nat;
  nd_edges : list EdgeData;
  nd_rank : option nat
}.

Definition with_rank (k : nat) (d : NodeData) : NodeData :=
  {| nd_name := nd_name d; nd_temp := nd_temp d; nd_len := nd_len d;
     nd_edges := nd_edges d; nd_rank := Some k |}.

Definition with_edge (e : EdgeData) (d : NodeData) : NodeData :=
  {| nd_name := nd_name d; nd_temp := nd_temp d; nd_len := nd_len d;
     nd_edges := nd_edges d ++ [e]; nd_rank := nd_rank d |}.

(** [nodes[from_b]["rank"]] *)
Definition rank_of (nodes : Dict.t string NodeData) (from_b : string) : result nat :=
  match Dict.get from_b nodes with
  | None => Raise (KeyError from_b)
  | Some d =>
      match nd_rank d with
      | None => Raise (KeyError "rank")
      | Some k => Return k
      end
  end.

(** The loop over [self.graph.in_edges(node, data=True)]. *)
Fixpoint max_in_rank (nodes : Dict.t string NodeData)
    (edges : list (string * string * EdgeData)) (rank : nat) : result nat :=
  match edges with
  | [] => Return rank
  | (from_b, _, _) :: rest =>
      match rank_of nodes from_b with
      | Raise e => Raise e
      | Return k => max_in_rank nodes rest (if (rank <? k)%nat then k else rank)
      end
  end.

(** The loop over [self.graph.out_edges(node, data=True)]: the edge's
    dictionary gets its ["to_beaker"] key in the graph, and that dictionary
    is what the node's ["edges"] list holds. *)
Fixpoint collect_out_edges (edges : list (string * string * EdgeData))
    (g : DiGraph) (d : NodeData) : DiGraph * NodeData :=
  match edges with
  | [] => (g, d)
  | (from_b, to_b, edge) :: rest =>
      let edge' := {| transform := transform edge; to_beaker := Some to_b |} in
      collect_out_edges rest
        {| _node := _node g; _adj := Dict.set (from_b, to_b) edge' (_adj g) |}
        (with_edge edge' d)
  end.

Definition graph_data_node (nodes : Dict.t string NodeData) (node : string)
    : M (Dict.t string NodeData) :=
  beaker <- lookup_beaker node ;;
  len <- Beaker_len node ;;
  r <- get_recipe ;;
  let d := {| nd_name := node; nd_temp := is_TempBeaker beaker; nd_len := len;
              nd_edges := []; nd_rank := None |} in
  let nodes := Dict.set node d nodes in
  match max_in_rank nodes (in_edges (graph r) node) 0 with
  | Raise e => raise e
  | Return rank =>
      let (g, d) := collect_out_edges (out_edges (graph r) node) (graph r)
                      (with_rank (rank + 1) d) in
      put_recipe (with_graph g r) ;;;
      ret (Dict.set node d nodes)
  end.

Fixpoint graph_data_loop (order : list string) (nodes : Dict.t string NodeData)
    : M (Dict.t string NodeData) :=
  match order with
  | [] => ret nodes
  | node :: rest =>
      nodes' <- graph_data_node nodes node ;;
      graph_data_loop rest nodes'
  end.

(** The sort key [(x["rank"], x["name"])] and the order of Python tuples. *)
Definition sort_key (x : NodeData) : result (nat * string) :=
  match nd_rank x with
  | Some k => Return (k, nd_name x)
  | None => Raise (KeyError "rank")
  end.

Definition key_lt (a b : nat * string) : bool :=
  ((fst a <? fst b)%nat || ((fst a =? fst b)%nat && String.ltb (snd a) (snd b)))%bool.

(** [sorted(xs, key=...)], a stable sort, on the decorated list. *)
Fixpoint insert_by_key {A} (x : (nat * string) * A) (l : list ((nat * string) * A))
    : list ((nat * string) * A) :=
  match l with
  | [] => [x]
  | y :: l' => if key_lt (fst y) (fst x) then y :: insert_by_key x l' else x :: y :: l'
  end.

Fixpoint sort_by_key {A} (l : list ((nat * string) * A)) : list ((nat * string) * A) :=
  match l with
  | [] => []
  | x :: l' => insert_by_key x (sort_by_key l')
  end.

Fixpoint decorate (xs : list NodeData) : result (list ((nat * string) * NodeData)) :=
  match xs with
  | [] => Return []
  | x :: rest =>
      match sort_key x with
      | Raise e => Raise e
      | Return k =>
          match decorate rest with
          | Raise e => Raise e
          | Return l => Return ((k, x) :: l)
          end
      end
  end.

Definition sorted (xs : list NodeData) : result (list NodeData) :=
  match decorate xs with
  | Raise e => Raise e
  | Return l => Return (map snd (sort_by_key l))
  end.

(** [Recipe.graph_data] *)
Definition graph_data : M (list NodeData) :=
  r <- get_recipe ;;
  let (order, err) := topological_sort (graph r) in
  nodes <- graph_data_loop order [] ;;
  match err with
  | Some e => raise e
  | None =>
      match sorted (Dict.values nodes) with
      | Raise e => raise e
      | Return l => ret l
      end
  end.

(** ** Recipe: running *)

(** [except Exception as e: handler(e)] around [body]. *)
Definition try_except_Exception {A} (body : M A) (handler : exn -> M A) : M A :=
  fun s => match body s with
           | (Return a, s') => (Return a, s')
           | (Raise e, s') =>
               if isinstance1 e "Exception" then handler e s' else (Raise e, s')
           end.

(** [t_func(item)]: a coroutine function is run to completion on the event
    loop, any other function is called directly; either way the call and
    its outcome are recorded. *)
Definition run_until_complete (c : World -> result value * World) := c.

Definition t_func (from_b to_b : string) (transform : Transform)
    (id : item_id) (item : value) : M value :=
  fun s =>
    let f := transform_func transform in
    let (res, w) :=
      if iscoroutinefunction f then run_until_complete (call f item) (world s)
      else call f item (world s) in
    (res, {| recipe := recipe s; world := w; uuid_counter := uuid_counter s;
             stdout := stdout s;
             trace := trace s ++ [Called from_b to_b transform id item res] |}).

(** The [for ... in transform.error_map.items()] loop with its [else]. *)
Fixpoint route_exception (error_map : list (list string * string))
    (id : item_id) (item : value) (e : exn) : M unit :=
  match error_map with
  | [] => raise e
  | (error_types, error_beaker_name) :: rest =>
      if isinstance e error_types then
        _ <- lookup_beaker error_beaker_name ;;
        match ErrorType item (exc_str e) (str_type e) with
        | Raise e' => raise e'
        | Return err => Beaker_add_item error_beaker_name err (Some id)
        end
      else route_exception rest id item e
  end.

(** The body of the loop over [from_beaker.items()] for an id that is not
    in [already_processed]. *)
Definition process_item (from_b to_b : string) (transform : Transform)
    (id : item_id) (item : value) : M unit :=
  try_except_Exception
    (transformed <- t_func from_b to_b transform id item ;;
     if truthy transformed then Beaker_add_item to_b transformed (Some id)
     else ret tt)
    (fun e => route_exception (error_map transform) id item e).

Definition mem_id (id : item_id) (ids : list item_id) : bool :=
  if in_dec Nat.eq_dec id ids then true else false.

(** The body of the loop over the out-edges of a node. *)
Definition run_edge (e : string * string * EdgeData) : M unit :=
  let '(from_b, to_b, edge) := e in
  let transform := transform edge in
  _ <- lookup_beaker from_b ;;
  _ <- lookup_beaker to_b ;;
  from_ids <- Beaker_id_set from_b ;;
  to_ids <- Beaker_id_set to_b ;;
  let already_processed := filter (fun id => mem_id id to_ids) from_ids in
  from_len <- Beaker_len from_b ;;
  emit (Logged "transform"
          [("from_b", from_b); ("to_b", to_b);
           ("to_process",
            str_int (Z.of_nat from_len - Z.of_nat (List.length already_processed)));
           ("already_processed", str_nat (List.length already_processed));
           ("transform", name transform)]) ;;;
  items <- Beaker_items from_b ;;
  for_each (fun p : item_id * value =>
              let (id, item) := p in
              if mem_id id already_processed then ret tt
              else process_item from_b to_b transform id item)
           items.

(** Truth value of an optional beaker name. *)
Definition given (name : option string) : bool :=
  match name with
  | Some n => negb (String.eqb n "")
  | None => false
  end.

Definition str_option (name : option string) : string :=
  match name with Some n => n | None => "None" end.

Definition is_name (node : string) (name : option string) : bool :=
  match name with
  | Some n => String.eqb node n
  | None => false
  end.

(** The loop of [run_once] over the topological order; the result tells
    whether the loop was left by [break]. *)
Fixpoint run_nodes (start_beaker end_beaker : option string)
    (order : list string) (started : bool) : M bool :=
  match order with
  | [] => ret false
  | node :: rest =>
      if (negb started && negb (is_name node start_beaker))%bool
      then
        emit (Logged "partial run skip"
                [("node", node); ("waiting_for", str_option start_beaker)]) ;;;
        run_nodes start_beaker end_beaker rest false
      else
        (if started then ret tt else emit (Logged "partial run start" [("node", node)])) ;;;
        if (given end_beaker && is_name node end_beaker)%bool
        then emit (Logged "partial run end" [("node", node)]) ;;; ret true
        else
        r <- get_recipe ;;
        for_each run_edge (out_edges (graph r) node) ;;;
        run_nodes start_beaker end_beaker rest true
  end.

(** [Recipe.run_once] *)
Definition run_once (start_beaker end_beaker : option string) : M unit :=
  r <- get_recipe ;;
  emit (Logged "run_once" [("recipe", ("Recipe(" ++ recipe_name r ++ ")")%string)]) ;;;
  let started := if given start_beaker then false else true in
  let (order, err) := topological_sort (graph r) in
  broke <- run_nodes start_beaker end_beaker order started ;;
  if (broke : bool) then ret tt
  else match err with
       | Some e => raise e
       | None => ret tt
       end.

(** ** Recipe: listing seeds and display *)

(** [Seed.__str__]; an empty [imported_at] is falsy. *)
Definition Seed___str__ (seed : Seed) : string :=
  match imported_at seed with
  | Some ts =>
      if String.eqb ts "" then seed_name seed
      else seed_name seed ++ " (" ++ str_nat (num_items seed) ++ " items imported at "
             ++ ts ++ ")"
  | None => seed_name seed
  end.

(** [Seed(name=seed_name)] *)
Definition Seed_named (sname : string) : Seed :=
  {| seed_name := sname; num_items := 0; imported_at := None |}.

(** The loop of [Recipe.list_seeds] over [self.seeds.items()]; [by_beaker]
    is a [defaultdict(list)]. *)
Fixpoint list_seeds_loop (items : list (string * (string * SeedFunc))) (r : Recipe)
    (by_beaker : Dict.t string (list Seed)) : Dict.t string (list Seed) :=
  match items with
  | [] => by_beaker
  | (sname, (beaker_name, _)) :: rest =>
      let seed :=
        match _db_get_seed sname r with
        | Some seed => seed
        | None => Seed_named sname
        end in
      let listed :=
        match Dict.get beaker_name by_beaker with
        | Some l => l
        | None => []
        end in
      list_seeds_loop rest r (Dict.set beaker_name (listed ++ [seed]) by_beaker)
  end.

(** [Recipe.list_seeds] *)
Definition list_seeds (r : Recipe) : Dict.t string (list Seed) :=
  list_seeds_loop (seeds r) r [].

(** [collections.Counter(keys)]: how often each key occurs, the keys in
    the order of their first occurrence. *)
Fixpoint Counter_loop (keys : list string) (c : Dict.t string nat) : Dict.t string nat :=
  match keys with
  | [] => c
  | k :: rest =>
      Counter_loop rest
        (Dict.set k (match Dict.get k c with Some n => n + 1 | None => 1 end) c)
  end.

Definition Counter (keys : list string) : Dict.t string nat := Counter_loop keys [].

(** [c.__name__] for a class given by its qualified name: what follows the
    last dot. *)
Fixpoint last_component (s acc : string) : string :=
  match s with
  | EmptyString => acc
  | String c rest =>
      if Ascii.eqb c "."%char then last_component rest ""
      else last_component rest (acc ++ String c "")
  end.

Definition class___name__ (cls : string) : string := last_component cls "".

(** The loops of [Recipe.show]: the entries of an error map (every key is
    a tuple of classes), the edges of a node, the nodes. *)
Definition show_error_entry (kv : list string * string) : M unit :=
  let (k, v) := kv in
  secho ("    " ++ String.concat " " (map class___name__ k) ++ " -> " ++ v).

Definition show_edge (edge : EdgeData) : M unit :=
  match to_beaker edge with
  | None => raise (KeyError "to_beaker")
  | Some to_b =>
      secho ("  -(" ++ name (transform edge) ++ ")-> " ++ to_b) ;;;
      for_each show_error_entry (error_map (transform edge))
  end.

Definition show_node (node : NodeData) : M unit :=
  (if nd_temp node then secho (nd_name node)
   else secho (nd_name node ++ " (" ++ str_nat (nd_len node) ++ ")")) ;;;
  for_each show_edge (nd_edges node).

(** [Recipe.show]; the colours of [typer.secho] are not part of the text. *)
Definition show : M unit :=
  r <- get_recipe ;;
  let seed_count := Counter (Dict.keys (seeds r)) in
  secho "Seeds" ;;;
  for_each (fun bc : string * nat =>
              secho ("  " ++ fst bc ++ " (" ++ str_nat (snd bc) ++ ")"))
           seed_count ;;;
  described <- graph_data ;;
  for_each show_node described.

(** ** The command line

    The commands of [cli.py] on the recipe [ctx.obj]; a command that ends
    normally exits with code 0, [raise typer.Exit(1)] exits with code 1,
    any other exception leaves the command as it is. *)

(** The [seeds] command. *)
Definition cli_seeds : M nat :=
  r <- get_recipe ;;
  for_each (fun bs : string * list Seed =>
              secho (fst bs) ;;;
              for_each (fun seed => secho ("  " ++ Seed___str__ seed)) (snd bs))
           (list_seeds r) ;;;
  ret 0%nat.

(** The [seed] command: [except SeedError as e] prints [e] and exits with
    code 1. *)
Definition cli_seed (now sname : string) : M nat :=
  fun s =>
    match run_seed now sname s with
    | (Return _, s') => (Return 0%nat, s')
    | (Raise e, s') =>
        if isinstance1 e "beakers.exceptions.SeedError"
        then (secho (exc_str e) ;;; ret 1%nat) s'
        else (Raise e, s')
    end.

(** The [show] command. *)
Definition cli_show : M nat := show ;;; ret 0%nat.

(** ** Sequences of declarations

    The calls by which application code builds a recipe, as data. *)

Inductive declaration : Type :=
| AddBeaker (name : string) (datatype : option string)
| AddTransform (from_beaker to_beaker : string) (transform_func : Callable)
    (name : option string) (error_map : option (list (list string * string)))
| AddConditional (from_beaker : string) (condition_func : Callable)
    (if_true if_false : string)
| AddSeed (seed_name beaker_name : string) (seed_func : SeedFunc).

Definition declare (d : declaration) (r : Recipe) : Recipe :=
  match d with
  | AddBeaker n dt => add_beaker n dt r
  | AddTransform f t fn n em => add_transform f t fn n em r
  | AddConditional f c it ifa => add_conditional f c it ifa r
  | AddSeed sn bn sf => add_seed sn bn sf r
  end.

Definition declare_all (ds : list declaration) (r : Recipe) : Recipe :=
  fold_left (fun r d => declare d r) ds r.

(** [name] is a key of [self.beakers]. *)
Definition is_declared (r : Recipe) (name : string) : Prop :=
  In name (Dict.keys (beakers r)).

(** The beakers a declaration refers to without declaring them itself have
    been declared. *)
Definition refers_to_declared (r : Recipe) (d : declaration) : Prop :=
  match d with
  | AddBeaker _ _ => True
  | AddTransform f t _ _ _ => is_declared r f /\ is_declared r t
  | AddConditional f _ _ ifa => is_declared r f /\ (ifa = "" \/ is_declared r ifa)
  | AddSeed _ _ _ => True
  end.

Fixpoint all_refer_to_declared (ds : list declaration) (r : Recipe) : Prop :=
  match ds with
  | [] => True
  | d :: ds' => refers_to_declared r d /\ all_refer_to_declared ds' (declare d r)
  end.

(** The node set of the graph and the key set of the beaker mapping. *)
Definition nodes_are_beakers (r : Recipe) : Prop :=
  forall n, In n (nodes (graph r)) <-> is_declared r n.

Definition beakers_are_nodes (r : Recipe) : Prop :=
  forall n, is_declared r n -> In n (nodes (graph r)).

End Engine.

Arguments Logged {World}.
Arguments Inserted {World}.
Arguments AddBeaker {World}.
End Beakers.

(** ** Transform wrappers *)

Module Wrappers.
Section Wrappers.

Variable World : Type.

(** The clock and the event loop's timer: [time.time()] reads the clock of
    the world, [await asyncio.sleep(d)] lets [d] seconds pass.  Seconds are
    rationals here. *)
Variable time_time : World -> Q.
Variable asyncio_sleep : Q -> World -> World.

(** What evaluating [edge_func(item)] gives: the call raised, or it returned
    a value that is not awaitable, or it returned an awaitable (a coroutine
    when [edge_func] is an [async def]), given by what awaiting it does. *)
Inductive call_result : Type :=
| CallRaised (e : exn)
| Plain (v : value)
| Awaitable (run : World -> result value * World).

Definition edge_function : Type := value -> World -> call_result * World.

(** [await x] for a value that is not awaitable raises [TypeError]. *)
Definition await (c : call_result) (w : World) : result value * World :=
  match c with
  | CallRaised e => (Raise e, w)
  | Plain _ => (Raise (TypeError "object can't be used in 'await' expression"), w)
  | Awaitable run => run w
  end.

(** [await edge_func(item)] *)
Definition await_call (edge_func : edge_function) (item : value) (w : World)
    : result value * World :=
  let (c, w') := edge_func item w in await c w'.

(** [range(n)] *)
Definition range (n : Z) : list Z := map Z.of_nat (seq 0 (Z.to_nat n)).

(** One [log.error("Retry", exception=str(e), retry=n + 1, max_retries=retries)]. *)
Record RetryLog : Type := {
  log_exception : string;
  log_retry : Z;
  log_max_retries : Z
}.

(** What a run of the wrapped function leaves: the outcome, the world, the
    errors logged, and the number of times [edge_func] was called. *)
Record Run : Type := {
  outcome : result value;
  final_world : World;
  logged : list RetryLog;
  calls : nat
}.

(** The [for n in range(retries + 1)] loop of [Retry.new_func] and the
    statements after it. *)
Fixpoint Retry_loop (edge_func : edge_function) (retries : Z) (item : value)
    (ns : list Z) (exception : option exn) (w : World) : Run :=
  match ns with
  | [] =>
      match exception with
      | Some e => {| outcome := Raise e; final_world := w; logged := []; calls := 0 |}
      | None => {| outcome := Return VNone; final_world := w; logged := []; calls := 0 |}
      end
  | n :: rest =>
      match await_call edge_func item w with
      | (Return v, w') =>
          {| outcome := Return v; final_world := w'; logged := []; calls := 1 |}
      | (Raise e, w') =>
          if isinstance1 e "Exception" then
            let r := Retry_loop edge_func retries item rest (Some e) w' in
            {| outcome := outcome r; final_world := final_world r;
               logged := {| log_exception := exc_str e; log_retry := n + 1;
                            log_max_retries := retries |} :: logged r;
               calls := S (calls r) |}
          else {| outcome := Raise e; final_world := w'; logged := []; calls := 1 |}
      end
  end.

(** [Retry(edge_func, retries)]: what awaiting [new_func(item)] does. *)
Definition Retry (edge_func : edge_function) (retries : Z) (item : value) (w : World)
    : Run :=
  Retry_loop edge_func retries item (range (retries + 1)) None w.

(** [RateLimit(edge_func, requests_per_second)]: what awaiting
    [new_func(item)] does; [last_call] is the variable of the closure. *)
Definition RateLimit (edge_func : edge_function) (requests_per_second : Q)
    (item : value) (last_call : option Q) (w : World)
    : result value * (option Q * World) :=
  let throttled : result World :=
    match last_call with
    | None => Return w
    | Some t =>
        if Qeq_bool requests_per_second 0%Q
        then Raise (ZeroDivisionError "division by zero")
        else
          let diff := ((1 / requests_per_second) - (time_time w - t))%Q in
          if Qle_bool diff 0%Q then Return w else Return (asyncio_sleep diff w)
    end in
  match throttled with
  | Raise e => (Raise e, (last_call, w))
  | Return w1 =>
      let last_call := Some (time_time w1) in
      match edge_func item w1 with
      | (CallRaised e, w2) => (Raise e, (last_call, w2))
      | (Plain v, w2) => (Return v, (last_call, w2))
      | (Awaitable run, w2) => let (res, w3) := run w2 in (res, (last_call, w3))
      end
  end.

(** The outcomes of successive attempts: the world before attempt [k], and
    what attempt [k] gives. *)
Fixpoint world_before (edge_func : edge_function) (item : value) (k : nat) (w : World)
    : World :=
  match k with
  | O => w
  | S k' => snd (await_call edge_func item (world_before edge_func item k' w))
  end.

Definition attempt (edge_func : edge_function) (item : value) (k : nat) (w : World)
    : result value :=
  fst (await_call edge_func item (world_before edge_func item k w)).

End Wrappers.
End Wrappers.


(** * Example recipes

    Concrete recipes in the style of the test suite, with no ambient state
    ([World := unit]). *)

Module Examples.
Import Beakers.

Definition Word (w : string) : value := VModel "Word" w.

Definition initial (r : Recipe unit) : State unit :=
  {| recipe := r; world := tt; uuid_counter := 0; stdout := []; trace := [] |}.

Definition empty_recipe : Recipe unit := Recipe_init unit "test" Db_empty.

(** [def capitalized(word)] of [tests/test_recipe.py], as the identity on
    records. *)
Definition capitalized : Callable unit :=
  {| __name__ := "capitalized"; iscoroutinefunction := false;
     call := fun x w => (Return x, w) |}.

(** [test_add_transform]: the beaker [capitalized] is never declared. *)
Definition test_add_transform : Recipe unit :=
  add_transform "word" "capitalized" capitalized None None
    (add_beaker "word" (Some "Word") empty_recipe).

Definition test_add_transform_declarations : list (declaration unit) :=
  [AddBeaker "word" (Some "Word");
   AddBeaker "capitalized" (Some "Word");
   AddTransform "word" "capitalized" capitalized None None].

(** A predicate with a name. *)
Definition is_fruit : Callable unit :=
  {| __name__ := "is_fruit"; iscoroutinefunction := false;
     call := fun x w =>
       (Return (VBool (match x with
                       | VModel _ d => String.eqb d "apple"
                       | _ => false
                       end)), w) |}.

(** [recipe.add_conditional("word", is_fruit, "fruit", "nonfruit")] *)
Definition conditional_recipe : Recipe unit :=
  add_conditional "word" is_fruit "fruit" "nonfruit"
    (add_beaker "word" (Some "Word") empty_recipe).

(** A seed yielding three records, and a recipe it feeds. *)
Definition abc : SeedFunc unit :=
  fun w => (([Word "apple"; Word "banana"; Word "cucumber"], None), w).

Definition seeded_recipe : Recipe unit :=
  add_seed "abc" "word" abc
    (add_beaker "fruit" (Some "Word")
      (add_beaker "word" (Some "Word") empty_recipe)).

(** A database whose [word] table holds two records, and the recipe
    [word -> capitalized] over it with a given transform function and error
    map; [errors] is a beaker of [ErrorType] records. *)
Definition two_words : Db :=
  {| _seeds := []; tables := [("word", [(0%nat, Word "apple"); (1%nat, Word "banana")])] |}.

Definition edge_recipe (f : Callable unit) (error_map : list (list string * string))
    : Recipe unit :=
  add_transform "word" "capitalized" f None (Some error_map)
    (add_beaker "errors" (Some "ErrorType")
      (add_beaker "capitalized" (Some "Word")
        (add_beaker "word" (Some "Word") (Recipe_init unit "test" two_words)))).

(** The same edge with no other beaker. *)
Definition pair_recipe (f : Callable unit) : Recipe unit :=
  add_transform "word" "capitalized" f None None
    (add_beaker "capitalized" (Some "Word")
      (add_beaker "word" (Some "Word") (Recipe_init unit "test" two_words))).

Definition edge_transform (f : Callable unit) (error_map : list (list string * string))
    : Transform unit :=
  {| name := if String.eqb (__name__ f) "<lambda>" then "λ" else __name__ f;
     transform_func := f; error_map := error_map |}.


Definition ValueError (msg : string) : exn := Exn ("ValueError" :: Exception_mro) msg.
Definition SystemExit (msg : string) : exn := Exn ["SystemExit"; "BaseException"; "object"] msg.

(** A transform that raises [ValueError("bad word")], and one that calls
    [sys.exit("stop")]. *)
Definition raises_ValueError : Callable unit :=
  {| __name__ := "check"; iscoroutinefunction := false;
     call := fun _ w => (Raise (ValueError "bad word"), w) |}.

Definition exits : Callable unit :=
  {| __name__ := "exits"; iscoroutinefunction := false;
     call := fun _ w => (Raise (SystemExit "stop"), w) |}.

(** Wrapped functions whose world is the number of calls made so far: an
    [async def] that fails twice and then succeeds, one that always fails,
    and a plain [def] returning its argument. *)
Definition ConnectionError (msg : string) : exn :=
  Exn ("ConnectionError" :: "OSError" :: Exception_mro) msg.

Definition fails_twice : Wrappers.edge_function nat :=
  fun item n =>
    (Wrappers.Awaitable
       (fun m => if (m <? 3)%nat then (Raise (ConnectionError ("attempt " ++ str_nat m)), m)
                 else (Return item, m)),
     S n).

Definition always_fails : Wrappers.edge_function nat :=
  fun item n =>
    (Wrappers.Awaitable (fun m => (Raise (ConnectionError ("attempt " ++ str_nat m)), m)),
     S n).

Definition plain_identity : Wrappers.edge_function nat :=
  fun item n => (Wrappers.Plain nat item, S n).

(** [lambda x: x] *)
Definition identity : Callable unit :=
  {| __name__ := "<lambda>"; iscoroutinefunction := false;
     call := fun x w => (Return x, w) |}.

(** The recipe of [test_graph_data_multiple_rank]. *)
Definition test_graph_data_multiple_rank : Recipe unit :=
  add_transform "normalized" "spanish" identity None None
  (add_transform "normalized" "english" identity None None
  (add_transform "verbs" "normalized" identity None None
  (add_transform "nouns" "normalized" identity None None
  (add_beaker "spanish" (Some "Word")
  (add_beaker "english" (Some "Word")
  (add_beaker "normalized" (Some "Word")
  (add_beaker "verbs" (Some "Word")
  (add_beaker "nouns" (Some "Word") empty_recipe)))))))).

(** The same beakers and transforms, declared in another order. *)
Definition multiple_rank_reordered : Recipe unit :=
  add_transform "nouns" "normalized" identity None None
  (add_transform "verbs" "normalized" identity None None
  (add_transform "normalized" "english" identity None None
  (add_transform "normalized" "spanish" identity None None
  (add_beaker "nouns" (Some "Word")
  (add_beaker "normalized" (Some "Word")
  (add_beaker "verbs" (Some "Word")
  (add_beaker "english" (Some "Word")
  (add_beaker "spanish" (Some "Word") empty_recipe)))))))).

(** Two beakers that feed each other. *)
Definition cyclic_recipe : Recipe unit :=
  add_transform "b" "a" identity None None
  (add_transform "a" "b" identity None None
  (add_beaker "b" (Some "Word")
  (add_beaker "a" (Some "Word") empty_recipe))).

(** A seed whose generator yields one record and then raises, and a recipe
    it feeds. *)
Definition broken_seed : SeedFunc unit :=
  fun w => (([Word "apple"], Some (ValueError "bad row")), w).

Definition broken_recipe : Recipe unit :=
  add_seed "broken" "word" broken_seed
    (add_beaker "word" (Some "Word") empty_recipe).

(** A seed registered for a beaker that is not declared. *)
Definition stray_recipe : Recipe unit :=
  add_seed "abc" "words" abc
    (add_beaker "word" (Some "Word") empty_recipe).

(** Three beakers in a row over the two stored words:
    [word -> capitalized -> shouted]. *)
Definition chain_recipe : Recipe unit :=
  add_transform "capitalized" "shouted" identity None None
  (add_transform "word" "capitalized" capitalized None None
  (add_beaker "shouted" (Some "Word")
  (add_beaker "capitalized" (Some "Word")
  (add_beaker "word" (Some "Word") (Recipe_init unit "test" two_words))))).

End Examples.

(** * Properties

    The vocabulary of the statements proved below: traces and triples for
    the runs, graphs and their orders, keys and ranks. *)


Module SeedDefs.
Import Beakers.

Section Ids.
Context {World : Type}.

(** The ids stored in a beaker are below the id counter, so that the next
    generated id is new to the beaker. *)
Definition ids_below (s : State World) (key : string) : Prop :=
  forall id, In id (Dict.keys (rows_of (recipe s) key)) -> id < uuid_counter s.

End Ids.
End SeedDefs.

Module WrapperDefs.
Import Wrappers.

Section Attempts.
Context {World : Type}.
Variable edge_func : edge_function World.
Variable item : value.

(** Attempt [j], started in world [w], fails with an exception that
    [except Exception] catches. *)
Definition caught (j : nat) (w : World) : Prop :=
  exists e, attempt edge_func item j w = Raise e /\ isinstance1 e "Exception" = true.

(** A function that is not a coroutine function and returns a value that
    is not awaitable. *)
Definition returns_plain : Prop :=
  forall w, exists v w', edge_func item w = (Plain World v, w').

End Attempts.
End WrapperDefs.

Module RunDefs.
Import Beakers.

Section Runs.
Context {World : Type}.

(** Triples for the monad of recipe operations: from a state satisfying
    [P], [m] ends in a state satisfying [Q] when it returns and [E] when it
    raises. *)
Definition hoare {A} (P : State World -> Prop) (m : M World A)
    (Q : A -> State World -> Prop) (E : exn -> State World -> Prop) : Prop :=
  forall s, P s ->
    match m s with
    | (Return a, s') => Q a s'
    | (Raise e, s') => E e s'
    end.

(** The beaker an exception is routed to: the first entry of the error map
    whose tuple of classes the exception is an instance of. *)
Fixpoint matching_entry (error_map : list (list string * string)) (e : exn) : option string :=
  match error_map with
  | [] => None
  | (error_types, error_beaker_name) :: rest =>
      if isinstance e error_types then Some error_beaker_name
      else matching_entry rest e
  end.

(** The state after [item] was stored under [id] in the beaker [key]. *)
Definition stored (key : string) (id : item_id) (item : value) (s : State World) : State World :=
  {| recipe := write_rows key (Dict.set id item (rows_of (recipe s) key)) (recipe s);
     world := world s; uuid_counter := uuid_counter s; stdout := stdout s;
     trace := trace s ++ [Inserted key id item] |}.

(** The state after the transform of the edge was called on [item]. *)
Definition called (u v : string) (t : Transform World) (id : item_id) (item : value)
    (res : result value) (w : World) (s : State World) : State World :=
  {| recipe := recipe s; world := w; uuid_counter := uuid_counter s; stdout := stdout s;
     trace := trace s ++ [Called u v t id item res] |}.

Definition not_conforming : exn :=
  ValidationError "record does not conform to the beaker's type".

Definition error_record (item : value) (e : exn) : value :=
  VErrorType item (exc_str e) (str_type e).

(** The call recorded by [ev] did not raise an exception that no entry of
    the edge's error map matches. *)
Definition routed (ev : event World) : Prop :=
  match ev with
  | Called _ _ t _ _ (Raise e) => matching_entry (error_map t) e <> None
  | _ => True
  end.

Definition all_routed (tr0 : list (event World)) (s : State World) : Prop :=
  exists evs, trace s = tr0 ++ evs /\ Forall routed evs.

Definition aborted_by (tr0 : list (event World)) (e : exn) (s : State World) : Prop :=
  exists evs, trace s = tr0 ++ evs /\
    (Forall routed evs \/
     exists pre u v t id item,
       evs = pre ++ [Called u v t id item (Raise e)] /\ Forall routed pre).

(** Every event of the trace stands in the relation [R] to the event that
    follows it ([None] for the last one). *)
Definition each_followed (R : event World -> option (event World) -> Prop)
    (evs : list (event World)) : Prop :=
  forall pre ev post, evs = pre ++ ev :: post -> R ev (hd_error post).

(** What the claim about routed exceptions asks of an event and its
    successor, for a run started with the recipe [r0]: a call that raised
    an [Exception] with a matching entry, for an item that is a model
    record and a destination beaker that takes the error record, is
    followed by the insertion of that record, under the item's id, in the
    destination. *)
Definition error_stored_next (r0 : Recipe World) (ev : event World)
    (next : option (event World)) : Prop :=
  forall u v t id item e eb,
    ev = Called u v t id item (Raise e) ->
    isinstance1 e "Exception" = true ->
    matching_entry (error_map t) e = Some eb ->
    is_BaseModel item = true ->
    accepts r0 eb (error_record item e) = true ->
    next = Some (Inserted eb id (error_record item e)).

Definition errors_stored (r0 : Recipe World) (tr0 : list (event World)) (s : State World)
    : Prop :=
  (forall k x, accepts (recipe s) k x = accepts r0 k x) /\
  exists evs, trace s = tr0 ++ evs /\ each_followed (error_stored_next r0) evs.

(** A beaker is registered under its own name, as [add_beaker] does it. *)
Definition beakers_named (r : Recipe World) : Prop :=
  forall k b, Dict.get k (beakers r) = Some b -> Beaker_name b = k.

(** The records of [u] whose id is not in [v]: what the edge has to
    process. *)
Definition pending (r : Recipe World) (u v : string) : list (item_id * value) :=
  filter (fun p => negb (mem_id (fst p) (id_set r v))) (rows_of r u).

(** The (id, item) pairs the transform functions were called on. *)
Definition calls_of (evs : list (event World)) : list (item_id * value) :=
  flat_map (fun ev => match ev with
                      | Called _ _ _ id item _ => [(id, item)]
                      | _ => []
                      end) evs.

(** The ids under which records were stored in the beaker [key]. *)
Definition inserted_ids (key : string) (evs : list (event World)) : list item_id :=
  flat_map (fun ev => match ev with
                      | Inserted k id _ => if string_dec k key then [id] else []
                      | _ => []
                      end) evs.

(** The calls recorded in [evs] are calls of the transform of the edge. *)
Definition calls_on_edge (u v : string) (t : Transform World) (evs : list (event World))
    : Prop :=
  Forall (fun ev => match ev with
                    | Called u' v' t' _ _ _ => u' = u /\ v' = v /\ t' = t
                    | _ => True
                    end) evs.

(** The body of the loop of [run_edge] over the items. *)
Definition edge_body (u v : string) (t : Transform World) (already_processed : list item_id)
    (p : item_id * value) : M World unit :=
  let (id, item) := p in
  if mem_id id already_processed then ret tt else process_item u v t id item.

Definition already_processed_of (r : Recipe World) (u v : string) : list item_id :=
  filter (fun id => mem_id id (id_set r v)) (id_set r u).

Definition transform_log (r : Recipe World) (u v : string) (t : Transform World)
    : event World :=
  Logged "transform"
    [("from_b", u); ("to_b", v);
     ("to_process",
      str_int (Z.of_nat (List.length (rows_of r u))
               - Z.of_nat (List.length (already_processed_of r u v))));
     ("already_processed", str_nat (List.length (already_processed_of r u v)));
     ("transform", name t)].

Definition logged_state (ev : event World) (s : State World) : State World :=
  {| recipe := recipe s; world := world s; uuid_counter := uuid_counter s;
     stdout := stdout s; trace := trace s ++ [ev] |}.

Definition is_insertion (ev : event World) : Prop :=
  match ev with Inserted _ _ _ => True | _ => False end.



Definition run_once_log (r : Recipe World) : event World :=
  Logged "run_once" [("recipe", ("Recipe(" ++ recipe_name r ++ ")")%string)].

End Runs.
End RunDefs.

Module GraphDefs.
Import Beakers.

Section Graph.
Context {World : Type}.
Implicit Types (g : DiGraph World).

(** The edges of the graph, as pairs of nodes. *)
Definition edges g : list (string * string) := Dict.keys (_adj g).

(** What [add_node] and [add_edge] keep: no node and no edge is listed
    twice, and the endpoints of an edge are nodes. *)
Definition wf_graph g : Prop :=
  NoDup (nodes g) /\ NoDup (edges g) /\
  forall u v, In (u, v) (edges g) -> In u (nodes g) /\ In v (nodes g).

(** The nodes can be numbered so that every edge goes from a smaller
    number to a larger one. *)
Definition levelled g : Prop :=
  exists level : string -> nat, forall u v, In (u, v) (edges g) -> level u < level v.

(** In the list [l], every node comes after all its predecessors. *)
Definition topo_ordered g (l : list string) : Prop :=
  forall l1 v l2, l = l1 ++ v :: l2 -> forall u, In (u, v) (edges g) -> In u l1.

Definition mem_str (x : string) (l : list string) : bool :=
  if in_dec string_dec x l then true else false.

(** The number of predecessors of [v] that are not in [P]. *)
Definition remaining g (P : list string) (v : string) : nat :=
  List.length (filter (fun u => negb (mem_str u P)) (predecessors g v)).

(** The in-degree dictionary holds the count [cnt v] for the nodes where it
    is not zero, and nothing else. *)
Definition table_of g (cnt : string -> nat) (m : Dict.t string nat) : Prop :=
  NoDup (Dict.keys m) /\
  forall v, Dict.get v m =
    if mem_str v (nodes g) then (if (cnt v =? 0)%nat then None else Some (cnt v)) else None.

(** The counts while the children of [x] are visited: the children in
    [handled] have been decremented. *)
Definition count_during g (P : list string) (x : string) (handled : list string) (v : string) : nat :=
  if mem_str v handled then remaining g (P ++ [x]) v else remaining g P v.

(** The state of the algorithm between two nodes: [P] lists the nodes whose
    children have been visited, in order, and [Q] the nodes found to have
    no predecessor left and not visited yet. *)
Definition kahn_inv g (P Q : list string) (m : Dict.t string nat) : Prop :=
  NoDup (P ++ Q) /\
  incl (P ++ Q) (nodes g) /\
  (forall v, In v (nodes g) -> (In v (P ++ Q) <-> remaining g P v = 0)) /\
  table_of g (remaining g P) m /\
  topo_ordered g P.

End Graph.
End GraphDefs.

Module CycleDefs.
Import Beakers GraphDefs.

Section Cycle.
Context {World : Type}.
Implicit Types (g : DiGraph World).

(** A path of one edge or more. *)
Inductive path g : string -> string -> Prop :=
| path_edge u v : In (u, v) (edges g) -> path g u v
| path_step u v w : In (u, v) (edges g) -> path g v w -> path g u w.

(** No node is reached from itself. *)
Definition acyclic g : Prop := forall v, ~ path g v v.

(** A walk listed from its end: each node is followed by the node it was
    entered from. *)
Fixpoint bwalk g (l : list string) : Prop :=
  match l with
  | v :: ((u :: _) as t) => In (u, v) (edges g) /\ bwalk g t
  | _ => True
  end.

(** The length of the longest walk into [v], up to [k]. *)
Fixpoint lev g (k : nat) (v : string) : nat :=
  match k with
  | 0 => 0
  | S k' => list_max (map (fun u => S (lev g k' u)) (predecessors g v))
  end.

End Cycle.
End CycleDefs.

Module SortDefs.
Import Beakers.

(** The order of the sort keys: Python's order on [(int, str)] tuples. *)
Definition key_before (a b : nat * string) : Prop := key_lt a b = true.

Section Sort.
Context {A : Type}.
Implicit Types (x : (nat * string) * A) (l : list ((nat * string) * A)).

(** The keys of [l] are in strictly increasing order. *)
Definition increasing l : Prop := StronglySorted key_before (map fst l).

End Sort.
End SortDefs.

Module RankDefs.
Import Beakers GraphDefs.

Section Rank.
Context {World : Type}.
Implicit Types (g : DiGraph World) (s : State World) (nd : Dict.t string (NodeData World)).

(** The rank recorded for [n] in the dictionary of node descriptors. *)
Definition rank_in nd (n : string) : nat :=
  match Dict.get n nd with
  | Some d => match nd_rank d with Some k => k | None => 0 end
  | None => 0
  end.

(** The descriptors of the nodes in [done], each with its name and with a
    rank one above the largest rank of its predecessors. *)
Definition ranked g0 nd (done : list string) : Prop :=
  Dict.keys nd = done /\
  forall n, In n done ->
    exists d, Dict.get n nd = Some d /\ nd_name d = n /\
              nd_rank d = Some (rank_in nd n) /\
              rank_in nd n = list_max (map (rank_in nd) (predecessors g0 n)) + 1.

(** The key [(x["rank"], x["name"])] of a descriptor that has its rank. *)
Definition key_of (d : NodeData World) : nat * string :=
  (match nd_rank d with Some k => k | None => 0 end, nd_name d).

(** [rk] gives every node one more than the largest rank of its
    predecessors; [list_max] of no rank is 0. *)
Definition rank_rule g (rk : string -> nat) : Prop :=
  forall n, In n (nodes g) -> rk n = list_max (map rk (predecessors g n)) + 1.

(** Two graphs with the same nodes and the same edges, whatever the order
    they were added in. *)
Definition same_graph g1 g2 : Prop :=
  (forall n, In n (nodes g1) <-> In n (nodes g2)) /\
  (forall e, In e (edges g1) <-> In e (edges g2)).

Definition all_declared s : Prop :=
  forall n, In n (nodes (graph (recipe s))) -> is_declared (recipe s) n.

Definition level_of (levels : list (string * nat)) (n : string) : nat :=
  match Dict.get n levels with Some k => k | None => 0 end.

Definition levels_increase (levels : list (string * nat)) g : bool :=
  forallb (fun e => (level_of levels (fst e) <? level_of levels (snd e))%nat) (edges g).

Definition all_declaredb s : bool :=
  forallb (fun n => Dict.mem n (beakers (recipe s))) (nodes (graph (recipe s))).

Definition mem_edge (e : string * string) (l : list (string * string)) : bool :=
  existsb (fun e' => (String.eqb (fst e) (fst e') && String.eqb (snd e) (snd e'))%bool) l.

Definition same_graphb g1 g2 : bool :=
  (forallb (fun n => mem_str n (nodes g2)) (nodes g1) &&
   forallb (fun n => mem_str n (nodes g1)) (nodes g2) &&
   forallb (fun e => mem_edge e (edges g2)) (edges g1) &&
   forallb (fun e => mem_edge e (edges g1)) (edges g2))%bool.

End Rank.
End RankDefs.

Module PartialRunDefs.
Import Beakers.

Section Window.
Context {World : Type}.

(** The beaker a recorded call took its item from. *)
Definition call_from (ev : event World) : option string :=
  match ev with
  | Called u _ _ _ _ _ => Some u
  | _ => None
  end.

(** A recorded call took its item from one of the beakers [l]. *)
Definition from_in (l : list string) (ev : event World) : Prop :=
  forall u, call_from ev = Some u -> In u l.

(** The nodes of [order] whose outgoing edges the loop of [run_once] runs:
    those from [start_beaker] on, up to [end_beaker]. *)
Fixpoint run_window (start_beaker end_beaker : option string) (order : list string)
    (started : bool) : list string :=
  match order with
  | [] => []
  | node :: rest =>
      if (negb started && negb (is_name node start_beaker))%bool
      then run_window start_beaker end_beaker rest false
      else if (given end_beaker && is_name node end_beaker)%bool then []
      else node :: run_window start_beaker end_beaker rest true
  end.

(** The log entry for a node passed over while waiting for [start_beaker]. *)
Definition skip_log (start_beaker : option string) (node : string) : event World :=
  Logged "partial run skip" [("node", node); ("waiting_for", str_option start_beaker)].

(** What a run keeps of the state [s0] it started in: the graph, the
    seeds, the ledger, the declared beakers and what they accept, the id
    counter and the printed text; and every id stored in a beaker is still
    stored there. *)
Definition kept (s0 s : State World) : Prop :=
  graph (recipe s) = graph (recipe s0) /\
  seeds (recipe s) = seeds (recipe s0) /\
  _seeds (db (recipe s)) = _seeds (db (recipe s0)) /\
  recipe_name (recipe s) = recipe_name (recipe s0) /\
  (forall k, is_declared (recipe s) k <-> is_declared (recipe s0) k) /\
  (forall k x, accepts (recipe s) k x = accepts (recipe s0) k x) /\
  uuid_counter s = uuid_counter s0 /\
  stdout s = stdout s0 /\
  forall k id, In id (Dict.keys (rows_of (recipe s0) k)) ->
               In id (Dict.keys (rows_of (recipe s) k)).

(** Every record stored in a beaker is one that the beaker takes. *)
Definition well_typed (r : Recipe World) : Prop :=
  forall k id item, In (id, item) (rows_of r k) -> accepts r k item = true.

(** Whatever the state, [m] only appends events to the trace, and the
    events it appends satisfy [P]. *)
Definition extends {A} (P : event World -> Prop) (m : M World A) : Prop :=
  forall s, exists evs, trace (snd (m s)) = trace s ++ evs /\ Forall P evs.

End Window.
End PartialRunDefs.

Module OrderDefs.

(** The position of the first [x] in [l]. *)
Fixpoint index_in (x : string) (l : list string) : nat :=
  match l with
  | [] => 0
  | y :: l' => if string_dec x y then 0 else S (index_in x l')
  end.

End OrderDefs.

Module DescribeDefs.
Import Beakers.

Section Describe.
Context {World : Type}.

(** The dictionary of an edge once [graph_data] has written the
    destination in it. *)
Definition annotated (e : string * string * EdgeData World) : EdgeData World :=
  {| transform := transform (snd e); to_beaker := Some (snd (fst e)) |}.

(** The edge dictionaries after [graph_data] visited the nodes [visited]. *)
Definition annotate_from (visited : list string)
    (adj : Dict.t (string * string) (EdgeData World)) : Dict.t (string * string) (EdgeData World) :=
  map (fun e => if in_dec string_dec (fst (fst e)) visited then (fst e, annotated e) else e)
      adj.

Definition annotate_all (adj : Dict.t (string * string) (EdgeData World))
    : Dict.t (string * string) (EdgeData World) :=
  map (fun e => (fst e, annotated e)) adj.

(** The graph [g] with the edge dictionaries [adj]. *)
Definition with_adj (adj : Dict.t (string * string) (EdgeData World)) (g : DiGraph World)
    : DiGraph World :=
  {| _node := _node g; _adj := adj |}.

(** What the descriptor [d] says of the node [n] of the recipe [r]. *)
Definition describes (r : Recipe World) (n : string) (d : NodeData World) : Prop :=
  nd_name d = n /\
  (exists beaker, Dict.get n (beakers r) = Some beaker /\ nd_temp d = is_TempBeaker beaker) /\
  nd_len d = List.length (rows_of r n) /\
  nd_edges d = map annotated (out_edges (graph r) n).

End Describe.
End DescribeDefs.

Module SeedListDefs.
Import Beakers.

Section Listing.
Context {World : Type}.

(** What [list_seeds] shows for a seed: its ledger row when it has run,
    its name alone when it has not. *)
Definition seed_entry (r : Recipe World) (sname : string) : Seed :=
  match _db_get_seed sname r with
  | Some seed => seed
  | None => Seed_named sname
  end.

(** The entries of the seeds registered for the beaker [b], in the order
    of their registration. *)
Definition seeds_for (r : Recipe World) (b : string) : list Seed :=
  map (fun e => seed_entry r (fst e))
      (filter (fun e => String.eqb (fst (snd e)) b) (seeds r)).

(** The state after [line] was printed. *)
Definition printed (line : string) (s : State World) : State World :=
  {| recipe := recipe s; world := world s; uuid_counter := uuid_counter s;
     stdout := stdout s ++ [line]; trace := trace s |}.

(** Whatever the state, [m] only appends lines to the printed text. *)
Definition appends {A} (m : M World A) : Prop :=
  forall s, exists lines, stdout (snd (m s)) = stdout s ++ lines.

(** What [reset] keeps of the state it started in, and what it empties. *)
Definition emptied (s0 s : State World) : Prop :=
  (forall k, rows_of (recipe s) k = []) /\
  _seeds (db (recipe s)) = [] /\
  seeds (recipe s) = seeds (recipe s0) /\
  graph (recipe s) = graph (recipe s0) /\
  (forall k, is_declared (recipe s) k <-> is_declared (recipe s0) k) /\
  (forall k x, accepts (recipe s) k x = accepts (recipe s0) k x) /\
  world s = world s0 /\
  uuid_counter s = uuid_counter s0 /\
  trace s = trace s0.

End Listing.
End SeedListDefs.

(** * Properties

    ** Dictionaries *)

Module DictFacts.
Section Facts.
Context {K V : Type} `{EqDec K}.
Import Dict.
Implicit Types (k : K) (v : V) (d : Dict.t K V).

Lemma get_set_same k v d : get k (set k v d) = Some v.
Proof.
  induction d as [|[k' v'] d IH]; simpl.
  - destruct (eq_dec k k); congruence.
  - destruct (eq_dec k k') as [E|E]; simpl.
    + destruct (eq_dec k k); congruence.
    + destruct (eq_dec k k'); congruence.
Qed.

Lemma get_set_other k k' v d : k' <> k -> get k' (set k v d) = get k' d.
Proof.
  intros Hne. induction d as [|[k0 v0] d IH]; simpl.
  - destruct (eq_dec k' k); congruence.
  - destruct (eq_dec k k0) as [E|E]; simpl.
    + subst. destruct (eq_dec k' k0); congruence.
    + destruct (eq_dec k' k0); congruence.
Qed.

Lemma keys_set k v d : forall k', In k' (keys (set k v d)) <-> k' = k \/ In k' (keys d).
Proof.
  unfold keys. induction d as [|[k0 v0] d IH]; simpl; intros k'.
  - intuition.
  - destruct (eq_dec k k0) as [E|E]; simpl.
    + subst. intuition.
    + rewrite IH. intuition.
Qed.

Lemma get_In_keys k d : get k d <> None <-> In k (keys d).
Proof.
  unfold keys. induction d as [|[k0 v0] d IH]; simpl.
  - intuition.
  - destruct (eq_dec k k0) as [E|E].
    + subst. split; [auto | discriminate].
    + rewrite IH. intuition congruence.
Qed.

Lemma mem_In_keys k d : mem k d = true <-> In k (keys d).
Proof.
  rewrite <- get_In_keys. unfold mem. destruct (get k d); split; congruence.
Qed.

Lemma get_Some_In k v d : get k d = Some v -> In (k, v) d.
Proof.
  induction d as [|[k0 v0] d IH]; simpl; [discriminate|].
  destruct (eq_dec k k0); intros; [left; congruence | right; auto].
Qed.

Lemma NoDup_keys_set k v d : NoDup (keys d) -> NoDup (keys (set k v d)).
Proof.
  unfold keys. induction d as [|[k0 v0] d IH]; simpl; intros Hnd.
  - constructor; [intros [] | constructor].
  - inversion Hnd as [|? ? Hnin Hnd']; subst.
    destruct (eq_dec k k0) as [E|E]; simpl.
    + subst. constructor; auto.
    + constructor; auto.
      intros Hin. apply (keys_set k v d k0) in Hin. destruct Hin; [congruence | auto].
Qed.

Lemma length_set k v d :
  List.length (set k v d) = if mem k d then List.length d else S (List.length d).
Proof.
  unfold mem. induction d as [|[k0 v0] d IH]; simpl; auto.
  destruct (eq_dec k k0); simpl; auto.
  rewrite IH. destruct (get k d); auto.
Qed.

Lemma keys_del_incl k k' d : In k' (keys (del k d)) -> In k' (keys d).
Proof.
  unfold keys. induction d as [|[k0 v0] d IH]; simpl; [auto |].
  destruct (eq_dec k k0); simpl; [auto |]. intros [E|Hin]; auto.
Qed.

Lemma get_del_same k d : NoDup (keys d) -> get k (del k d) = None.
Proof.
  unfold keys. induction d as [|[k0 v0] d IH]; simpl; intros Hnd; [reflexivity |].
  inversion Hnd as [|? ? Hnin Hnd']; subst.
  destruct (eq_dec k k0) as [E|E].
  - subst. destruct (get k0 d) eqn:Eg; [| reflexivity].
    exfalso. apply Hnin. apply (proj1 (get_In_keys k0 d)). congruence.
  - simpl. destruct (eq_dec k k0); [contradiction | auto].
Qed.

Lemma get_del_other k k' d : k' <> k -> get k' (del k d) = get k' d.
Proof.
  intros Hne. induction d as [|[k0 v0] d IH]; simpl; [reflexivity |].
  destruct (eq_dec k k0) as [E|E]; simpl.
  - subst. destruct (eq_dec k' k0); [contradiction | reflexivity].
  - destruct (eq_dec k' k0); [reflexivity | exact IH].
Qed.

Lemma NoDup_keys_del k d : NoDup (keys d) -> NoDup (keys (del k d)).
Proof.
  unfold keys. induction d as [|[k0 v0] d IH]; simpl; intros Hnd; [constructor |].
  inversion Hnd as [|? ? Hnin Hnd']; subst.
  destruct (eq_dec k k0); simpl; [exact Hnd' |].
  constructor; [| auto]. intros Hin. apply Hnin. apply (keys_del_incl k k0 d Hin).
Qed.

Lemma length_del k d : get k d <> None -> S (List.length (del k d)) = List.length d.
Proof.
  induction d as [|[k0 v0] d IH]; simpl; [congruence |].
  destruct (eq_dec k k0); simpl; [reflexivity |]. intros Hg. f_equal. apply IH, Hg.
Qed.

Lemma length_set_present k v d : get k d <> None -> List.length (set k v d) = List.length d.
Proof.
  intros Hg. rewrite length_set. unfold mem. destruct (get k d); [reflexivity | congruence].
Qed.

Lemma keys_set_present k v d : In k (keys d) -> keys (set k v d) = keys d.
Proof.
  unfold keys. induction d as [|[k0 v0] d IH]; simpl; [intros [] |].
  destruct (eq_dec k k0) as [E|E]; simpl; [subst; reflexivity |].
  intros [Hk|Hk]; [congruence |]. f_equal. apply IH, Hk.
Qed.

Lemma keys_set_fresh k v d : ~ In k (keys d) -> keys (set k v d) = keys d ++ [k].
Proof.
  unfold keys. induction d as [|[k0 v0] d IH]; simpl; intros Hn; [reflexivity |].
  destruct (eq_dec k k0) as [E|E]; simpl.
  - exfalso. apply Hn. left. congruence.
  - f_equal. apply IH. tauto.
Qed.

Lemma set_set k v v' d : set k v' (set k v d) = set k v' d.
Proof.
  induction d as [|[k0 v0] d IH]; simpl.
  - destruct (eq_dec k k); [reflexivity | congruence].
  - destruct (eq_dec k k0) as [E|E]; simpl.
    + destruct (eq_dec k k); [reflexivity | congruence].
    + destruct (eq_dec k k0); [contradiction |]. f_equal. exact IH.
Qed.

Lemma In_get k v d : NoDup (keys d) -> In (k, v) d -> get k d = Some v.
Proof.
  unfold keys. induction d as [|[k0 v0] d IH]; simpl; intros Hnd Hin; [destruct Hin |].
  inversion Hnd as [|? ? Hnin Hnd']; subst.
  destruct Hin as [E|Hin].
  - inversion E; subst. destruct (eq_dec k k); [reflexivity | congruence].
  - destruct (eq_dec k k0) as [E|E]; [| apply IH; assumption].
    subst. exfalso. apply Hnin. apply in_map_iff. exists (k0, v). auto.
Qed.

End Facts.
End DictFacts.

(** ** Lists *)

Module ListFacts.

Lemma last_event (A : Type) (pre post pre' : list A) (x y : A) :
  pre ++ x :: post = pre' ++ [y] -> In x pre' \/ (x = y /\ post = [] /\ pre = pre').
Proof.
  revert pre'. induction pre as [|a pre IH]; intros pre' H.
  - destruct pre' as [|b pre']; simpl in H.
    + inversion H. auto.
    + inversion H. left. left. reflexivity.
  - destruct pre' as [|b pre']; simpl in H.
    + inversion H as [[Ha Hp]]. destruct pre; discriminate.
    + inversion H as [[Ha Hp]]. destruct (IH _ Hp) as [Hin|(Hx & Hpost & Hpre)].
      * left. right. exact Hin.
      * right. subst. auto.
Qed.

Lemma app_eq_elt (A : Type) (l1 l2 pre post : list A) (x : A) :
  l1 ++ l2 = pre ++ x :: post ->
  (exists post0, l1 = pre ++ x :: post0 /\ post = post0 ++ l2) \/
  (exists pre0, pre = l1 ++ pre0 /\ l2 = pre0 ++ x :: post).
Proof.
  revert pre. induction l1 as [|a l1 IH]; intros pre H; simpl in H.
  - right. exists pre. auto.
  - destruct pre as [|b pre]; simpl in H.
    + inversion H. subst. left. exists l1. auto.
    + inversion H as [[Ha Ht]]. destruct (IH _ Ht) as [(p0 & H1 & H2)|(p0 & H1 & H2)].
      * left. exists p0. subst. auto.
      * right. exists p0. subst. auto.
Qed.

Lemma filter_all (A : Type) (f : A -> bool) (l : list A) :
  (forall x, In x l -> f x = true) -> filter f l = l.
Proof.
  induction l as [|x l IH]; intros H; simpl; [reflexivity |].
  rewrite (H x (or_introl eq_refl)). f_equal. apply IH. intros y Hy. apply H. right. exact Hy.
Qed.

Lemma NoDup_map_filter (A B : Type) (g : A -> B) (f : A -> bool) (l : list A) :
  NoDup (map g l) -> NoDup (map g (filter f l)).
Proof.
  induction l as [|x l IH]; simpl; intros H; [constructor |].
  inversion H as [|? ? Hnin Hnd]; subst.
  destruct (f x); simpl; [| auto].
  constructor; [| auto].
  intros Hin. apply Hnin. apply in_map_iff in Hin. destruct Hin as (y & Hy & Hin).
  apply filter_In in Hin. apply in_map_iff. exists y. tauto.
Qed.

End ListFacts.

(** ** The declaration API *)

Module DeclFacts.
Import Beakers DictFacts.

Section Facts.
Variable World : Type.
Implicit Types (r : Recipe World) (g : DiGraph World).

Lemma nodes_add_node n dt g x :
  In x (nodes (add_node n dt g)) <-> x = n \/ In x (nodes g).
Proof. unfold nodes, add_node; simpl. apply keys_set. Qed.

Lemma nodes_touch_node n g x :
  In x (nodes (touch_node n g)) <-> x = n \/ In x (nodes g).
Proof.
  unfold touch_node, nodes.
  destruct (Dict.mem n (_node g)) eqn:E; simpl.
  - apply mem_In_keys in E. split; [auto | intros [->|]; auto].
  - apply keys_set.
Qed.

Lemma nodes_add_edge u v t g x :
  In x (nodes (add_edge u v t g)) <-> x = u \/ x = v \/ In x (nodes g).
Proof.
  unfold add_edge. unfold nodes at 1; simpl. fold (nodes (touch_node v (touch_node u g))).
  rewrite nodes_touch_node, nodes_touch_node. tauto.
Qed.

Lemma declared_add_beaker n dt r x :
  is_declared (add_beaker n dt r) x <-> x = n \/ is_declared r x.
Proof. unfold is_declared, add_beaker. destruct dt; simpl; apply keys_set. Qed.

Lemma nodes_add_beaker n dt r x :
  In x (nodes (graph (add_beaker n dt r))) <-> x = n \/ In x (nodes (graph r)).
Proof. unfold add_beaker. destruct dt; simpl; apply nodes_add_node. Qed.

Lemma declared_add_transform f t fn nm em r x :
  is_declared (add_transform f t fn nm em r) x <-> is_declared r x.
Proof. reflexivity. Qed.

Lemma nodes_add_transform f t fn nm em r x :
  In x (nodes (graph (add_transform f t fn nm em r))) <->
  x = f \/ x = t \/ In x (nodes (graph r)).
Proof. unfold add_transform; simpl. apply nodes_add_edge. Qed.

Lemma declared_add_conditional f c it ifa r x :
  is_declared (add_conditional f c it ifa r) x <->
  x = cond_name_of f c \/ x = it \/ is_declared r x.
Proof.
  unfold add_conditional.
  destruct (String.eqb ifa ""); repeat rewrite ?declared_add_transform, ?declared_add_beaker;
    tauto.
Qed.

Lemma nodes_add_conditional f c it ifa r x :
  In x (nodes (graph (add_conditional f c it ifa r))) <->
  x = cond_name_of f c \/ x = it \/ x = f \/ (ifa <> "" /\ x = ifa) \/ In x (nodes (graph r)).
Proof.
  unfold add_conditional.
  destruct (String.eqb_spec ifa "") as [E|E];
    repeat rewrite ?nodes_add_transform, ?nodes_add_beaker; tauto.
Qed.

Lemma beakers_are_nodes_declare d r :
  beakers_are_nodes r -> beakers_are_nodes (declare d r).
Proof.
  unfold beakers_are_nodes. intros H x. destruct d; cbn [declare].
  - rewrite declared_add_beaker, nodes_add_beaker. intuition.
  - rewrite declared_add_transform, nodes_add_transform. intuition.
  - rewrite declared_add_conditional, nodes_add_conditional. intuition.
  - unfold add_seed, is_declared; simpl. apply H.
Qed.

Lemma nodes_are_beakers_declare d r :
  refers_to_declared r d -> nodes_are_beakers r -> nodes_are_beakers (declare d r).
Proof.
  unfold nodes_are_beakers. intros Hd H x. destruct d; cbn [declare refers_to_declared] in *.
  - rewrite declared_add_beaker, nodes_add_beaker, H. tauto.
  - rewrite declared_add_transform, nodes_add_transform, H.
    destruct Hd. split; [intros [->|[->|]]; auto | auto].
  - rewrite declared_add_conditional, nodes_add_conditional, H.
    destruct Hd as [Hf Hifa].
    split; [| tauto].
    intros [->|[->|[->|[[Hne ->]|Hx]]]]; auto.
    destruct Hifa; [contradiction | auto].
  - unfold add_seed, is_declared; simpl. apply H.
Qed.

Lemma beakers_are_nodes_declare_all ds r :
  beakers_are_nodes r -> beakers_are_nodes (declare_all ds r).
Proof.
  revert r. induction ds as [|d ds IH]; simpl; intros r H; auto.
  apply IH, beakers_are_nodes_declare, H.
Qed.

Lemma nodes_are_beakers_declare_all ds r :
  all_refer_to_declared ds r -> nodes_are_beakers r ->
  nodes_are_beakers (declare_all ds r).
Proof.
  revert r. induction ds as [|d ds IH]; simpl; intros r Hall H; auto.
  destruct Hall as [Hd Hall]. apply IH; auto. apply nodes_are_beakers_declare; auto.
Qed.

(** C5, as the code has it: whatever the declarations, every key of the
    beaker mapping is a node of the graph; the node set equals the key set
    when every [add_transform] and [add_conditional] refers to beakers
    declared before it ([from] and [to]; [from] and, when given,
    [if_false]). *)
Theorem declarations_nodes_and_beakers (name : string) (database : Db) (ds : list (declaration World)) :
  beakers_are_nodes (declare_all ds (Recipe_init World name database)) /\
  (all_refer_to_declared ds (Recipe_init World name database) ->
   nodes_are_beakers (declare_all ds (Recipe_init World name database))).
Proof.
  split.
  - apply beakers_are_nodes_declare_all. intros n [].
  - intros Hall. apply nodes_are_beakers_declare_all; auto.
    intros n. unfold is_declared; simpl. tauto.
Qed.

End Facts.

Import Examples.

Lemma declarations_nodes_and_beakers_witness :
  all_refer_to_declared test_add_transform_declarations (Recipe_init unit "test" Db_empty) /\
  nodes_are_beakers (declare_all test_add_transform_declarations (Recipe_init unit "test" Db_empty)).
Proof.
  assert (H : all_refer_to_declared test_add_transform_declarations
                (Recipe_init unit "test" Db_empty)).
  { simpl. unfold is_declared. simpl. tauto. }
  split; [exact H |].
  exact (proj2 (declarations_nodes_and_beakers "test" Db_empty
                  test_add_transform_declarations) H).
Defined.

(** C5 as stated fails: after [add_beaker("word", Word)] and
    [add_transform("word", "capitalized", capitalized)], the recipe of
    [test_add_transform], the graph has the node [capitalized] and the
    beaker mapping has no such key. *)
Lemma add_transform_adds_node_without_beaker :
  test_add_transform =
    declare_all [AddBeaker "word" (Some "Word");
                 AddTransform "word" "capitalized" capitalized None None] empty_recipe /\
  In "capitalized" (nodes (graph test_add_transform)) /\
  ~ is_declared test_add_transform "capitalized" /\
  ~ nodes_are_beakers test_add_transform.
Proof.
  assert (Hin : In "capitalized" (nodes (graph test_add_transform))).
  { vm_compute. auto. }
  assert (Hnot : ~ is_declared test_add_transform "capitalized").
  { vm_compute. intros [H|[]]. discriminate H. }
  split; [reflexivity |]. split; [exact Hin |]. split; [exact Hnot |].
  intros H. apply Hnot, H, Hin.
Qed.

(** C6 on the code: after
    [add_conditional("word", is_fruit, "fruit", "nonfruit")] the synthetic
    beaker [cond-word-is_fruit] and [fruit] are Temporary Beakers, and both
    filtering edges are there, but [nonfruit] is a node of the graph with no
    beaker: the method declares [if_true] only. *)
Theorem add_conditional_leaves_if_false_undeclared :
  Dict.get "cond-word-is_fruit" (beakers conditional_recipe)
    = Some (TempBeaker "cond-word-is_fruit" []) /\
  Dict.get "fruit" (beakers conditional_recipe) = Some (TempBeaker "fruit" []) /\
  option_map (fun e => name (transform e))
    (Dict.get ("cond-word-is_fruit", "fruit") (_adj (graph conditional_recipe)))
    = Some "if_cond_true" /\
  option_map (fun e => name (transform e))
    (Dict.get ("cond-word-is_fruit", "nonfruit") (_adj (graph conditional_recipe)))
    = Some "if_cond_false" /\
  In "nonfruit" (nodes (graph conditional_recipe)) /\
  Dict.get "nonfruit" (beakers conditional_recipe) = None /\
  fst (run_once None None (initial conditional_recipe)) = Raise (KeyError "nonfruit").
Proof. vm_compute. intuition. Qed.

End DeclFacts.

(** ** Beaker storage, seeds and reset *)

Module SeedFacts.
Import Beakers SeedDefs DictFacts.

Section Facts.
Variable World : Type.
Implicit Types (r : Recipe World) (s : State World).

Lemma set_fresh (K V : Type) `{EqDec K} (k : K) (v : V) (d : Dict.t K V) :
  ~ In k (Dict.keys d) -> Dict.set k v d = d ++ [(k, v)].
Proof.
  unfold Dict.keys. induction d as [|[k0 v0] d IH]; simpl; intros Hn; auto.
  destruct (eq_dec k k0) as [E|E].
  - exfalso. apply Hn. left. congruence.
  - f_equal. apply IH. tauto.
Qed.

Lemma accepts_write_rows key rs r k v :
  accepts (write_rows key rs r) k v = accepts r k v.
Proof.
  unfold write_rows, accepts.
  destruct (Dict.get key (beakers r)) as [[n m|n its]|] eqn:E; simpl; auto.
  destruct (string_dec k key) as [->|Hne].
  - rewrite get_set_same, E. reflexivity.
  - rewrite get_set_other by exact Hne. reflexivity.
Qed.

Lemma declared_write_rows key rs r k :
  is_declared (write_rows key rs r) k <-> is_declared r k.
Proof.
  unfold write_rows, is_declared.
  destruct (Dict.get key (beakers r)) as [[n m|n its]|] eqn:E; simpl; try tauto.
  rewrite keys_set. split; [intros [->|]; auto | auto].
  apply get_In_keys. congruence.
Qed.

Lemma rows_of_write_rows_same key rs r :
  is_declared r key -> rows_of (write_rows key rs r) key = rs.
Proof.
  intros Hd. apply get_In_keys in Hd. unfold write_rows, rows_of.
  destruct (Dict.get key (beakers r)) as [[n m|n its]|] eqn:E; simpl; try congruence.
  - rewrite E. simpl. rewrite get_set_same. reflexivity.
  - rewrite get_set_same. reflexivity.
Qed.

Lemma seeds_write_rows key rs r : seeds (write_rows key rs r) = seeds r.
Proof.
  unfold write_rows. destruct (Dict.get key (beakers r)) as [[n m|n its]|]; reflexivity.
Qed.

Lemma ledger_write_rows key rs r : _seeds (db (write_rows key rs r)) = _seeds (db r).
Proof.
  unfold write_rows. destruct (Dict.get key (beakers r)) as [[n m|n its]|]; reflexivity.
Qed.

Lemma graph_write_rows key rs r : graph (write_rows key rs r) = graph r.
Proof.
  unfold write_rows. destruct (Dict.get key (beakers r)) as [[n m|n its]|]; reflexivity.
Qed.

Lemma add_seed_items_spec key items : forall s n,
  is_declared (recipe s) key ->
  Forall (fun item => accepts (recipe s) key item = true) items ->
  ids_below s key ->
  exists s',
    add_seed_items key items n s = (Return (n + List.length items), s') /\
    rows_of (recipe s') key =
      rows_of (recipe s) key ++ combine (seq (uuid_counter s) (List.length items)) items /\
    seeds (recipe s') = seeds (recipe s) /\
    _seeds (db (recipe s')) = _seeds (db (recipe s)) /\
    (forall k, is_declared (recipe s') k <-> is_declared (recipe s) k) /\
    world s' = world s.
Proof.
  induction items as [|item items IH]; intros s n Hd Hacc Hlt.
  - exists s. simpl. unfold ret. rewrite Nat.add_0_r, app_nil_r. repeat split; auto.
  - inversion Hacc as [|? ? Ha Hacc']; subst.
    simpl. unfold bind at 1. unfold Beaker_add_item, bind, get_recipe, uuid1, put_recipe, emit.
    rewrite Ha. simpl.
    set (r1 := write_rows key (Dict.set (uuid_counter s) item (rows_of (recipe s) key)) (recipe s)).
    set (s1 := {| recipe := r1; world := world s; uuid_counter := S (uuid_counter s);
                  stdout := stdout s;
                  trace := trace s ++ [Inserted key (uuid_counter s) item] |}).
    assert (Hfresh : ~ In (uuid_counter s) (Dict.keys (rows_of (recipe s) key))).
    { intros Hin. apply Hlt in Hin. lia. }
    assert (Hrows : rows_of r1 key = rows_of (recipe s) key ++ [(uuid_counter s, item)]).
    { unfold r1. rewrite rows_of_write_rows_same by exact Hd. apply set_fresh, Hfresh. }
    pose proof (IH s1 (n + 1)) as IH1.
    destruct IH1 as (s' & Hrun & Hr & Hs & Hl & Hk & Hw).
    + simpl. apply declared_write_rows, Hd.
    + simpl. eapply Forall_impl; [| exact Hacc'].
      intros a Haa. unfold r1. rewrite accepts_write_rows. exact Haa.
    + intros id Hin. simpl in *. rewrite Hrows in Hin.
      unfold Dict.keys in Hin. rewrite map_app, in_app_iff in Hin. simpl in Hin.
      destruct Hin as [Hin|[<-|[]]]; [apply Hlt in Hin; lia | lia].
    + exists s'. split.
      { replace (n + S (List.length items)) with (n + 1 + List.length items) by lia.
        exact Hrun. }
      split.
      { rewrite Hr. simpl recipe. rewrite Hrows. simpl uuid_counter.
        rewrite <- app_assoc. reflexivity. }
      split; [rewrite Hs; simpl; apply seeds_write_rows |].
      split; [rewrite Hl; simpl; apply ledger_write_rows |].
      split; [| exact Hw].
      intros k. rewrite Hk. simpl. apply declared_write_rows.
Qed.

Lemma find_app_None (A : Type) (f : A -> bool) (l : list A) (x : A) :
  find f l = None -> f x = true -> find f (l ++ [x]) = Some x.
Proof.
  induction l as [|y l IH]; simpl; intros Hn Hx.
  - rewrite Hx. reflexivity.
  - destruct (f y); [discriminate | auto].
Qed.

(** A call of [run_seed] for a seed with a ledger row. *)
Lemma run_seed_already_run now seed_name beaker_name seed_func seed s :
  Dict.get seed_name (seeds (recipe s)) = Some (beaker_name, seed_func) ->
  is_declared (recipe s) beaker_name ->
  _db_get_seed seed_name (recipe s) = Some seed ->
  run_seed now seed_name s =
    (Raise (SeedError (seed_name ++ " already run at " ++ str_imported_at seed)), s).
Proof.
  intros Hseed Hd Hrow. apply get_In_keys in Hd.
  unfold run_seed, bind, get_recipe, lookup_beaker, raise.
  rewrite Hseed.
  destruct (Dict.get beaker_name (beakers (recipe s))); [| congruence].
  rewrite Hrow. reflexivity.
Qed.

(** C4: a first [run_seed] of a registered seed whose generator yields the
    records [items] (all of the target beaker's type, the target beaker
    being declared) stores exactly those records under new ids and appends
    one ledger row counting them; a later call fails with the seed error
    that names the timestamp in the ledger and changes nothing, and so does a
    call for a seed name that is not registered, with its own message. *)
Theorem run_seed_at_most_once (now seed_name beaker_name : string) (seed_func : SeedFunc World)
    (items : list value) (w' : World) (s : State World) :
  Dict.get seed_name (seeds (recipe s)) = Some (beaker_name, seed_func) ->
  is_declared (recipe s) beaker_name ->
  _db_get_seed seed_name (recipe s) = None ->
  seed_func (world s) = ((items, None), w') ->
  Forall (fun item => accepts (recipe s) beaker_name item = true) items ->
  ids_below s beaker_name ->
  exists s1,
    run_seed now seed_name s = (Return tt, s1) /\
    rows_of (recipe s1) beaker_name =
      rows_of (recipe s) beaker_name
        ++ combine (seq (uuid_counter s) (List.length items)) items /\
    List.length (rows_of (recipe s1) beaker_name) =
      List.length (rows_of (recipe s) beaker_name) + List.length items /\
    _seeds (db (recipe s1)) =
      _seeds (db (recipe s)) ++
        [{| row_name := seed_name; row_beaker_name := beaker_name;
            row_num_items := List.length items; row_imported_at := now |}] /\
    (forall later,
       run_seed later seed_name s1 =
         (Raise (SeedError (seed_name ++ " already run at " ++ now)), s1)) /\
    (forall later other s2,
       Dict.get other (seeds (recipe s2)) = None ->
       run_seed later other s2 =
         (Raise (SeedError ("Seed " ++ other ++ " not found")), s2)).
Proof.
  intros Hseed Hd Hrow Hgen Hacc Hlt.
  set (s0 := {| recipe := recipe s; world := w'; uuid_counter := uuid_counter s;
                stdout := stdout s;
                trace := trace s ++ [Logged "run_seed"
                           [("seed_name", seed_name); ("beaker_name", beaker_name)]] |}).
  destruct (@add_seed_items_spec beaker_name items s0 0) as (s' & Hrun & Hr & Hs & Hl & Hk & Hw);
    auto.
  set (row := {| row_name := seed_name; row_beaker_name := beaker_name;
                 row_num_items := List.length items; row_imported_at := now |}).
  set (r1 := with_db {| _seeds := _seeds (db (recipe s')) ++ [row];
                        tables := tables (db (recipe s')) |} (recipe s')).
  exists (with_recipe r1 s').
  assert (Hrun1 : run_seed now seed_name s = (Return tt, with_recipe r1 s')).
  { pose proof Hd as Hd'. apply get_In_keys in Hd'.
    unfold run_seed, bind, get_recipe, lookup_beaker, emit.
    rewrite Hseed.
    destruct (Dict.get beaker_name (beakers (recipe s))); [| congruence].
    rewrite Hrow. simpl. rewrite Hgen. simpl.
    change (add_seed_items beaker_name items 0 _)
      with (add_seed_items beaker_name items 0 s0).
    rewrite Hrun. simpl.
    unfold insert_seed_row, bind, get_recipe, put_recipe. reflexivity. }
  assert (Hrows1 : rows_of r1 beaker_name =
            rows_of (recipe s) beaker_name
              ++ combine (seq (uuid_counter s) (List.length items)) items).
  { exact Hr. }
  split; [exact Hrun1 |].
  split; [exact Hrows1 |].
  split.
  { simpl recipe. rewrite Hrows1, length_app, length_combine, length_seq, Nat.min_id.
    reflexivity. }
  split; [simpl; rewrite Hl; reflexivity |].
  split.
  - intros later.
    assert (Hfind : _db_get_seed seed_name r1 =
              Some {| Beakers.seed_name := seed_name; num_items := List.length items;
                      imported_at := Some now |}).
    { unfold _db_get_seed in *. simpl. rewrite Hl. simpl.
      destruct (find (fun row0 => String.eqb (row_name row0) seed_name)
                  (_seeds (db (recipe s)))) eqn:Ef; [discriminate |].
      rewrite (find_app_None _ _ row Ef); [reflexivity |].
      simpl. apply String.eqb_refl. }
    assert (H1 : Dict.get seed_name (seeds (recipe (with_recipe r1 s')))
                 = Some (beaker_name, seed_func))
      by (simpl; rewrite Hs; exact Hseed).
    assert (H2 : is_declared (recipe (with_recipe r1 s')) beaker_name)
      by (simpl; apply Hk; exact Hd).
    exact (@run_seed_already_run later seed_name beaker_name seed_func _ _ H1 H2 Hfind).
  - intros later other s2 Hnone.
    unfold run_seed, bind, get_recipe, raise. rewrite Hnone. reflexivity.
Qed.

(** [Recipe.reset] returns [None] whatever it found, and the command of
    the command line exits with code 0. *)
Lemma reset_beaker_returns kb s : fst (reset_beaker kb s) = Return tt.
Proof.
  destruct kb as [key b]. unfold reset_beaker, bind, Beaker_len, Beaker_reset, get_recipe,
    put_recipe, secho. simpl.
  destruct (0 <? List.length (rows_of (recipe s) key))%nat; reflexivity.
Qed.

Lemma for_each_returns (A : Type) (body : A -> M World unit) (l : list A) :
  (forall x s, fst (body x s) = Return tt) ->
  forall s, fst (for_each body l s) = Return tt.
Proof.
  intros Hb. induction l as [|x l IH]; intros s; simpl; auto.
  unfold bind. specialize (Hb x s). destruct (body x s) as [[[]|e] s']; simpl in *.
  - apply IH.
  - discriminate.
Qed.

Lemma reset_returns_None s : fst (reset s) = Return tt.
Proof.
  unfold reset, bind, get_recipe, put_recipe, secho. simpl.
  apply for_each_returns. apply reset_beaker_returns.
Qed.

Lemma cli_reset_exits_0 s : fst (cli_reset s) = Return 0%nat.
Proof.
  unfold cli_reset, bind. pose proof (reset_returns_None s) as H.
  destruct (reset s) as [[[]|e] s']; simpl in *; [reflexivity | discriminate].
Qed.

End Facts.

Import Examples.

Lemma run_seed_at_most_once_witness :
  exists s1,
    run_seed "2023-07-01" "abc" (initial seeded_recipe) = (Return tt, s1) /\
    List.length (rows_of (recipe s1) "word") = 3 /\
    List.length (_seeds (db (recipe s1))) = 1.
Proof.
  assert (Hseed : Dict.get "abc" (seeds (recipe (initial seeded_recipe))) = Some ("word", abc))
    by reflexivity.
  assert (Hd : is_declared (recipe (initial seeded_recipe)) "word")
    by (vm_compute; auto).
  assert (Hrow : _db_get_seed "abc" (recipe (initial seeded_recipe)) = None)
    by reflexivity.
  assert (Hgen : abc (world (initial seeded_recipe))
                 = (([Word "apple"; Word "banana"; Word "cucumber"], None), tt))
    by reflexivity.
  assert (Hacc : Forall (fun item => accepts (recipe (initial seeded_recipe)) "word" item = true)
                   [Word "apple"; Word "banana"; Word "cucumber"])
    by (repeat constructor).
  assert (Hlt : ids_below (initial seeded_recipe) "word")
    by (intros id Hin; vm_compute in Hin; destruct Hin).
  destruct (run_seed_at_most_once "2023-07-01" "abc" Hseed Hd Hrow Hgen Hacc Hlt)
    as (s1 & Hrun & Hrows & Hlen & Hledger & _).
  exists s1. split; [exact Hrun |]. split.
  - rewrite Hlen. reflexivity.
  - rewrite Hledger. reflexivity.
Defined.

(** C8 on the code: on a recipe with nothing to clear, [reset] prints
    [seeds reset] and one [empty] line per beaker, returns [None], and the
    command exits with code 0, exactly as it returns after clearing three
    records; [tests/test_cli.py::test_reset_nothing] expects the output
    [Nothing to reset!] and exit code 1. *)
Theorem reset_does_not_signal_no_op :
  (let (res, s) := cli_reset (initial seeded_recipe) in
   res = Return 0%nat /\
   stdout s = ["seeds reset"; "word empty"; "fruit empty"]) /\
  (let (_, seeded) := run_seed "2023-07-01" "abc" (initial seeded_recipe) in
   let (res, s) := cli_reset seeded in
   List.length (rows_of (recipe seeded) "word") = 3 /\
   res = Return 0%nat /\
   skipn (List.length (stdout seeded)) (stdout s)
     = ["seeds reset"; "word reset (3)"; "fruit empty"] /\
   _seeds (db (recipe s)) = [] /\
   rows_of (recipe s) "word" = []) /\
  fst (reset (initial seeded_recipe)) = Return tt.
Proof. vm_compute. intuition. Qed.

End SeedFacts.

(** ** Transform wrappers *)

Module WrapperFacts.
Import Wrappers WrapperDefs.

Section Facts.
Variable World : Type.
Variable time_time : World -> Q.
Variable asyncio_sleep : Q -> World -> World.
Variable edge_func : edge_function World.
Variable retries : Z.
Variable item : value.

Local Abbreviation loop := (Retry_loop edge_func retries item).
Local Abbreviation attempt_ := (attempt edge_func item).
Local Abbreviation world_before_ := (world_before edge_func item).

Lemma world_before_shift k w :
  world_before_ (S k) w = world_before_ k (snd (await_call edge_func item w)).
Proof.
  induction k as [|k IH]; [reflexivity |].
  change (world_before_ (S (S k)) w)
    with (snd (await_call edge_func item (world_before_ (S k) w))).
  rewrite IH. reflexivity.
Qed.

Lemma attempt_shift k w :
  attempt_ (S k) w = attempt_ k (snd (await_call edge_func item w)).
Proof. unfold attempt. rewrite world_before_shift. reflexivity. Qed.

Lemma range_length n : List.length (range n) = Z.to_nat n.
Proof. unfold range. rewrite length_map, length_seq. reflexivity. Qed.

Lemma loop_cons n ns exception w :
  loop (n :: ns) exception w =
    match await_call edge_func item w with
    | (Return v, w') =>
        {| outcome := Return v; final_world := w'; logged := []; calls := 1 |}
    | (Raise e, w') =>
        if isinstance1 e "Exception" then
          let r := loop ns (Some e) w' in
          {| outcome := outcome r; final_world := final_world r;
             logged := {| log_exception := exc_str e; log_retry := n + 1;
                          log_max_retries := retries |} :: logged r;
             calls := S (calls r) |}
        else {| outcome := Raise e; final_world := w'; logged := []; calls := 1 |}
    end.
Proof. reflexivity. Qed.

Lemma loop_calls_bound ns : forall exception w,
  (calls (loop ns exception w) <= List.length ns)%nat.
Proof.
  induction ns as [|n ns IH]; intros exception w; simpl.
  - destruct exception; simpl; lia.
  - destruct (await_call edge_func item w) as [[v|e] w']; simpl; [lia |].
    destruct (isinstance1 e "Exception"); simpl; [| lia].
    specialize (IH (Some e) w'). lia.
Qed.

Lemma loop_success k : forall ns exception w v,
  (k < List.length ns)%nat ->
  (forall j, (j < k)%nat -> caught edge_func item j w) ->
  attempt_ k w = Return v ->
  outcome (loop ns exception w) = Return v /\
  calls (loop ns exception w) = S k /\
  final_world (loop ns exception w) = world_before_ (S k) w /\
  List.length (logged (loop ns exception w)) = k.
Proof.
  induction k as [|k IH]; intros ns exception w v Hlen Hfail Hok.
  - destruct ns as [|n ns]; [simpl in Hlen; lia |].
    unfold attempt in Hok. simpl in *.
    destruct (await_call edge_func item w) as [[v'|e] w']; simpl in *; [| discriminate].
    inversion Hok; subst. auto.
  - destruct ns as [|n ns]; [simpl in Hlen; lia |].
    destruct (Hfail 0%nat) as (e & He & Hcatch); [lia |].
    unfold attempt in He. simpl in He, Hlen.
    rewrite attempt_shift in Hok. rewrite world_before_shift.
    simpl.
    destruct (await_call edge_func item w) as [[v'|e'] w'] eqn:Ecall; simpl in *;
      [discriminate |].
    inversion He; subst e'. rewrite Hcatch. simpl.
    destruct (IH ns (Some e) w' v) as (H1 & H2 & H3 & H4); [lia | | exact Hok |].
    + intros j Hj. destruct (Hfail (S j)) as (e1 & He1 & Hc1); [lia |].
      exists e1. split; [| exact Hc1].
      rewrite attempt_shift, Ecall in He1. exact He1.
    + rewrite H1, H2, H3, H4. auto.
Qed.

Lemma loop_exhausted ns : forall exception w e,
  ns <> [] ->
  (forall j, (j < List.length ns - 1)%nat -> caught edge_func item j w) ->
  attempt_ (List.length ns - 1) w = Raise e ->
  outcome (loop ns exception w) = Raise e /\
  calls (loop ns exception w) = List.length ns.
Proof.
  induction ns as [|n ns IH]; intros exception w e Hne Hfail Hlast; [congruence |].
  destruct ns as [|n' ns].
  - unfold attempt in Hlast. simpl in *.
    destruct (await_call edge_func item w) as [[v'|e'] w']; simpl in *; [discriminate |].
    inversion Hlast; subst e'.
    destruct (isinstance1 e "Exception"); simpl; auto.
  - destruct (Hfail 0%nat) as (e0 & He0 & Hcatch); [simpl; lia |].
    unfold attempt in He0.
    replace (List.length (n :: n' :: ns) - 1)%nat with (S (List.length (n' :: ns) - 1)) in Hlast
      by (simpl; lia).
    rewrite attempt_shift in Hlast.
    rewrite loop_cons. cbn [world_before] in He0.
    destruct (await_call edge_func item w) as [[v'|e'] w'] eqn:Ecall; cbn [fst snd] in *;
      [discriminate |].
    inversion He0; subst e'. rewrite Hcatch.
    destruct (IH (Some e0) w' e) as (H1 & H2); [discriminate | | exact Hlast |].
    + intros j Hj. destruct (Hfail (S j)) as (e1 & He1 & Hc1); [simpl in *; lia |].
      exists e1. split; [| exact Hc1].
      rewrite attempt_shift, Ecall in He1. exact He1.
    + cbn [outcome calls]. rewrite H1, H2. auto.
Qed.

(** The three facts about a wrapped call, each for a list of attempts. *)
Lemma Retry_calls_bound (w : World) :
  (calls (Retry edge_func retries item w) <= Z.to_nat (retries + 1))%nat.
Proof. unfold Retry. rewrite <- range_length. apply loop_calls_bound. Qed.

Lemma Retry_first_success (w : World) k v :
  (k < Z.to_nat (retries + 1))%nat ->
  (forall j, (j < k)%nat -> caught edge_func item j w) ->
  attempt_ k w = Return v ->
  outcome (Retry edge_func retries item w) = Return v /\
  calls (Retry edge_func retries item w) = S k /\
  final_world (Retry edge_func retries item w) = world_before_ (S k) w.
Proof.
  unfold Retry. intros Hk Hfail Hok. rewrite <- range_length in Hk.
  destruct (@loop_success k (range (retries + 1)) None w v Hk Hfail Hok)
    as (H1 & H2 & H3 & _).
  auto.
Qed.

Lemma Retry_all_fail (w : World) e :
  (0 <= retries)%Z ->
  (forall j, (j < Z.to_nat retries)%nat -> caught edge_func item j w) ->
  attempt_ (Z.to_nat retries) w = Raise e ->
  outcome (Retry edge_func retries item w) = Raise e /\
  calls (Retry edge_func retries item w) = (Z.to_nat retries + 1)%nat.
Proof.
  unfold Retry. intros Hr Hfail Hlast.
  assert (Hlen : List.length (range (retries + 1)) = S (Z.to_nat retries)).
  { rewrite range_length. rewrite Z2Nat.inj_add by lia. simpl. lia. }
  destruct (@loop_exhausted (range (retries + 1)) None w e) as (H1 & H2).
  + intros E. rewrite E in Hlen. discriminate.
  + rewrite Hlen. intros j Hj. apply Hfail. lia.
  + rewrite Hlen. replace (S (Z.to_nat retries) - 1)%nat with (Z.to_nat retries) by lia.
    exact Hlast.
  + rewrite H1, H2, Hlen. split; [reflexivity | lia].
Qed.

(** C9: a call of [Retry(edge_func, retries)] calls [edge_func] at most
    [retries + 1] times; when attempt [k] is the first to succeed its
    result is returned at once, after [k + 1] calls, and nothing is raised;
    when all [retries + 1] attempts fail the exception of the last one is
    raised, once. *)
Theorem Retry_attempts (w : World) :
  (calls (Retry edge_func retries item w) <= Z.to_nat (retries + 1))%nat /\
  (forall k v,
     (k < Z.to_nat (retries + 1))%nat ->
     (forall j, (j < k)%nat -> caught edge_func item j w) ->
     attempt_ k w = Return v ->
     outcome (Retry edge_func retries item w) = Return v /\
     calls (Retry edge_func retries item w) = S k /\
     final_world (Retry edge_func retries item w) = world_before_ (S k) w) /\
  (forall e,
     (0 <= retries)%Z ->
     (forall j, (j < Z.to_nat retries)%nat -> caught edge_func item j w) ->
     attempt_ (Z.to_nat retries) w = Raise e ->
     outcome (Retry edge_func retries item w) = Raise e /\
     calls (Retry edge_func retries item w) = (Z.to_nat retries + 1)%nat).
Proof.
  split; [apply Retry_calls_bound |].
  split; [intros k v; apply Retry_first_success |].
  intros e. apply Retry_all_fail.
Qed.

Lemma plain_attempt_fails :
  returns_plain edge_func item ->
  forall k w, attempt_ k w = Raise (TypeError "object can't be used in 'await' expression").
Proof.
  intros Hp k w. unfold attempt, await_call.
  destruct (Hp (world_before_ k w)) as (v & w' & E). rewrite E. reflexivity.
Qed.

(** C10: [Retry] awaits whatever [edge_func] returns, so around a function
    returning a plain value every attempt fails with the [TypeError] of
    [await] and the call raises it after [retries + 1] attempts, never
    returning the value; [RateLimit] returns the plain value of such a
    function as it is. *)
Theorem Retry_needs_awaitable (requests_per_second : Q) (last_call : option Q) (w : World) :
  returns_plain edge_func item ->
  (0 <= retries)%Z ->
  (last_call = None \/ Qeq_bool requests_per_second 0%Q = false) ->
  (forall k, attempt_ k w = Raise (TypeError "object can't be used in 'await' expression")) /\
  outcome (Retry edge_func retries item w)
    = Raise (TypeError "object can't be used in 'await' expression") /\
  calls (Retry edge_func retries item w) = (Z.to_nat retries + 1)%nat /\
  (exists w1 w2 v,
     edge_func item w1 = (Plain World v, w2) /\
     RateLimit time_time asyncio_sleep edge_func requests_per_second item last_call w
       = (Return v, (Some (time_time w1), w2))).
Proof.
  intros Hp Hr Hrate.
  pose proof (plain_attempt_fails Hp) as Hall.
  split; [intros k; apply Hall |].
  destruct (@Retry_all_fail w (TypeError "object can't be used in 'await' expression"))
    as (H1 & H2); auto.
  { intros j _. exists (TypeError "object can't be used in 'await' expression").
    split; [apply Hall | reflexivity]. }
  split; [exact H1 |]. split; [exact H2 |].
  unfold RateLimit.
  destruct last_call as [t|].
  - destruct Hrate as [Hn|Hz]; [discriminate |]. rewrite Hz.
    destruct (Qle_bool (1 / requests_per_second - (time_time w - t)) 0).
    + destruct (Hp w) as (v & w2 & E). exists w, w2, v. rewrite E. auto.
    + set (w1 := asyncio_sleep (1 / requests_per_second - (time_time w - t)) w).
      destruct (Hp w1) as (v & w2 & E). exists w1, w2, v. rewrite E. auto.
  - destruct (Hp w) as (v & w2 & E). exists w, w2, v. rewrite E. auto.
Qed.

End Facts.

Import Examples.

(** Two retries: three attempts on a function that fails twice, then the
    result; three attempts on a function that always fails, then the third
    exception. *)
Example Retry_fails_twice :
  let r := Retry fails_twice 2 (Word "apple") 0%nat in
  outcome r = Return (Word "apple") /\ calls r = 3%nat /\ List.length (logged r) = 2%nat.
Proof. vm_compute. auto. Qed.

Example Retry_always_fails :
  let r := Retry always_fails 2 (Word "apple") 0%nat in
  outcome r = Raise (ConnectionError "attempt 3") /\ calls r = 3%nat /\
  map (@log_retry) (logged r) = [1; 2; 3]%Z.
Proof. vm_compute. auto. Qed.

Lemma Retry_attempts_witness :
  outcome (Retry fails_twice 2 (Word "apple") 0%nat) = Return (Word "apple") /\
  calls (Retry fails_twice 2 (Word "apple") 0%nat) = 3%nat /\
  outcome (Retry always_fails 2 (Word "apple") 0%nat) = Raise (ConnectionError "attempt 3") /\
  calls (Retry always_fails 2 (Word "apple") 0%nat) = 3%nat.
Proof.
  destruct (Retry_attempts fails_twice 2 (Word "apple") 0%nat) as (_ & Hok & _).
  destruct (Hok 2%nat (Word "apple")) as (H1 & H2 & _).
  { vm_compute. lia. }
  { intros j Hj. destruct j as [|[|j]]; [| | lia].
    - exists (ConnectionError "attempt 1"). split; reflexivity.
    - exists (ConnectionError "attempt 2"). split; reflexivity. }
  { reflexivity. }
  destruct (Retry_attempts always_fails 2 (Word "apple") 0%nat) as (_ & _ & Hex).
  destruct (Hex (ConnectionError "attempt 3")) as (H3 & H4).
  { lia. }
  { intros j Hj. destruct j as [|[|j]]; [| | simpl in Hj; lia].
    - exists (ConnectionError "attempt 1"). split; reflexivity.
    - exists (ConnectionError "attempt 2"). split; reflexivity. }
  { reflexivity. }
  repeat split; assumption.
Defined.

Lemma Retry_needs_awaitable_witness :
  outcome (Retry plain_identity 2 (Word "apple") 0%nat)
    = Raise (TypeError "object can't be used in 'await' expression") /\
  calls (Retry plain_identity 2 (Word "apple") 0%nat) = 3%nat /\
  fst (RateLimit (fun n => inject_Z (Z.of_nat n)) (fun _ n => n) plain_identity 1
         (Word "apple") None 0%nat) = Return (Word "apple").
Proof.
  assert (Hp : @returns_plain nat plain_identity (Word "apple")).
  { intros w. exists (Word "apple"), (S w). reflexivity. }
  destruct (@Retry_needs_awaitable nat (fun n => inject_Z (Z.of_nat n)) (fun _ n => n)
              plain_identity 2 (Word "apple") 1%Q None 0%nat Hp ltac:(lia) (or_introl eq_refl))
    as (_ & H1 & H2 & _).
  split; [exact H1 |]. split; [exact H2 |]. reflexivity.
Defined.

End WrapperFacts.

(** ** Running a recipe *)

Module RunFacts.
Import Beakers SeedDefs RunDefs DictFacts ListFacts SeedFacts.

Section Hoare.
Variable World : Type.
Implicit Types (s : State World) (r : Recipe World).

Lemma hoare_bind A B P (m : M World A) (k : A -> M World B) Q1 Q E :
  hoare P m Q1 E -> (forall a, hoare (Q1 a) (k a) Q E) -> hoare P (bind m k) Q E.
Proof.
  intros Hm Hk s HP. unfold bind. specialize (Hm s HP).
  destruct (m s) as [[a|e] s']; [apply Hk, Hm | exact Hm].
Qed.

Lemma hoare_ret A (a : A) (P : State World -> Prop) (Q : A -> State World -> Prop) E :
  (forall s, P s -> Q a s) -> hoare P (ret a) Q E.
Proof. intros H s HP. apply H, HP. Qed.

Lemma hoare_raise A e (P : State World -> Prop) (Q : A -> State World -> Prop)
    (E : exn -> State World -> Prop) :
  (forall s, P s -> E e s) -> hoare P (raise e) Q E.
Proof. intros H s HP. apply H, HP. Qed.

Lemma hoare_pre A (P P' : State World -> Prop) (m : M World A) Q E :
  (forall s, P' s -> P s) -> hoare P m Q E -> hoare P' m Q E.
Proof. intros H Hm s HP. apply Hm, H, HP. Qed.

Lemma hoare_for_each A (body : A -> M World unit) (l : list A) (I : State World -> Prop) E :
  (forall x, In x l -> hoare I (body x) (fun _ => I) E) ->
  hoare I (for_each body l) (fun _ => I) E.
Proof.
  induction l as [|x l IH]; intros Hb.
  - apply hoare_ret. auto.
  - simpl. apply hoare_bind with (Q1 := fun _ => I).
    + apply Hb. left. reflexivity.
    + intros _. apply IH. intros y Hy. apply Hb. right. exact Hy.
Qed.

(** *** An invariant of the run

    Whatever is kept by logging and by processing one item, and holds when
    an exception leaves a state that had it, is kept by [run_once]. *)
Section Invariant.
Variable Inv : State World -> Prop.
Variable E : exn -> State World -> Prop.
Hypothesis Inv_log : forall name fields s, Inv s -> Inv (snd (emit (Logged name fields) s)).
Hypothesis Inv_item : forall u v t id item,
  hoare Inv (process_item u v t id item) (fun _ => Inv) E.
Hypothesis Inv_raise : forall e s, Inv s -> E e s.

Lemma run_edge_inv e : hoare Inv (run_edge e) (fun _ => Inv) E.
Proof.
  destruct e as [[u v] edge]. intros s HI.
  unfold run_edge, bind, lookup_beaker, Beaker_id_set, Beaker_len, Beaker_items.
  destruct (Dict.get u (beakers (recipe s))); [| apply Inv_raise, HI].
  destruct (Dict.get v (beakers (recipe s))); [| apply Inv_raise, HI].
  match goal with
  | |- context [emit ?ev s] =>
      pose proof (Inv_log _ _ HI : Inv (snd (emit ev s))) as HI';
      destruct (emit ev s) as [[[]|e0] s1] eqn:Eemit;
      [| unfold emit in Eemit; discriminate]
  end.
  simpl in HI'.
  assert (Hrows : rows_of (recipe s1) u = rows_of (recipe s) u).
  { unfold emit in Eemit. inversion Eemit. reflexivity. }
  rewrite Hrows.
  apply (@hoare_for_each _ _ (rows_of (recipe s) u) Inv E); [| exact HI'].
  intros [id item] _.
  destruct (mem_id id _); [apply hoare_ret; auto | apply Inv_item].
Qed.

Lemma run_nodes_inv start_beaker end_beaker order :
  forall started, hoare Inv (run_nodes start_beaker end_beaker order started) (fun _ => Inv) E.
Proof.
  induction order as [|node order IH]; intros started; simpl.
  - apply hoare_ret. auto.
  - destruct (negb started && negb (is_name node start_beaker))%bool.
    + apply hoare_bind with (Q1 := fun _ => Inv); [| intros _; apply IH].
      intros s HI. apply (Inv_log _ _ HI).
    + apply hoare_bind with (Q1 := fun _ => Inv).
      { destruct started; [apply hoare_ret; auto |].
        intros s HI. apply (Inv_log _ _ HI). }
      intros _.
      destruct (given end_beaker && is_name node end_beaker)%bool.
      * apply hoare_bind with (Q1 := fun _ => Inv); [| intros _; apply hoare_ret; auto].
        intros s HI. apply (Inv_log _ _ HI).
      * intros s HI. unfold bind at 1. unfold get_recipe.
        apply (@hoare_bind _ _ Inv _ _ (fun _ => Inv)); [| intros _; apply IH | exact HI].
        apply hoare_for_each. intros e _. apply run_edge_inv.
Qed.

Lemma run_once_inv start_beaker end_beaker :
  hoare Inv (run_once start_beaker end_beaker) (fun _ => Inv) E.
Proof.
  intros s HI. unfold run_once. unfold bind at 1. unfold get_recipe.
  unfold bind at 1.
  pose proof (Inv_log "run_once"
                [("recipe", ("Recipe(" ++ recipe_name (recipe s) ++ ")")%string)] HI) as HI'.
  destruct (emit _ s) as [[[]|e0] s1] eqn:Eemit; [| unfold emit in Eemit; discriminate].
  simpl in HI'.
  destruct (topological_sort (graph (recipe s))) as [order err].
  apply (@hoare_bind _ _ Inv _ _ (fun _ => Inv)); [apply run_nodes_inv | | exact HI'].
  intros broke. destruct broke; [apply hoare_ret; auto |].
  destruct err; [apply hoare_raise; auto | apply hoare_ret; auto].
Qed.

End Invariant.
End Hoare.

Section Steps.
Variable World : Type.
Local Abbreviation calls_of := (@RunDefs.calls_of World).
Implicit Types (s : State World) (r : Recipe World).
Implicit Types (tr : list (event World)) (t : Transform World).
Implicit Types (ev : event World) (evs : list (event World)).

Lemma add_item_eq key item id s :
  Beaker_add_item key item (Some id) s =
    if accepts (recipe s) key item then (Return tt, stored key id item s)
    else (Raise not_conforming, s).
Proof.
  unfold Beaker_add_item, bind, get_recipe, put_recipe, emit, raise, ret.
  destruct (accepts (recipe s) key item); reflexivity.
Qed.

Lemma route_exception_eq em id item e s :
  route_exception em id item e s =
    match matching_entry em e with
    | None => (Raise e, s)
    | Some eb =>
        match Dict.get eb (beakers (recipe s)) with
        | None => (Raise (KeyError eb), s)
        | Some _ =>
            if is_BaseModel item then
              if accepts (recipe s) eb (error_record item e)
              then (Return tt, stored eb id (error_record item e) s)
              else (Raise not_conforming, s)
            else (Raise (ValidationError "1 validation error for ErrorType"), s)
        end
    end.
Proof.
  induction em as [|[types eb] em IH]; simpl; [reflexivity |].
  destruct (isinstance e types); [| exact IH].
  unfold bind, lookup_beaker.
  destruct (Dict.get eb (beakers (recipe s))); [| reflexivity].
  unfold ErrorType. destruct (is_BaseModel item); [| reflexivity].
  apply add_item_eq.
Qed.

Lemma process_item_eq u v t id item s :
  process_item u v t id item s =
    let (res, w) := call (transform_func t) item (world s) in
    let s1 := called u v t id item res w s in
    match res with
    | Return x =>
        if truthy x then
          if accepts (recipe s) v x then (Return tt, stored v id x s1)
          else route_exception (error_map t) id item not_conforming s1
        else (Return tt, s1)
    | Raise e =>
        if isinstance1 e "Exception" then route_exception (error_map t) id item e s1
        else (Raise e, s1)
    end.
Proof.
  unfold process_item, try_except_Exception, bind, t_func, run_until_complete.
  assert (Hcall : (if iscoroutinefunction (transform_func t)
                   then call (transform_func t) item (world s)
                   else call (transform_func t) item (world s))
                  = call (transform_func t) item (world s))
    by (destruct (iscoroutinefunction (transform_func t)); reflexivity).
  rewrite Hcall.
  destruct (call (transform_func t) item (world s)) as [[x|e] w]; cbn [called].
  - destruct (truthy x); [| reflexivity].
    rewrite add_item_eq. cbn [recipe].
    destruct (accepts (recipe s) v x); reflexivity.
  - reflexivity.
Qed.

(** *** Exceptions with no route *)

Lemma all_routed_add tr0 s s' ev :
  all_routed tr0 s -> trace s' = trace s ++ [ev] -> routed ev -> all_routed tr0 s'.
Proof.
  intros (evs & Ht & Hf) Hs' Hr. exists (evs ++ [ev]).
  rewrite Hs', Ht, app_assoc. split; [reflexivity |].
  apply Forall_app. split; [exact Hf | constructor; [exact Hr | constructor]].
Qed.

Lemma all_routed_aborted tr0 e s : all_routed tr0 s -> aborted_by tr0 e s.
Proof. intros (evs & Ht & Hf). exists evs. auto. Qed.

Lemma route_exception_routed tr0 em id item e s :
  all_routed tr0 s ->
  match route_exception em id item e s with
  | (Return _, s') => all_routed tr0 s'
  | (Raise e', s') => s' = s /\ (matching_entry em e = None -> e' = e)
  end.
Proof.
  intros HI. rewrite route_exception_eq.
  destruct (matching_entry em e) as [eb|]; [| auto].
  destruct (Dict.get eb (beakers (recipe s))); [| split; [reflexivity | discriminate]].
  destruct (is_BaseModel item); [| split; [reflexivity | discriminate]].
  destruct (accepts (recipe s) eb (error_record item e));
    [| split; [reflexivity | discriminate]].
  eapply all_routed_add; [exact HI | reflexivity | exact I].
Qed.

Lemma process_item_routed tr0 u v t id item :
  hoare (all_routed tr0) (process_item u v t id item)
    (fun _ => all_routed tr0) (aborted_by tr0).
Proof.
  intros s HI. rewrite process_item_eq.
  destruct (call (transform_func t) item (world s)) as [[x|e] w]; cbn zeta.
  - assert (HI1 : all_routed tr0 (called u v t id item (Return x) w s))
      by (eapply all_routed_add; [exact HI | reflexivity | exact I]).
    destruct (truthy x); [| exact HI1].
    destruct (accepts (recipe s) v x).
    + eapply all_routed_add; [exact HI1 | reflexivity | exact I].
    + pose proof (@route_exception_routed tr0 (error_map t) id item not_conforming _ HI1) as H.
      destruct (route_exception _ _ _ _ _) as [[[]|e'] s']; [exact H |].
      destruct H as [-> _]. apply all_routed_aborted, HI1.
  - destruct (matching_entry (error_map t) e) as [eb|] eqn:Em.
    + assert (HI1 : all_routed tr0 (called u v t id item (Raise e) w s)).
      { eapply all_routed_add; [exact HI | reflexivity |]. simpl. congruence. }
      destruct (isinstance1 e "Exception"); [| apply all_routed_aborted, HI1].
      pose proof (@route_exception_routed tr0 (error_map t) id item e _ HI1) as H.
      destruct (route_exception _ _ _ _ _) as [[[]|e'] s']; [exact H |].
      destruct H as [-> _]. apply all_routed_aborted, HI1.
    + assert (Hab : aborted_by tr0 e (called u v t id item (Raise e) w s)).
      { destruct HI as (evs & Ht & Hf).
        exists (evs ++ [Called u v t id item (Raise e)]). simpl. rewrite Ht, app_assoc.
        split; [reflexivity |]. right. exists evs, u, v, t, id, item. auto. }
      destruct (isinstance1 e "Exception"); [| exact Hab].
      rewrite route_exception_eq, Em. exact Hab.
Qed.

(** C3: when a transform function raises an exception that no entry of the
    edge's error map matches, the call is the last thing the run does:
    [run_once] raises that exception, and after the call nothing is stored
    in any beaker, no further item is processed and no further edge or node
    is visited.  The step that processes the item leaves the recipe as it
    was. *)
Theorem unrouted_exception_aborts_run :
  (forall u v t id item e w (s : State World),
     call (transform_func t) item (world s) = (Raise e, w) ->
     matching_entry (error_map t) e = None ->
     process_item u v t id item s = (Raise e, called u v t id item (Raise e) w s)) /\
  (forall start_beaker end_beaker (s s' : State World) out pre post u v t id item e,
     run_once start_beaker end_beaker s = (out, s') ->
     trace s' = trace s ++ pre ++ Called u v t id item (Raise e) :: post ->
     matching_entry (error_map t) e = None ->
     out = Raise e /\ post = []).
Proof.
  split.
  - intros u v t id item e w s Hcall Hm.
    rewrite process_item_eq, Hcall. cbn zeta.
    rewrite route_exception_eq, Hm.
    destruct (isinstance1 e "Exception"); reflexivity.
  - intros start_beaker end_beaker s s' out pre post u v t id item e Hrun Htr Hm.
    assert (HI : all_routed (trace s) s).
    { exists []. rewrite app_nil_r. split; [reflexivity | constructor]. }
    pose proof (@run_once_inv World (all_routed (trace s)) (aborted_by (trace s))
                  ltac:(intros n f s0 H0; eapply all_routed_add;
                          [exact H0 | reflexivity | exact I])
                  (@process_item_routed (trace s))
                  (fun e0 s0 H0 => all_routed_aborted e0 H0)
                  start_beaker end_beaker s HI) as H.
    rewrite Hrun in H.
    assert (Hbad : ~ Forall routed (pre ++ Called u v t id item (Raise e) :: post)).
    { intros Hf. apply Forall_app in Hf. destruct Hf as [_ Hf].
      inversion Hf as [|? ? Hr _]. simpl in Hr. congruence. }
    destruct out as [[]|e'].
    + destruct H as (evs & Ht & Hf). rewrite Htr in Ht. apply app_inv_head in Ht.
      subst evs. contradiction.
    + destruct H as (evs & Ht & [Hf|(pre' & u' & v' & t' & id' & item' & Hevs & Hf)]);
        rewrite Htr in Ht; apply app_inv_head in Ht; subst evs; [contradiction |].
      apply last_event in Hevs. destruct Hevs as [Hin|(Hx & Hpost & _)].
      * rewrite Forall_forall in Hf. apply Hf in Hin. simpl in Hin. congruence.
      * inversion Hx. subst. auto.
Qed.

(** *** Exceptions with a route *)

Lemma each_followed_app R evs seg :
  (forall ev, R ev None -> forall next, R ev next) ->
  each_followed R evs -> each_followed R seg -> each_followed R (evs ++ seg).
Proof.
  intros Hclosed He Hs pre ev post H.
  apply app_eq_elt in H. destruct H as [(post0 & H1 & H2)|(pre0 & H1 & H2)].
  - specialize (He _ _ _ H1). subst post.
    destruct post0 as [|y post0]; [apply Hclosed, He | exact He].
  - apply (Hs _ _ _ H2).
Qed.

Lemma each_followed_one R ev : R ev None -> each_followed R [ev].
Proof.
  intros H pre ev' post E.
  destruct pre as [|a pre]; simpl in E.
  - inversion E. subst. exact H.
  - inversion E as [[Ha Hp]]. destruct pre; discriminate.
Qed.

Lemma each_followed_two R ev1 ev2 :
  R ev1 (Some ev2) -> R ev2 None -> each_followed R [ev1; ev2].
Proof.
  intros H1 H2 pre ev' post E.
  destruct pre as [|a pre]; simpl in E.
  - inversion E. subst. exact H1.
  - inversion E as [[Ha Hp]]. destruct pre as [|b pre]; simpl in Hp.
    + inversion Hp. subst. exact H2.
    + inversion Hp as [[Hb Hq]]. destruct pre; discriminate.
Qed.

Lemma error_stored_next_closed r0 ev :
  error_stored_next r0 ev None -> forall next, error_stored_next r0 ev next.
Proof.
  intros H next u v t id item e eb E1 E2 E3 E4 E5.
  specialize (H u v t id item e eb E1 E2 E3 E4 E5). discriminate.
Qed.

Lemma errors_stored_add r0 tr0 s s' seg :
  errors_stored r0 tr0 s ->
  trace s' = trace s ++ seg ->
  (forall k x, accepts (recipe s') k x = accepts (recipe s) k x) ->
  each_followed (error_stored_next r0) seg ->
  errors_stored r0 tr0 s'.
Proof.
  intros (Hacc & evs & Ht & Hf) Hs' Hacc' Hseg. split.
  - intros k x. rewrite Hacc'. apply Hacc.
  - exists (evs ++ seg). rewrite Hs', Ht, app_assoc. split; [reflexivity |].
    apply each_followed_app; auto. apply error_stored_next_closed.
Qed.

Lemma not_a_raise r0 ev next :
  match ev with Called _ _ _ _ _ (Raise _) => False | _ => True end ->
  error_stored_next r0 ev next.
Proof.
  intros H u v t id item e eb E. subst ev. destruct H.
Qed.

Lemma accepts_stored key id item s k x :
  accepts (recipe (stored key id item s)) k x = accepts (recipe s) k x.
Proof. apply accepts_write_rows. Qed.

(** Routing an exception raised by [add_item] for a result of the
    transform: the events added are insertions. *)
Lemma route_exception_errors_stored r0 tr0 em id item e s :
  errors_stored r0 tr0 s ->
  match route_exception em id item e s with
  | (_, s') => errors_stored r0 tr0 s'
  end.
Proof.
  intros HI. rewrite route_exception_eq.
  destruct (matching_entry em e) as [eb|]; [| exact HI].
  destruct (Dict.get eb (beakers (recipe s))); [| exact HI].
  destruct (is_BaseModel item); [| exact HI].
  destruct (accepts (recipe s) eb (error_record item e)); [| exact HI].
  eapply errors_stored_add; [exact HI | reflexivity | apply accepts_stored |].
  apply each_followed_one. apply not_a_raise. exact I.
Qed.

Lemma process_item_errors_stored r0 tr0 u v t id item :
  hoare (errors_stored r0 tr0) (process_item u v t id item)
    (fun _ => errors_stored r0 tr0) (fun _ => errors_stored r0 tr0).
Proof.
  intros s HI.
  assert (Hgoal : errors_stored r0 tr0 (snd (process_item u v t id item s))).
  2: { destruct (process_item u v t id item s) as [[[]|e] s']; exact Hgoal. }
  rewrite process_item_eq.
  destruct (call (transform_func t) item (world s)) as [[x|e] w]; cbn zeta.
  - assert (HI1 : errors_stored r0 tr0 (called u v t id item (Return x) w s)).
    { eapply errors_stored_add; [exact HI | reflexivity | reflexivity |].
      apply each_followed_one. apply not_a_raise. exact I. }
    destruct (truthy x); [| exact HI1].
    destruct (accepts (recipe s) v x).
    + eapply errors_stored_add; [exact HI1 | reflexivity | apply accepts_stored |].
      apply each_followed_one. apply not_a_raise. exact I.
    + pose proof (@route_exception_errors_stored r0 tr0 (error_map t) id item
                    not_conforming _ HI1) as H.
      destruct (route_exception _ _ _ _ _) as [o s']. exact H.
  - set (s1 := called u v t id item (Raise e) w s).
    set (C := Called u v t id item (Raise e)).
    assert (Hstop : error_stored_next r0 C None -> errors_stored r0 tr0 s1).
    { intros Hn. eapply errors_stored_add; [exact HI | reflexivity | reflexivity |].
      apply each_followed_one. exact Hn. }
    destruct (isinstance1 e "Exception") eqn:Eexc.
    2: { apply Hstop. intros u' v' t' id' item' e' eb E1 E2. inversion E1; subst.
         congruence. }
    rewrite route_exception_eq.
    destruct (matching_entry (error_map t) e) as [eb|] eqn:Em.
    2: { apply Hstop. intros u' v' t' id' item' e' eb E1 E2 E3. inversion E1; subst.
         congruence. }
    destruct HI as (Hacc & HI).
    assert (Hacc1 : accepts (recipe s1) eb (error_record item e)
                    = accepts r0 eb (error_record item e)) by apply Hacc.
    destruct (Dict.get eb (beakers (recipe s1))) eqn:Eget.
    2: { apply Hstop. intros u' v' t' id' item' e' eb' E1 E2 E3 E4 E5.
         inversion E1; subst. assert (eb' = eb) by congruence. subst eb'.
         rewrite <- Hacc1 in E5. unfold accepts in E5. rewrite Eget in E5. discriminate. }
    destruct (is_BaseModel item) eqn:Ebm.
    2: { apply Hstop. intros u' v' t' id' item' e' eb' E1 E2 E3 E4 E5.
         inversion E1; subst. congruence. }
    destruct (accepts (recipe s1) eb (error_record item e)) eqn:Eacc.
    2: { apply Hstop. intros u' v' t' id' item' e' eb' E1 E2 E3 E4 E5.
         inversion E1; subst. assert (eb' = eb) by congruence. subst eb'. congruence. }
    cbn [snd].
    apply (@errors_stored_add r0 tr0 s _ [C; Inserted eb id (error_record item e)]).
    + split; assumption.
    + simpl. rewrite <- app_assoc. reflexivity.
    + intros k x. apply (accepts_stored eb id (error_record item e) s1).
    + apply each_followed_two.
      * intros u' v' t' id' item' e' eb' E1 E2 E3 E4 E5. inversion E1; subst.
        assert (eb' = eb) by congruence. subst eb'. reflexivity.
      * apply not_a_raise. exact I.
Qed.

Lemma beakers_named_check (r : Recipe World) :
  forallb (fun kb => String.eqb (Beaker_name (snd kb)) (fst kb)) (beakers r) = true ->
  beakers_named r.
Proof.
  intros H k b Hget. apply get_Some_In in Hget.
  rewrite forallb_forall in H. apply H in Hget. apply String.eqb_eq in Hget. exact Hget.
Qed.

Lemma rows_of_write_rows_other key rs r k :
  beakers_named r -> k <> key -> rows_of (write_rows key rs r) k = rows_of r k.
Proof.
  intros Hn Hne. unfold write_rows, rows_of.
  destruct (Dict.get key (beakers r)) as [[n m|n its]|] eqn:E; simpl; auto.
  - destruct (Dict.get k (beakers r)) as [[n' m'|n' its']|] eqn:E'; simpl; auto.
    apply Hn in E. apply Hn in E'. simpl in E, E'. subst.
    rewrite get_set_other by exact Hne. reflexivity.
  - rewrite get_set_other by exact Hne. reflexivity.
Qed.

(** C2, as the code has it: when a transform function raises an instance
    of [Exception] for an item that is a model record, and the beaker named
    by the first matching entry of the error map takes the error record
    (it is declared, and is a Temporary Beaker or one of [ErrorType]
    records), the record made of the item, the exception's message and the
    exception's class is stored in that beaker under the item's id, the
    step returns, so that the loop goes on with the next item, and nothing
    else is stored: when that beaker is not the edge's [to], [to] is left
    as it was.  In a run of [run_once], such a call is followed at once by
    that insertion. *)
Theorem routed_exception_is_stored :
  (forall u v t id item e eb w (s : State World),
     call (transform_func t) item (world s) = (Raise e, w) ->
     isinstance1 e "Exception" = true ->
     matching_entry (error_map t) e = Some eb ->
     is_BaseModel item = true ->
     accepts (recipe s) eb (error_record item e) = true ->
     let s' := stored eb id (error_record item e) (called u v t id item (Raise e) w s) in
     process_item u v t id item s = (Return tt, s') /\
     trace s' = trace s ++ [Called u v t id item (Raise e);
                            Inserted eb id (error_record item e)] /\
     Dict.get id (rows_of (recipe s') eb) = Some (error_record item e) /\
     (beakers_named (recipe s) -> v <> eb ->
      rows_of (recipe s') v = rows_of (recipe s) v)) /\
  (forall start_beaker end_beaker (s s' : State World) out pre post u v t id item e eb,
     run_once start_beaker end_beaker s = (out, s') ->
     trace s' = trace s ++ pre ++ Called u v t id item (Raise e) :: post ->
     isinstance1 e "Exception" = true ->
     matching_entry (error_map t) e = Some eb ->
     is_BaseModel item = true ->
     accepts (recipe s) eb (error_record item e) = true ->
     exists post', post = Inserted eb id (error_record item e) :: post').
Proof.
  split.
  - intros u v t id item e eb w s Hcall Hexc Hm Hbm Hacc s'.
    assert (Hd : is_declared (recipe s) eb).
    { apply get_In_keys. unfold accepts in Hacc.
      destruct (Dict.get eb (beakers (recipe s))); [discriminate | discriminate]. }
    split; [| split; [| split]].
    + rewrite process_item_eq, Hcall. cbn zeta. rewrite Hexc.
      rewrite route_exception_eq, Hm. cbn [recipe called].
      apply get_In_keys in Hd.
      destruct (Dict.get eb (beakers (recipe s))); [| congruence].
      rewrite Hbm, Hacc. reflexivity.
    + unfold s'. simpl. rewrite <- app_assoc. reflexivity.
    + unfold s'. cbn [recipe stored called].
      rewrite rows_of_write_rows_same by exact Hd. apply get_set_same.
    + intros Hn Hne. unfold s'. cbn [recipe stored called].
      apply rows_of_write_rows_other; assumption.
  - intros start_beaker end_beaker s s' out pre post u v t id item e eb
      Hrun Htr Hexc Hm Hbm Hacc.
    assert (HI : errors_stored (recipe s) (trace s) s).
    { split; [reflexivity |]. exists []. rewrite app_nil_r. split; [reflexivity |].
      intros p ev q E. destruct p; discriminate. }
    pose proof (@run_once_inv World (errors_stored (recipe s) (trace s))
                  (fun _ => errors_stored (recipe s) (trace s))
                  ltac:(intros n f s0 H0; eapply errors_stored_add;
                          [exact H0 | reflexivity | reflexivity |];
                        apply each_followed_one, not_a_raise; exact I)
                  (@process_item_errors_stored (recipe s) (trace s))
                  (fun _ _ H0 => H0)
                  start_beaker end_beaker s HI) as H.
    rewrite Hrun in H.
    assert (H' : errors_stored (recipe s) (trace s) s') by (destruct out; exact H).
    destruct H' as (_ & evs & Ht & Hf). rewrite Htr in Ht. apply app_inv_head in Ht.
    specialize (Hf _ _ _ (eq_sym Ht) u v t id item e eb eq_refl Hexc Hm Hbm Hacc).
    destruct post as [|ev post']; simpl in Hf; [discriminate |].
    inversion Hf. exists post'. reflexivity.
Qed.

(** *** Which items an edge processes *)

Lemma run_edge_eq u v edge s :
  run_edge (u, v, edge) s =
    match Dict.get u (beakers (recipe s)) with
    | None => (Raise (KeyError u), s)
    | Some _ =>
        match Dict.get v (beakers (recipe s)) with
        | None => (Raise (KeyError v), s)
        | Some _ =>
            for_each (edge_body u v (transform edge) (already_processed_of (recipe s) u v))
              (rows_of (recipe s) u)
              (logged_state (transform_log (recipe s) u v (transform edge)) s)
        end
    end.
Proof.
  unfold run_edge, bind, lookup_beaker, Beaker_id_set, Beaker_len, Beaker_items, emit.
  destruct (Dict.get u (beakers (recipe s))); [| reflexivity].
  destruct (Dict.get v (beakers (recipe s))); [| reflexivity].
  reflexivity.
Qed.

Lemma mem_id_true id ids : mem_id id ids = true <-> In id ids.
Proof. unfold mem_id. destruct (in_dec Nat.eq_dec id ids); split; auto; discriminate. Qed.

Lemma mem_id_already r u v id :
  In id (Dict.keys (rows_of r u)) ->
  mem_id id (already_processed_of r u v) = mem_id id (id_set r v).
Proof.
  intros Hin. unfold already_processed_of.
  destruct (mem_id id (id_set r v)) eqn:E.
  - apply mem_id_true. apply filter_In. split; [| exact E].
    unfold id_set. apply nodup_In. exact Hin.
  - destruct (mem_id id (filter _ _)) eqn:E'; [| reflexivity].
    apply mem_id_true, filter_In in E'. destruct E' as [_ E']. congruence.
Qed.

(** One step of the loop: the call, then at most one insertion. *)
Lemma process_item_trace u v t id item s :
  exists res rest,
    trace (snd (process_item u v t id item s))
      = trace s ++ Called u v t id item res :: rest /\
    Forall is_insertion rest.
Proof.
  rewrite process_item_eq.
  destruct (call (transform_func t) item (world s)) as [res w]. cbn zeta.
  exists res.
  assert (Hroute : forall e s1,
            trace s1 = trace s ++ [Called u v t id item res] ->
            exists rest,
              trace (snd (route_exception (error_map t) id item e s1))
                = trace s ++ Called u v t id item res :: rest /\
              Forall is_insertion rest).
  { intros e s1 Hs1. rewrite route_exception_eq.
    destruct (matching_entry (error_map t) e) as [eb|];
      [| exists []; split; [exact Hs1 | constructor]].
    destruct (Dict.get eb (beakers (recipe s1)));
      [| exists []; split; [exact Hs1 | constructor]].
    destruct (is_BaseModel item); [| exists []; split; [exact Hs1 | constructor]].
    destruct (accepts (recipe s1) eb (error_record item e));
      [| exists []; split; [exact Hs1 | constructor]].
    exists [Inserted eb id (error_record item e)]. simpl. rewrite Hs1, <- app_assoc.
    split; [reflexivity | repeat constructor]. }
  destruct res as [x|e].
  - destruct (truthy x); [| exists []; split; [reflexivity | constructor]].
    destruct (accepts (recipe s) v x).
    + exists [Inserted v id x]. simpl. rewrite <- app_assoc.
      split; [reflexivity | repeat constructor].
    + apply Hroute. reflexivity.
  - destruct (isinstance1 e "Exception"); [apply Hroute; reflexivity |].
    exists []. split; [reflexivity | constructor].
Qed.

Lemma calls_of_app evs evs' : calls_of (evs ++ evs') = calls_of evs ++ calls_of evs'.
Proof. unfold calls_of. apply flat_map_app. Qed.

Lemma calls_of_insertions rest : Forall is_insertion rest -> calls_of rest = [].
Proof.
  induction 1 as [|ev rest Hev _ IH]; [reflexivity |].
  destruct ev; simpl in *; try contradiction. exact IH.
Qed.

Lemma calls_on_edge_insertions u v t rest :
  Forall is_insertion rest -> calls_on_edge u v t rest.
Proof.
  unfold calls_on_edge. intros H. eapply Forall_impl; [| exact H].
  intros ev Hev. destruct ev; simpl in *; auto. contradiction.
Qed.

Lemma edge_loop_calls u v t to_ids already l :
  (forall p, In p l -> mem_id (fst p) already = mem_id (fst p) to_ids) ->
  forall s,
  exists evs rest,
    trace (snd (for_each (edge_body u v t already) l s)) = trace s ++ evs /\
    filter (fun p => negb (mem_id (fst p) to_ids)) l = calls_of evs ++ rest /\
    (fst (for_each (edge_body u v t already) l s) = Return tt -> rest = []) /\
    calls_on_edge u v t evs.
Proof.
  induction l as [|[id item] l IH]; intros Hmem s.
  - exists [], []. simpl. rewrite app_nil_r. repeat split; auto. constructor.
  - assert (Hl : forall p, In p l -> mem_id (fst p) already = mem_id (fst p) to_ids)
      by (intros p Hp; apply Hmem; right; exact Hp).
    specialize (Hmem (id, item) (or_introl eq_refl)). simpl in Hmem.
    cbn [for_each]. unfold bind. cbn [edge_body filter fst].
    rewrite Hmem. destruct (mem_id id to_ids); cbn [negb].
    + unfold ret. apply IH, Hl.
    + destruct (process_item_trace u v t id item s) as (res & seg & Htr & Hseg).
      destruct (process_item u v t id item s) as [[[]|e] s1]; cbn [snd] in Htr.
      * destruct (IH Hl s1) as (evs & rest & Ht & Hf & Hr & Hc).
        exists (Called u v t id item res :: seg ++ evs), rest.
        split; [rewrite Ht, Htr, <- app_assoc; reflexivity |].
        split.
        { rewrite Hf. change (Called u v t id item res :: seg ++ evs)
            with ([Called u v t id item res] ++ seg ++ evs).
          rewrite !calls_of_app, (calls_of_insertions Hseg). reflexivity. }
        split; [exact Hr |].
        constructor; [auto |]. apply Forall_app. split; [| exact Hc].
        apply calls_on_edge_insertions, Hseg.
      * exists (Called u v t id item res :: seg), (filter (fun p => negb (mem_id (fst p) to_ids)) l).
        split; [exact Htr |].
        split.
        { change (Called u v t id item res :: seg)
            with ([Called u v t id item res] ++ seg).
          rewrite calls_of_app, (calls_of_insertions Hseg), app_nil_r. reflexivity. }
        split; [discriminate |].
        constructor; [auto |]. apply calls_on_edge_insertions, Hseg.
Qed.

(** The first part of C1, for one edge. *)
Lemma run_edge_calls u v edge s :
  exists evs rest,
    trace (snd (run_edge (u, v, edge) s)) = trace s ++ evs /\
    pending (recipe s) u v = calls_of evs ++ rest /\
    (fst (run_edge (u, v, edge) s) = Return tt -> rest = []) /\
    calls_on_edge u v (transform edge) evs.
Proof.
  rewrite run_edge_eq.
  destruct (Dict.get u (beakers (recipe s)));
    [| exists [], (pending (recipe s) u v); rewrite app_nil_r;
       repeat split; [discriminate | constructor]].
  destruct (Dict.get v (beakers (recipe s)));
    [| exists [], (pending (recipe s) u v); rewrite app_nil_r;
       repeat split; [discriminate | constructor]].
  set (ev := transform_log (recipe s) u v (transform edge)).
  destruct (@edge_loop_calls u v (transform edge) (id_set (recipe s) v)
              (already_processed_of (recipe s) u v) (rows_of (recipe s) u)
              ltac:(intros p Hp; apply mem_id_already; unfold Dict.keys;
                    apply in_map; exact Hp)
              (logged_state ev s)) as (evs & rest & Ht & Hf & Hr & Hc).
  exists (ev :: evs), rest.
  split; [rewrite Ht; simpl; rewrite <- app_assoc; reflexivity |].
  split; [exact Hf |].
  split; [exact Hr |].
  constructor; [exact I | exact Hc].
Qed.

(** *** Results are stored under the item's id *)






(** *** Running twice *)

Lemma named_write_rows key rs r : beakers_named r -> beakers_named (write_rows key rs r).
Proof.
  intros Hn. unfold write_rows.
  destruct (Dict.get key (beakers r)) as [[n m|n its]|] eqn:E; [exact Hn | | exact Hn].
  intros k b. cbn [beakers with_beakers].
  destruct (string_dec k key) as [->|Hne].
  - rewrite get_set_same. intros H. inversion H; subst. apply Hn in E. exact E.
  - rewrite get_set_other by exact Hne. apply Hn.
Qed.

Lemma name_write_rows key rs r : recipe_name (write_rows key rs r) = recipe_name r.
Proof.
  unfold write_rows. destruct (Dict.get key (beakers r)) as [[n m|n its]|]; reflexivity.
Qed.


Lemma inserted_ids_app key evs evs' :
  inserted_ids key (evs ++ evs') = inserted_ids key evs ++ inserted_ids key evs'.
Proof. unfold inserted_ids. apply flat_map_app. Qed.

(** The loop of an edge [a -> b] whose transform returns, for each item it
    has to process, a truthy record that [b] takes. *)
Lemma edge_loop_all_stored a b t already l :
  a <> b ->
  forall s,
  beakers_named (recipe s) ->
  is_declared (recipe s) b ->
  (forall id item w,
     In (id, item) l -> mem_id id already = false ->
     exists x w', call (transform_func t) item w = (Return x, w') /\
                  truthy x = true /\ accepts (recipe s) b x = true) ->
  exists s' evs,
    for_each (edge_body a b t already) l s = (Return tt, s') /\
    trace s' = trace s ++ evs /\
    inserted_ids b evs = map fst (filter (fun p => negb (mem_id (fst p) already)) l) /\
    rows_of (recipe s') a = rows_of (recipe s) a /\
    graph (recipe s') = graph (recipe s) /\
    recipe_name (recipe s') = recipe_name (recipe s) /\
    (forall k, is_declared (recipe s') k <-> is_declared (recipe s) k) /\
    (forall i,
       In i (Dict.keys (rows_of (recipe s) b)) \/
       (In i (map fst l) /\ mem_id i already = false) ->
       In i (Dict.keys (rows_of (recipe s') b))).
Proof.
  intros Hab. induction l as [|[id item] l IH]; intros s Hn Hd Hf.
  - exists s, []. cbn [for_each]. rewrite app_nil_r.
    repeat split; auto. intros i [Hi|[[] _]]. exact Hi.
  - cbn [for_each]. unfold bind. cbn [edge_body filter fst map].
    destruct (mem_id id already) eqn:Emem; cbn [negb].
    + unfold ret.
      destruct (IH s Hn Hd) as (s' & evs & H1 & H2 & H3 & H4 & H5 & H6 & H7 & H8).
      { intros id' item' w Hin. apply Hf. right. exact Hin. }
      exists s', evs. repeat split; auto; try (apply H7).
      intros i [Hi|[[Hi|Hi] Hm]]; apply H8; auto.
      simpl in Hi. subst i. congruence.
    + destruct (Hf id item (world s) (or_introl eq_refl) Emem) as (x & w' & Hcall & Htr & Hacc).
      rewrite process_item_eq, Hcall. cbn zeta. rewrite Htr, Hacc.
      set (s1 := stored b id x (called a b t id item (Return x) w' s)).
      assert (Hrows1 : rows_of (recipe s1) b = Dict.set id x (rows_of (recipe s) b)).
      { unfold s1. cbn [recipe stored called]. apply rows_of_write_rows_same, Hd. }
      destruct (IH s1) as (s' & evs & H1 & H2 & H3 & H4 & H5 & H6 & H7 & H8).
      { unfold s1. cbn [recipe stored called]. apply named_write_rows, Hn. }
      { unfold s1. cbn [recipe stored called]. apply declared_write_rows, Hd. }
      { intros id' item' w Hin Hm.
        destruct (Hf id' item' w (or_intror Hin) Hm) as (x' & w'' & E1 & E2 & E3).
        exists x', w''. repeat split; auto.
        unfold s1. rewrite accepts_stored. exact E3. }
      exists s', ([Called a b t id item (Return x); Inserted b id x] ++ evs).
      split; [exact H1 |].
      split.
      { rewrite H2. unfold s1. simpl. rewrite <- !app_assoc. reflexivity. }
      split.
      { rewrite inserted_ids_app, H3. simpl.
        destruct (string_dec b b); [reflexivity | congruence]. }
      split.
      { rewrite H4. unfold s1. cbn [recipe stored called].
        apply rows_of_write_rows_other; assumption. }
      split; [rewrite H5; unfold s1; cbn [recipe stored called]; apply graph_write_rows |].
      split; [rewrite H6; unfold s1; cbn [recipe stored called]; apply name_write_rows |].
      split.
      { intros k. rewrite H7. unfold s1. cbn [recipe stored called].
        apply declared_write_rows. }
      intros i Hi. apply H8. rewrite Hrows1.
      destruct Hi as [Hi|[[Hi|Hi] Hm]].
      * left. apply keys_set. right. exact Hi.
      * left. apply keys_set. left. simpl in Hi. congruence.
      * right. split; assumption.
Qed.




End Steps.

Import Examples.



Lemma routed_exception_is_stored_witness :
  exists s',
    process_item "word" "capitalized"
      (edge_transform raises_ValueError [(["ValueError"], "errors")]) 0%nat (Word "apple")
      (initial (edge_recipe raises_ValueError [(["ValueError"], "errors")]))
      = (Return tt, s') /\
    rows_of (recipe s') "errors"
      = [(0%nat, VErrorType (Word "apple") "bad word" "<class 'ValueError'>")] /\
    rows_of (recipe s') "capitalized" = [].
Proof.
  destruct (proj1 (routed_exception_is_stored unit)
              "word" "capitalized"
              (edge_transform raises_ValueError [(["ValueError"], "errors")]) 0%nat
              (Word "apple") (ValueError "bad word") "errors" tt
              (initial (edge_recipe raises_ValueError [(["ValueError"], "errors")]))
              eq_refl eq_refl eq_refl eq_refl eq_refl)
    as (Hrun & _ & _ & _).
  eexists. split; [exact Hrun |]. split; reflexivity.
Defined.

(** C2 as stated fails: [SystemExit] is an instance of [BaseException],
    which the entry of the error map names, but not of [Exception]: the
    exception propagates out of [run_once], nothing is stored in [errors],
    and the second record is never processed. *)
Lemma system_exit_is_not_routed :
  let t := edge_transform exits [(["BaseException"], "errors")] in
  let s := initial (edge_recipe exits [(["BaseException"], "errors")]) in
  let run := run_once None None s in
  isinstance (SystemExit "stop") ["BaseException"] = true /\
  matching_entry (error_map t) (SystemExit "stop") = Some "errors" /\
  accepts (recipe s) "errors" (error_record (Word "apple") (SystemExit "stop")) = true /\
  fst run = Raise (SystemExit "stop") /\
  calls_of (trace (snd run)) = [(0%nat, Word "apple")] /\
  rows_of (recipe (snd run)) "errors" = [] /\
  inserted_ids "errors" (trace (snd run)) = [].
Proof. vm_compute. auto 10. Qed.

Lemma unrouted_exception_aborts_run_witness :
  let s := initial (edge_recipe raises_ValueError [(["KeyError"], "errors")]) in
  fst (run_once None None s) = Raise (ValueError "bad word") /\
  calls_of (trace (snd (run_once None None s))) = [(0%nat, Word "apple")] /\
  rows_of (recipe (snd (run_once None None s))) "errors" = [].
Proof.
  intros s.
  destruct (proj2 (unrouted_exception_aborts_run unit) None None s
              (snd (run_once None None s)) (fst (run_once None None s))
              (firstn 2 (trace (snd (run_once None None s))))
              (skipn 3 (trace (snd (run_once None None s))))
              "word" "capitalized"
              (edge_transform raises_ValueError [(["KeyError"], "errors")]) 0%nat
              (Word "apple") (ValueError "bad word")
              (surjective_pairing _) eq_refl eq_refl)
    as (Hout & Hpost).
  split; [exact Hout |]. split; reflexivity.
Defined.

End RunFacts.

(** ** The graph: topological order and ranks *)

Module GraphFacts.
Import Beakers GraphDefs DictFacts ListFacts.

Section Graph.
Variable World : Type.
Implicit Types (g : DiGraph World).

Lemma mem_str_true x l : mem_str x l = true <-> In x l.
Proof. unfold mem_str. destruct (in_dec string_dec x l); split; auto; discriminate. Qed.

Lemma mem_str_false x l : mem_str x l = false <-> ~ In x l.
Proof.
  unfold mem_str. destruct (in_dec string_dec x l); split; auto; try discriminate.
  contradiction.
Qed.

Lemma successors_eq g u :
  successors g u = map snd (filter (fun k => if string_dec (fst k) u then true else false) (edges g)).
Proof.
  unfold successors, out_edges, edges, Dict.keys.
  induction (_adj g) as [|[[a b] d] l IH]; simpl; [reflexivity |].
  destruct (string_dec a u); simpl; rewrite IH; reflexivity.
Qed.

Lemma predecessors_eq g v :
  predecessors g v = map fst (filter (fun k => if string_dec (snd k) v then true else false) (edges g)).
Proof.
  unfold predecessors, in_edges, edges, Dict.keys.
  induction (_adj g) as [|[[a b] d] l IH]; simpl; [reflexivity |].
  destruct (string_dec b v); simpl; rewrite IH; reflexivity.
Qed.

Lemma in_successors g u v : In v (successors g u) <-> In (u, v) (edges g).
Proof.
  rewrite successors_eq, in_map_iff. split.
  - intros ([a b] & E & Hin). apply filter_In in Hin. destruct Hin as [Hin Hf].
    simpl in *. destruct (string_dec a u); [subst; exact Hin | discriminate].
  - intros Hin. exists (u, v). split; [reflexivity |]. apply filter_In. split; [exact Hin |].
    simpl. destruct (string_dec u u); congruence.
Qed.

Lemma in_predecessors g u v : In u (predecessors g v) <-> In (u, v) (edges g).
Proof.
  rewrite predecessors_eq, in_map_iff. split.
  - intros ([a b] & E & Hin). apply filter_In in Hin. destruct Hin as [Hin Hf].
    simpl in *. destruct (string_dec b v); [subst; exact Hin | discriminate].
  - intros Hin. exists (u, v). split; [reflexivity |]. apply filter_In. split; [exact Hin |].
    simpl. destruct (string_dec v v); congruence.
Qed.

Lemma NoDup_map_on (A B : Type) (f : A -> B) (l : list A) :
  (forall x y, In x l -> In y l -> f x = f y -> x = y) -> NoDup l -> NoDup (map f l).
Proof.
  intros Hinj Hnd. induction Hnd as [|x l Hnin Hnd IH]; simpl; constructor.
  - intros Hin. apply in_map_iff in Hin. destruct Hin as (y & E & Hy).
    assert (y = x) by (apply Hinj; [right; exact Hy | left; reflexivity | exact E]).
    subst. contradiction.
  - apply IH. intros a b Ha Hb. apply Hinj; right; assumption.
Qed.

Lemma NoDup_successors g u : NoDup (edges g) -> NoDup (successors g u).
Proof.
  intros Hnd. rewrite successors_eq. apply NoDup_map_on; [| apply NoDup_filter, Hnd].
  intros [a b] [a' b'] Ha Hb E. apply filter_In in Ha. apply filter_In in Hb.
  simpl in *. destruct Ha as [_ Ha]. destruct Hb as [_ Hb].
  destruct (string_dec a u); [| discriminate]. destruct (string_dec a' u); [| discriminate].
  congruence.
Qed.

Lemma NoDup_predecessors g v : NoDup (edges g) -> NoDup (predecessors g v).
Proof.
  intros Hnd. rewrite predecessors_eq. apply NoDup_map_on; [| apply NoDup_filter, Hnd].
  intros [a b] [a' b'] Ha Hb E. apply filter_In in Ha. apply filter_In in Hb.
  simpl in *. destruct Ha as [_ Ha]. destruct Hb as [_ Hb].
  destruct (string_dec b v); [| discriminate]. destruct (string_dec b' v); [| discriminate].
  congruence.
Qed.

Lemma remaining_zero g P v :
  remaining g P v = 0 <-> forall u, In (u, v) (edges g) -> In u P.
Proof.
  unfold remaining. split.
  - intros H u Hu. apply in_predecessors in Hu.
    apply length_zero_iff_nil in H.
    destruct (in_dec string_dec u P) as [Hin|Hnin]; [exact Hin |].
    assert (Hf : In u (filter (fun u0 => negb (mem_str u0 P)) (predecessors g v))).
    { apply filter_In. split; [exact Hu |]. apply mem_str_false in Hnin. rewrite Hnin.
      reflexivity. }
    rewrite H in Hf. destruct Hf.
  - intros H. apply length_zero_iff_nil.
    destruct (filter _ _) as [|u l] eqn:E; [reflexivity |].
    assert (Hin : In u (filter (fun u0 => negb (mem_str u0 P)) (predecessors g v)))
      by (rewrite E; left; reflexivity).
    apply filter_In in Hin. destruct Hin as [Hu Hf].
    apply in_predecessors, H, mem_str_true in Hu. rewrite Hu in Hf. discriminate.
Qed.

Lemma filter_length_remove (l : list string) (f : string -> bool) (x : string) :
  NoDup l -> In x l -> f x = true ->
  List.length (filter f l)
  = S (List.length (filter (fun u => f u && negb (if string_dec u x then true else false))%bool l)).
Proof.
  induction l as [|a l IH]; intros Hnd Hin Hf; [destruct Hin |].
  inversion Hnd as [|? ? Hnin Hnd']; subst. simpl.
  destruct Hin as [->|Hin].
  - rewrite Hf. destruct (string_dec x x); [| congruence]. simpl. f_equal. f_equal.
    apply filter_ext_in. intros u Hu. destruct (string_dec u x); [subst; contradiction |].
    simpl. rewrite andb_true_r. reflexivity.
  - destruct (string_dec a x) as [->|Hne]; [contradiction |].
    simpl. rewrite andb_true_r. destruct (f a); simpl; [f_equal |]; apply IH; auto.
Qed.

Lemma mem_str_snoc u P x :
  negb (mem_str u (P ++ [x]))
  = (negb (mem_str u P) && negb (if string_dec u x then true else false))%bool.
Proof.
  destruct (mem_str u (P ++ [x])) eqn:E.
  - apply mem_str_true, in_app_iff in E. destruct E as [E|[E|[]]].
    + apply mem_str_true in E. rewrite E. reflexivity.
    + subst. destruct (string_dec u u); [| congruence]. simpl. rewrite andb_false_r.
      reflexivity.
  - apply mem_str_false in E. rewrite in_app_iff in E.
    assert (H1 : mem_str u P = false) by (apply mem_str_false; tauto).
    rewrite H1. destruct (string_dec u x); [subst; exfalso; apply E; right; left; reflexivity |].
    reflexivity.
Qed.

Lemma remaining_child g P x c :
  NoDup (edges g) -> In (x, c) (edges g) -> ~ In x P ->
  remaining g P c = S (remaining g (P ++ [x]) c).
Proof.
  intros Hnd Hin Hnin. unfold remaining.
  rewrite (@filter_length_remove (predecessors g c) (fun u => negb (mem_str u P)) x).
  - f_equal. f_equal. apply filter_ext. intros u. symmetry. apply mem_str_snoc.
  - apply NoDup_predecessors, Hnd.
  - apply in_predecessors, Hin.
  - apply mem_str_false in Hnin. rewrite Hnin. reflexivity.
Qed.

Lemma remaining_other g P x v :
  ~ In (x, v) (edges g) -> remaining g (P ++ [x]) v = remaining g P v.
Proof.
  intros Hnin. unfold remaining. f_equal. apply filter_ext_in. intros u Hu.
  rewrite mem_str_snoc. destruct (string_dec u x); [| apply andb_true_r].
  subst. apply in_predecessors in Hu. contradiction.
Qed.

Lemma remaining_le g P x v : remaining g (P ++ [x]) v <= remaining g P v.
Proof.
  unfold remaining. induction (predecessors g v) as [|u l IH]; simpl; [lia |].
  rewrite mem_str_snoc. destruct (mem_str u P); simpl; [exact IH |].
  destruct (string_dec u x); simpl; lia.
Qed.

(** *** Kahn's algorithm *)

Section Kahn.
Variable g : DiGraph World.
Hypothesis Hwf : wf_graph g.

Lemma table_of_ext cnt cnt' m :
  (forall v, In v (nodes g) -> cnt v = cnt' v) -> table_of g cnt m -> table_of g cnt' m.
Proof.
  intros He [Hnd Hget]. split; [exact Hnd |]. intros v. rewrite Hget.
  destruct (mem_str v (nodes g)) eqn:E; [| reflexivity].
  apply mem_str_true in E. rewrite (He v E). reflexivity.
Qed.

Lemma visit_children_spec P x : ~ In x P ->
  forall children handled m Z,
  successors g x = handled ++ children ->
  table_of g (count_during g P x handled) m ->
  exists m',
    visit_children children m Z
      = Return (m', Z ++ filter (fun c => (remaining g (P ++ [x]) c =? 0)%nat) children) /\
    table_of g (count_during g P x (handled ++ children)) m' /\
    List.length m' + List.length (filter (fun c => (remaining g (P ++ [x]) c =? 0)%nat) children)
      = List.length m.
Proof.
  intros Hx. destruct Hwf as (Hnodes & Hedges & Hends).
  induction children as [|c children IH]; intros handled m Z Hsucc Htab.
  - exists m. simpl. rewrite !app_nil_r. repeat split; auto; apply Htab.
  - assert (Hc : In (x, c) (edges g)).
    { apply in_successors. rewrite Hsucc. apply in_app_iff. right. left. reflexivity. }
    assert (Hnd : NoDup (handled ++ c :: children)).
    { rewrite <- Hsucc. apply NoDup_successors, Hedges. }
    assert (Hch : ~ In c handled).
    { apply NoDup_remove_2 in Hnd. intros H. apply Hnd. apply in_app_iff. left. exact H. }
    assert (Hcnode : mem_str c (nodes g) = true).
    { apply mem_str_true. apply (Hends x c Hc). }
    pose proof (@remaining_child g P x c Hedges Hc Hx) as Hrem.
    destruct Htab as [Hkeys Hget].
    assert (Hgetc : Dict.get c m = Some (S (remaining g (P ++ [x]) c))).
    { rewrite Hget, Hcnode. unfold count_during.
      apply mem_str_false in Hch. rewrite Hch, Hrem. reflexivity. }
    cbn [visit_children]. rewrite Hgetc.
    replace (S (remaining g (P ++ [x]) c) - 1) with (remaining g (P ++ [x]) c) by lia.
    cbn [filter].
    assert (Hother : forall v, v <> c ->
              count_during g P x (handled ++ [c]) v = count_during g P x handled v).
    { intros v Hv. unfold count_during.
      assert (E : mem_str v (handled ++ [c]) = mem_str v handled).
      { destruct (mem_str v handled) eqn:E1.
        - apply mem_str_true. apply in_app_iff. left. apply mem_str_true, E1.
        - apply mem_str_false. rewrite in_app_iff. intros [H|[H|[]]].
          + apply mem_str_false in E1. contradiction.
          + congruence. }
      rewrite E. reflexivity. }
    assert (Hself : count_during g P x (handled ++ [c]) c = remaining g (P ++ [x]) c).
    { unfold count_during.
      assert (E : mem_str c (handled ++ [c]) = true)
        by (apply mem_str_true, in_app_iff; right; left; reflexivity).
      rewrite E. reflexivity. }
    destruct (remaining g (P ++ [x]) c =? 0)%nat eqn:Ez.
    + destruct (IH (handled ++ [c]) (Dict.del c m) (Z ++ [c])) as (m' & Hrun & Htab' & Hlen).
      * rewrite <- app_assoc. exact Hsucc.
      * split; [apply NoDup_keys_del, Hkeys |].
        intros v. destruct (string_dec v c) as [->|Hne].
        { rewrite get_del_same by exact Hkeys. rewrite Hcnode, Hself, Ez. reflexivity. }
        { rewrite get_del_other by exact Hne. rewrite Hget, (Hother v Hne). reflexivity. }
      * exists m'. rewrite Hrun. rewrite <- !app_assoc in *. cbn [app] in *.
        split; [reflexivity |]. split; [exact Htab' |].
        cbn [List.length]. rewrite <- (length_del c m) by congruence. lia.
    + destruct (IH (handled ++ [c]) (Dict.set c (remaining g (P ++ [x]) c) m) Z)
        as (m' & Hrun & Htab' & Hlen).
      * rewrite <- app_assoc. exact Hsucc.
      * split; [apply NoDup_keys_set, Hkeys |].
        intros v. destruct (string_dec v c) as [->|Hne].
        { rewrite get_set_same. rewrite Hcnode, Hself, Ez. reflexivity. }
        { rewrite get_set_other by exact Hne. rewrite Hget, (Hother v Hne). reflexivity. }
      * exists m'. rewrite Hrun. rewrite <- !app_assoc in *. cbn [app] in *.
        split; [reflexivity |]. split; [exact Htab' |].
        rewrite Hlen. apply length_set_present. congruence.
Qed.

Lemma topo_ordered_snoc P x :
  topo_ordered g P -> (forall u, In (u, x) (edges g) -> In u P) ->
  topo_ordered g (P ++ [x]).
Proof.
  intros Htopo Hx l1 v l2 E u Hu.
  apply app_eq_elt in E. destruct E as [(post0 & HP & _)|(pre0 & Hl1 & Hx')].
  - apply (Htopo l1 v post0 HP u Hu).
  - subst l1. apply in_app_iff. left.
    destruct pre0 as [|a pre0]; simpl in Hx'.
    + inversion Hx'. subst. apply Hx, Hu.
    + inversion Hx' as [[Ha Hp]]. destruct pre0; discriminate.
Qed.

Lemma visit_node_spec P x Q m Z :
  kahn_inv g P (x :: Q) m ->
  exists m' new,
    visit_children (successors g x) m Z = Return (m', Z ++ new) /\
    kahn_inv g (P ++ [x]) (Q ++ new) m' /\
    List.length m' + List.length new = List.length m.
Proof.
  intros (Hnd & Hincl & Hzero & Htab & Htopo).
  pose proof Hwf as (Hnodes & Hedges & Hends).
  assert (Hx : ~ In x P).
  { apply NoDup_remove_2 in Hnd. intros H. apply Hnd. apply in_app_iff. left. exact H. }
  destruct (@visit_children_spec P x Hx (successors g x) [] m Z eq_refl)
    as (m' & Hrun & Htab' & Hlen).
  { apply table_of_ext with (cnt := remaining g P); [| exact Htab]. reflexivity. }
  set (new := filter (fun c => (remaining g (P ++ [x]) c =? 0)%nat) (successors g x)) in *.
  exists m', new. split; [exact Hrun |]. split; [| exact Hlen].
  assert (Hnew : forall c, In c new ->
            In (x, c) (edges g) /\ remaining g (P ++ [x]) c = 0).
  { intros c Hc. apply filter_In in Hc. destruct Hc as [Hc Hz].
    split; [apply in_successors, Hc | apply Nat.eqb_eq, Hz]. }
  assert (Hxzero : remaining g P x = 0).
  { apply Hzero.
    - apply Hincl. apply in_app_iff. right. left. reflexivity.
    - apply in_app_iff. right. left. reflexivity. }
  assert (Hshape : (P ++ [x]) ++ Q ++ new = (P ++ x :: Q) ++ new).
  { rewrite <- !app_assoc. reflexivity. }
  split; [| split; [| split; [| split]]].
  - rewrite Hshape. apply NoDup_app.
    + exact Hnd.
    + apply NoDup_filter, NoDup_successors, Hedges.
    + intros v Hv Hvn. destruct (Hnew v Hvn) as [Hedge Hz].
      pose proof (@remaining_child g P x v Hedges Hedge Hx) as Hrem.
      apply Hzero in Hv; [lia | apply (Hends x v Hedge)].
  - intros v Hv. rewrite Hshape in Hv.
    apply in_app_iff in Hv. destruct Hv as [Hv|Hv].
    + apply Hincl, Hv.
    + apply (Hends x v), Hnew, Hv.
  - intros v Hv. rewrite Hshape. split.
    + intros Hin. apply in_app_iff in Hin. destruct Hin as [Hin|Hin].
      * apply (Hzero v Hv) in Hin. pose proof (remaining_le g P x v). lia.
      * apply Hnew, Hin.
    + intros Hz. apply in_app_iff.
      destruct (in_dec (@eq_dec (string * string) _) (x, v) (edges g)) as [He|He].
      * right. apply filter_In. split; [apply in_successors, He | apply Nat.eqb_eq, Hz].
      * left. apply (Hzero v Hv).
        rewrite <- (@remaining_other g P x v He). exact Hz.
  - apply table_of_ext with (cnt := count_during g P x (successors g x)); [| exact Htab'].
    intros v Hv. unfold count_during.
    destruct (mem_str v (successors g x)) eqn:E; [reflexivity |].
    symmetry. apply remaining_other. intros He. apply in_successors in He.
    apply mem_str_false in E. contradiction.
  - apply topo_ordered_snoc; [exact Htopo |].
    apply (proj1 (remaining_zero g P x) Hxzero).
Qed.

Lemma visit_generation_spec gen : forall P Z m,
  kahn_inv g P (gen ++ Z) m ->
  exists m' Z',
    visit_generation g gen m Z = Return (m', Z') /\
    kahn_inv g (P ++ gen) Z' m' /\
    List.length m' + List.length Z' = List.length m + List.length Z.
Proof.
  induction gen as [|x gen IH]; intros P Z m Hinv.
  - exists m, Z. rewrite app_nil_r. auto.
  - cbn [visit_generation].
    assert (Hx : Dict.mem x (_node g) = true).
    { apply mem_In_keys. destruct Hinv as (_ & Hincl & _). apply Hincl.
      apply in_app_iff. right. left. reflexivity. }
    rewrite Hx.
    destruct (@visit_node_spec P x (gen ++ Z) m Z Hinv) as (m1 & new & Hrun & Hinv1 & Hlen1).
    rewrite Hrun. rewrite <- app_assoc in Hinv1.
    destruct (IH (P ++ [x]) (Z ++ new) m1 Hinv1) as (m' & Z' & Hrun' & Hinv' & Hlen').
    exists m', Z'. split; [exact Hrun' |]. split.
    + rewrite <- app_assoc in Hinv'. exact Hinv'.
    + rewrite Hlen', length_app. lia.
Qed.

Lemma kahn_loop_spec fuel : forall P zero m,
  kahn_inv g P zero m ->
  zero = [] \/ List.length m < fuel ->
  exists m',
    kahn_inv g (P ++ List.concat (fst (topological_generations_loop fuel g m zero))) [] m' /\
    ((snd (topological_generations_loop fuel g m zero) = None /\ m' = []) \/
     ((exists msg, snd (topological_generations_loop fuel g m zero)
                   = Some (NetworkXUnfeasible msg)) /\ m' <> [])).
Proof.
  induction fuel as [|fuel IH]; intros P zero m Hinv Hfuel.
  - destruct zero as [|x zero]; [| destruct Hfuel; [discriminate | lia]].
    exists m. destruct m as [|p m0]; cbn [topological_generations_loop fst snd List.concat];
      rewrite app_nil_r; (split; [exact Hinv |]);
      [left; auto | right; split; [eexists; reflexivity | discriminate]].
  - destruct zero as [|x zero].
    + exists m. destruct m as [|p m0]; cbn [topological_generations_loop fst snd List.concat];
        rewrite app_nil_r; (split; [exact Hinv |]);
        [left; auto | right; split; [eexists; reflexivity | discriminate]].
    + cbn [topological_generations_loop].
      destruct (@visit_generation_spec (x :: zero) P [] m) as (m1 & z1 & Hrun & Hinv1 & Hlen).
      { rewrite app_nil_r. exact Hinv. }
      rewrite Hrun.
      destruct (IH (P ++ x :: zero) z1 m1 Hinv1) as (m' & Hinv' & Herr).
      { destruct z1 as [|y z1]; [left; reflexivity | right].
        destruct Hfuel as [Hz|Hlt]; [discriminate |]. simpl in Hlen. lia. }
      destruct (topological_generations_loop fuel g m1 z1) as [gens err].
      exists m'. cbn [fst snd List.concat] in *. rewrite <- app_assoc in Hinv'.
      split; [exact Hinv' | exact Herr].
Qed.

Lemma get_initial (f : string -> nat) (l : list string) (v : string) :
  Dict.get v (filter (fun p => (0 <? snd p)%nat) (map (fun v => (v, f v)) l))
  = if mem_str v l then (if (f v =? 0)%nat then None else Some (f v)) else None.
Proof.
  induction l as [|a l IH]; [reflexivity |].
  cbn [map filter snd].
  destruct (string_dec v a) as [->|Hne].
  - assert (E : mem_str a (a :: l) = true) by (apply mem_str_true; left; reflexivity).
    rewrite E. destruct (f a) as [|k] eqn:Ef.
    + simpl. rewrite IH. destruct (mem_str a l); reflexivity.
    + simpl. unfold eq_dec, string_EqDec. destruct (string_dec a a); congruence.
  - assert (E : mem_str v (a :: l) = mem_str v l).
    { destruct (mem_str v l) eqn:E1.
      - apply mem_str_true. right. apply mem_str_true, E1.
      - apply mem_str_false. intros [H|H]; [congruence |].
        apply mem_str_false in E1. contradiction. }
    rewrite E. destruct (0 <? f a)%nat; [| exact IH].
    simpl. unfold eq_dec, string_EqDec. destruct (string_dec v a); [contradiction | exact IH].
Qed.

Lemma keys_initial (f : string -> nat) (l : list string) :
  Dict.keys (filter (fun p => (0 <? snd p)%nat) (map (fun v => (v, f v)) l))
  = filter (fun v => (0 <? f v)%nat) l.
Proof.
  unfold Dict.keys. induction l as [|a l IH]; [reflexivity |].
  cbn [map filter snd]. destruct (0 <? f a)%nat; simpl; rewrite IH; reflexivity.
Qed.

Lemma remaining_nil v : remaining g [] v = in_degree g v.
Proof.
  unfold remaining, in_degree, predecessors.
  rewrite filter_all by reflexivity. apply length_map.
Qed.

Lemma kahn_inv_initial :
  kahn_inv g [] (initial_zero_indegree g) (initial_indegree_map g).
Proof.
  pose proof Hwf as (Hnodes & Hedges & Hends).
  unfold kahn_inv, initial_zero_indegree, initial_indegree_map. cbn [app].
  split; [apply NoDup_filter, Hnodes |].
  split; [intros v Hv; apply filter_In in Hv; apply Hv |].
  split; [| split].
  - intros v Hv. rewrite remaining_nil, filter_In, Nat.eqb_eq. tauto.
  - split.
    + rewrite keys_initial. apply NoDup_filter, Hnodes.
    + intros v. rewrite get_initial.
      destruct (mem_str v (nodes g)); [| reflexivity].
      rewrite remaining_nil. reflexivity.
  - intros l1 v l2 E. destruct l1; discriminate.
Qed.

(** [topological_sort] yields every node at most once and after its
    predecessors; when it ends without an exception it has yielded every
    node, and on a graph whose nodes have levels it ends without an exception. *)
Lemma topological_sort_spec :
  NoDup (fst (topological_sort g)) /\
  incl (fst (topological_sort g)) (nodes g) /\
  topo_ordered g (fst (topological_sort g)) /\
  (snd (topological_sort g) = None -> incl (nodes g) (fst (topological_sort g))) /\
  (levelled g -> snd (topological_sort g) = None).
Proof.
  pose proof Hwf as (Hnodes & Hedges & Hends).
  unfold topological_sort, topological_generations.
  destruct (@kahn_loop_spec (S (List.length (nodes g))) [] _ _ kahn_inv_initial)
    as (m' & (Hnd & Hincl & Hzero & (Hkeys & Hget) & Htopo) & Herr).
  { right. unfold initial_indegree_map.
    pose proof (filter_length_le (fun p : string * nat => (0 <? snd p)%nat)
                  (map (fun v => (v, in_degree g v)) (nodes g))) as Hle.
    rewrite length_map in Hle. lia. }
  destruct (topological_generations_loop _ g _ _) as [gens err].
  cbn [fst snd app] in *. rewrite app_nil_r in *.
  split; [exact Hnd |]. split; [exact Hincl |]. split; [exact Htopo |].
  assert (Hleft : forall v, In v (nodes g) -> ~ In v (List.concat gens) ->
            exists u, In (u, v) (edges g) /\ ~ In u (List.concat gens)).
  { intros v Hv Hnin.
    assert (Hrem : remaining g (List.concat gens) v <> 0)
      by (intros Hz; apply Hnin, (Hzero v Hv), Hz).
    unfold remaining in Hrem.
    destruct (filter _ (predecessors g v)) as [|u l] eqn:E; [simpl in Hrem; congruence |].
    assert (Hu : In u (filter (fun u0 => negb (mem_str u0 (List.concat gens)))
                         (predecessors g v))) by (rewrite E; left; reflexivity).
    apply filter_In in Hu. destruct Hu as [Hu Hf].
    exists u. split; [apply in_predecessors, Hu |].
    apply mem_str_false. destruct (mem_str u (List.concat gens)); [discriminate | reflexivity]. }
  split.
  - intros Hnone v Hv. destruct Herr as [[_ Hm]|[[msg Hmsg] _]]; [| congruence].
    apply (Hzero v Hv). specialize (Hget v). subst m'. simpl in Hget.
    apply mem_str_true in Hv. rewrite Hv in Hget.
    destruct (remaining g (List.concat gens) v =? 0)%nat eqn:Ez; [| discriminate].
    apply Nat.eqb_eq, Ez.
  - intros [level Hlevel].
    destruct Herr as [[Hnone _]|[_ Hm]]; [exact Hnone | exfalso].
    destruct m' as [|[k d] m']; [congruence |].
    assert (Hk : In k (nodes g) /\ ~ In k (List.concat gens)).
    { specialize (Hget k). simpl in Hget. unfold eq_dec, string_EqDec in Hget.
      destruct (string_dec k k); [| congruence].
      destruct (mem_str k (nodes g)) eqn:Ek; [| discriminate].
      split; [apply mem_str_true, Ek |].
      intros Hin. apply (Hzero k (proj1 (mem_str_true _ _) Ek)) in Hin.
      rewrite Hin in Hget. discriminate. }
    assert (Hdescent : forall n v, In v (nodes g) -> ~ In v (List.concat gens) ->
              level v < n -> False).
    { induction n as [|n IHn]; intros v Hv Hnin Hlt; [lia |].
      destruct (Hleft v Hv Hnin) as (u & Hu & Hun).
      apply (IHn u); [apply (Hends u v Hu) | exact Hun |].
      specialize (Hlevel u v Hu). lia. }
    apply (Hdescent (S (level k)) k); [apply Hk | apply Hk | lia].
Qed.

End Kahn.
End Graph.
End GraphFacts.

(** ** Graphs without a cycle *)

Module CycleFacts.
Import Beakers GraphDefs CycleDefs DictFacts ListFacts GraphFacts.

Section Cycle.
Variable World : Type.
Implicit Types (g : DiGraph World).

Lemma levelled_path g (level : string -> nat) :
  (forall u v, In (u, v) (edges g) -> level u < level v) ->
  forall u v, path g u v -> level u < level v.
Proof.
  intros Hl u v Hp. induction Hp as [u v Huv | u v w Huv _ IH].
  - apply Hl, Huv.
  - pose proof (Hl u v Huv). lia.
Qed.

Lemma levelled_acyclic g : levelled g -> acyclic g.
Proof.
  intros [level Hl] v Hp. pose proof (@levelled_path g level Hl v v Hp). lia.
Qed.

Lemma bwalk_path g : forall t v u, bwalk g (v :: t) -> In u t -> path g u v.
Proof.
  induction t as [|c t IH]; intros v u Hw Hin; [destruct Hin |].
  destruct Hw as [Hcv Hw]. destruct Hin as [<-|Hin].
  - apply path_edge, Hcv.
  - pose proof (IH c u Hw Hin) as Hp.
    clear - Hp Hcv. induction Hp as [a b Hab | a b c' Hab _ IHp].
    + eapply path_step; [exact Hab | apply path_edge, Hcv].
    + eapply path_step; [exact Hab | apply IHp, Hcv].
Qed.

Lemma bwalk_tail g v t : bwalk g (v :: t) -> bwalk g t.
Proof. destruct t as [|u t]; simpl; [trivial | intros [_ Hw]; exact Hw]. Qed.

Lemma bwalk_NoDup g l : acyclic g -> bwalk g l -> NoDup l.
Proof.
  intros Hac. induction l as [|v t IH]; intros Hw; constructor.
  - intros Hin. apply (Hac v). apply (@bwalk_path g t v v Hw Hin).
  - apply IH. eapply bwalk_tail, Hw.
Qed.

Lemma bwalk_tail_nodes g :
  wf_graph g -> forall t v, bwalk g (v :: t) -> incl t (nodes g).
Proof.
  intros (_ & _ & Hends). induction t as [|u t IH]; intros v Hw x Hx; [destruct Hx |].
  destruct Hw as [Huv Hw]. destruct Hx as [<-|Hx].
  - apply (Hends _ _ Huv).
  - apply (IH u Hw x Hx).
Qed.

Lemma list_max_ge (f : string -> nat) l x : In x l -> f x <= list_max (map f l).
Proof.
  intros Hx.
  assert (Hall : Forall (fun k => k <= list_max (map f l)) (map f l))
    by (apply list_max_le; lia).
  rewrite Forall_forall in Hall. apply Hall, in_map, Hx.
Qed.

Lemma list_max_witness (f : string -> nat) l :
  0 < list_max (map f l) -> exists x, In x l /\ f x = list_max (map f l).
Proof.
  induction l as [|a l IH]; simpl; intros Hpos; [lia |].
  destruct (Nat.le_gt_cases (list_max (map f l)) (f a)) as [Hle|Hgt].
  - exists a. split; [left; reflexivity | lia].
  - destruct IH as (x & Hx & Hfx); [lia |].
    exists x. split; [right; exact Hx | lia].
Qed.

Lemma lev_S g k v :
  lev g (S k) v = list_max (map (fun u => S (lev g k u)) (predecessors g v)).
Proof. reflexivity. Qed.

Lemma lev_le g k : forall v, lev g k v <= k.
Proof.
  induction k as [|k IH]; intros v; [simpl; lia |].
  rewrite lev_S. apply list_max_le, Forall_forall. intros x Hx.
  apply in_map_iff in Hx. destruct Hx as (u & <- & _). pose proof (IH u). lia.
Qed.

Lemma lev_edge g k u v : In (u, v) (edges g) -> S (lev g k u) <= lev g (S k) v.
Proof.
  intros Huv. rewrite lev_S.
  apply (@list_max_ge (fun u => S (lev g k u)) (predecessors g v) u). apply in_predecessors, Huv.
Qed.

Lemma lev_stable g k : forall v, lev g k v < k -> lev g (S k) v = lev g k v.
Proof.
  induction k as [|k IH]; intros v Hlt; [lia |].
  rewrite (lev_S g (S k)), (lev_S g k). f_equal. apply map_ext_in. intros u Hu.
  f_equal. apply IH.
  pose proof (@list_max_ge (fun u => S (lev g k u)) _ _ Hu) as Hge. simpl in Hge.
  rewrite lev_S in Hlt. lia.
Qed.

Lemma lev_walk g k : forall v, lev g k v = k -> exists l, List.length l = k /\ bwalk g (v :: l).
Proof.
  induction k as [|k IH]; intros v Hk.
  - exists []. split; [reflexivity | exact I].
  - rewrite lev_S in Hk.
    destruct (@list_max_witness (fun u => S (lev g k u)) (predecessors g v))
      as (u & Hu & Hfu); [lia |].
    rewrite Hk in Hfu. injection Hfu as Hfu.
    destruct (IH u Hfu) as (l & Hlen & Hw).
    exists (u :: l). split; [simpl; lia |].
    split; [apply in_predecessors, Hu | exact Hw].
Qed.

(** Without a cycle no walk is longer than the number of nodes, so the
    longest walk into a node is a level for it. *)
Lemma acyclic_levelled g : wf_graph g -> acyclic g -> levelled g.
Proof.
  intros Hwf Hac. set (n := List.length (nodes g)).
  exists (lev g (S n)). intros u v Huv.
    assert (Hlt : lev g n u < n).
  { pose proof (lev_le g n u) as Hle.
    destruct (Nat.eq_dec (lev g n u) n) as [E|E]; [exfalso | lia].
    destruct (@lev_walk g n u E) as (l & Hlen & Hw).
    assert (Hw' : bwalk g (v :: u :: l)) by (split; assumption).
    pose proof (@bwalk_NoDup g _ Hac Hw') as Hnd. apply NoDup_cons_iff in Hnd.
    pose proof (@bwalk_tail_nodes g Hwf _ _ Hw') as Hincl.
    pose proof (NoDup_incl_length (proj2 Hnd) Hincl) as Hlen'.
    simpl in Hlen'. fold n in Hlen'. lia. }
  pose proof (@lev_stable g n u Hlt) as Hs.
  pose proof (@lev_edge g n u v Huv). lia.
Qed.

Lemma acyclic_iff_levelled g : wf_graph g -> acyclic g <-> levelled g.
Proof. intros Hwf. split; [apply acyclic_levelled, Hwf | apply levelled_acyclic]. Qed.

End Cycle.
End CycleFacts.

(** ** Sorting by (rank, name) *)

Module SortFacts.
Import Beakers SortDefs ListFacts.

Lemma ascii_compare_refl (a : ascii) : Ascii.compare a a = Eq.
Proof. unfold Ascii.compare. apply N.compare_refl. Qed.

Lemma ascii_compare_lt_trans (a b c : ascii) :
  Ascii.compare a b = Lt -> Ascii.compare b c = Lt -> Ascii.compare a c = Lt.
Proof.
  unfold Ascii.compare. rewrite !N.compare_lt_iff. apply N.lt_trans.
Qed.

Lemma string_compare_refl (s : string) : String.compare s s = Eq.
Proof.
  induction s as [|a s IH]; simpl; [reflexivity |]. rewrite ascii_compare_refl. exact IH.
Qed.

Lemma string_compare_lt_trans (s1 : string) : forall s2 s3,
  String.compare s1 s2 = Lt -> String.compare s2 s3 = Lt -> String.compare s1 s3 = Lt.
Proof.
  induction s1 as [|x s1 IH]; intros [|y s2] [|z s3]; simpl; try congruence.
  destruct (Ascii.compare x y) eqn:Exy; destruct (Ascii.compare y z) eqn:Eyz;
    intros H1 H2; try discriminate.
  - apply Ascii.compare_eq_iff in Exy. apply Ascii.compare_eq_iff in Eyz. subst.
    rewrite ascii_compare_refl. eapply IH; eassumption.
  - apply Ascii.compare_eq_iff in Exy. subst. rewrite Eyz. reflexivity.
  - apply Ascii.compare_eq_iff in Eyz. subst. rewrite Exy. reflexivity.
  - rewrite (ascii_compare_lt_trans _ _ _ Exy Eyz). reflexivity.
Qed.

Lemma ltb_lt (s1 s2 : string) : String.ltb s1 s2 = true <-> String.compare s1 s2 = Lt.
Proof. unfold String.ltb. destruct (String.compare s1 s2); split; congruence. Qed.

Lemma ltb_irrefl (s : string) : String.ltb s s = false.
Proof. unfold String.ltb. rewrite string_compare_refl. reflexivity. Qed.

Lemma ltb_trans (s1 s2 s3 : string) :
  String.ltb s1 s2 = true -> String.ltb s2 s3 = true -> String.ltb s1 s3 = true.
Proof. rewrite !ltb_lt. apply string_compare_lt_trans. Qed.

Lemma ltb_total (s1 s2 : string) :
  s1 <> s2 -> String.ltb s1 s2 = true \/ String.ltb s2 s1 = true.
Proof.
  intros Hne. unfold String.ltb. rewrite (String.compare_antisym s2 s1).
  destruct (String.compare s1 s2) eqn:E; simpl; auto.
  apply String.compare_eq_iff in E. contradiction.
Qed.

Lemma key_lt_spec a b :
  key_lt a b = true <->
  fst a < fst b \/ (fst a = fst b /\ String.ltb (snd a) (snd b) = true).
Proof.
  unfold key_lt. rewrite orb_true_iff, andb_true_iff, Nat.ltb_lt, Nat.eqb_eq. tauto.
Qed.

Lemma key_before_irrefl a : ~ key_before a a.
Proof.
  unfold key_before. rewrite key_lt_spec. intros [H|[_ H]]; [lia |].
  rewrite ltb_irrefl in H. discriminate.
Qed.

Lemma key_before_trans a b c : key_before a b -> key_before b c -> key_before a c.
Proof.
  unfold key_before. rewrite !key_lt_spec.
  intros [H1|[H1 H1']] [H2|[H2 H2']]; try (left; lia).
  right. split; [lia |]. eapply ltb_trans; eassumption.
Qed.

Lemma key_before_total a b : a <> b -> key_before a b \/ key_before b a.
Proof.
  intros Hne. unfold key_before. rewrite !key_lt_spec.
  destruct a as [n s], b as [m t]. simpl.
  destruct (Nat.lt_trichotomy n m) as [H|[H|H]]; [left; left; exact H | | right; left; exact H].
  subst m. assert (Hs : s <> t) by congruence.
  destruct (ltb_total Hs); [left | right]; right; auto.
Qed.

Section Sort.
Variable A : Type.
Implicit Types (x : (nat * string) * A) (l : list ((nat * string) * A)).

Lemma insert_by_key_perm x l : Permutation (insert_by_key x l) (x :: l).
Proof.
  induction l as [|y l IH]; simpl; [apply Permutation_refl |].
  destruct (key_lt (fst y) (fst x)).
  - eapply Permutation_trans; [apply perm_skip, IH | apply perm_swap].
  - apply Permutation_refl.
Qed.

Lemma sort_by_key_perm l : Permutation (sort_by_key l) l.
Proof.
  induction l as [|x l IH]; simpl; [apply Permutation_refl |].
  eapply Permutation_trans; [apply insert_by_key_perm | apply perm_skip, IH].
Qed.

Lemma insert_by_key_increasing x l :
  increasing l -> ~ In (fst x) (map fst l) -> increasing (insert_by_key x l).
Proof.
  unfold increasing. induction l as [|y l IH]; simpl; intros Hs Hnin.
  - repeat constructor.
  - inversion Hs as [|? ? Hs' Hall]; subst.
    destruct (key_lt (fst y) (fst x)) eqn:E; simpl.
    + constructor; [apply IH; tauto |].
      apply Forall_forall. intros k Hk.
      assert (Hperm : Permutation (map fst (insert_by_key x l)) (fst x :: map fst l))
        by (apply (Permutation_map fst (insert_by_key_perm x l))).
      apply (Permutation_in _ Hperm) in Hk. destruct Hk as [<-|Hk]; [exact E |].
      rewrite Forall_forall in Hall. apply Hall, Hk.
    + assert (Hxy : key_before (fst x) (fst y)).
      { destruct (@key_before_total (fst x) (fst y)) as [H|H]; [| exact H |].
        - intros Heq. apply Hnin. left. congruence.
        - unfold key_before in H. congruence. }
      constructor; [exact Hs |].
      constructor; [exact Hxy |].
      eapply Forall_impl; [| exact Hall]. intros k Hk.
      eapply key_before_trans; eassumption.
Qed.

Lemma sort_by_key_increasing l : NoDup (map fst l) -> increasing (sort_by_key l).
Proof.
  induction l as [|x l IH]; simpl; intros Hnd; [constructor |].
  inversion Hnd as [|? ? Hnin Hnd']; subst.
  apply insert_by_key_increasing; [apply IH, Hnd' |].
  intros Hin. apply Hnin.
  apply (Permutation_in _ (Permutation_map fst (sort_by_key_perm l))), Hin.
Qed.

End Sort.

(** Two strictly increasing lists with the same elements are equal. *)
Lemma increasing_unique (l1 : list (nat * string)) : forall l2,
  StronglySorted key_before l1 -> StronglySorted key_before l2 ->
  (forall k, In k l1 <-> In k l2) -> l1 = l2.
Proof.
  induction l1 as [|a l1 IH]; intros l2 H1 H2 Hsame.
  - destruct l2 as [|b l2]; [reflexivity |].
    exfalso. apply (proj2 (Hsame b)). left. reflexivity.
  - destruct l2 as [|b l2].
    + exfalso. apply (proj1 (Hsame a)). left. reflexivity.
    + inversion H1 as [|? ? H1' Hall1]; subst. inversion H2 as [|? ? H2' Hall2]; subst.
      rewrite Forall_forall in Hall1, Hall2.
      assert (Hab : a = b).
      { destruct (proj1 (Hsame a) (or_introl eq_refl)) as [E|Ha]; [congruence |].
        destruct (proj2 (Hsame b) (or_introl eq_refl)) as [E|Hb]; [congruence |].
        exfalso. apply (@key_before_irrefl a).
        eapply key_before_trans; [apply Hall1, Hb | apply Hall2, Ha]. }
      subst b. f_equal. apply IH; auto.
      intros k. split; intros Hk.
      * destruct (proj1 (Hsame k) (or_intror Hk)) as [E|Hk']; [| exact Hk'].
        subst k. exfalso. apply (@key_before_irrefl a), Hall1, Hk.
      * destruct (proj2 (Hsame k) (or_intror Hk)) as [E|Hk']; [| exact Hk'].
        subst k. exfalso. apply (@key_before_irrefl a), Hall2, Hk.
Qed.

End SortFacts.

(** ** [graph_data]: ranks and display order *)

Module RankFacts.
Import Beakers GraphDefs CycleDefs SortDefs RankDefs DictFacts ListFacts DeclFacts GraphFacts CycleFacts SortFacts.

Section Rank.
Variable World : Type.
Local Abbreviation key_of := (@RankDefs.key_of World).
Implicit Types (g : DiGraph World) (s : State World) (nd : Dict.t string (NodeData World)).

Lemma max_in_rank_spec nd es : forall r0,
  (forall e, In e es ->
     exists d k, Dict.get (fst (fst e)) nd = Some d /\ nd_rank d = Some k) ->
  max_in_rank nd es r0
  = Return (Nat.max r0 (list_max (map (fun e => rank_in nd (fst (fst e))) es))).
Proof.
  induction es as [|[[u v] data] es IH]; intros r0 Hall; simpl.
  - rewrite Nat.max_0_r. reflexivity.
  - destruct (Hall (u, v, data) (or_introl eq_refl)) as (d & k & Hget & Hrank).
    simpl in Hget. unfold rank_of, rank_in. rewrite Hget, Hrank.
    rewrite IH by (intros e He; apply Hall; right; exact He).
    f_equal. fold (rank_in nd).
    change (fun e : string * string * EdgeData World =>
              match Dict.get (fst (fst e)) nd with
              | Some d0 => match nd_rank d0 with Some k0 => k0 | None => 0 end
              | None => 0
              end)
      with (fun e : string * string * EdgeData World => rank_in nd (fst (fst e))).
    destruct (Nat.ltb_spec r0 k); lia.
Qed.

Lemma collect_out_edges_spec es : forall g d,
  (forall e, In e es -> In (fst e) (Dict.keys (_adj g))) ->
  _node (fst (collect_out_edges es g d)) = _node g /\
  Dict.keys (_adj (fst (collect_out_edges es g d))) = Dict.keys (_adj g) /\
  nd_name (snd (collect_out_edges es g d)) = nd_name d /\
  nd_rank (snd (collect_out_edges es g d)) = nd_rank d.
Proof.
  induction es as [|[[u v] data] es IH]; intros g d Hall; simpl; [auto |].
  set (g1 := {| _node := _node g;
                _adj := Dict.set (u, v) {| transform := transform data; to_beaker := Some v |}
                          (_adj g) |}).
  assert (Hkeys : Dict.keys (_adj g1) = Dict.keys (_adj g)).
  { unfold g1. simpl. apply keys_set_present.
    apply (Hall (u, v, data) (or_introl eq_refl)). }
  destruct (IH g1 (with_edge {| transform := transform data; to_beaker := Some v |} d))
    as (H1 & H2 & H3 & H4).
  { intros e He. rewrite Hkeys. apply Hall. right. exact He. }
  rewrite H1, H2, H3, H4. auto.
Qed.

Lemma rank_in_set_other nd k d n : n <> k -> rank_in (Dict.set k d nd) n = rank_in nd n.
Proof. intros Hne. unfold rank_in. rewrite get_set_other by exact Hne. reflexivity. Qed.

Lemma out_edges_keys g n e : In e (out_edges g n) -> In (fst e) (Dict.keys (_adj g)).
Proof.
  unfold out_edges. intros He. apply filter_In in He. destruct He as [He _].
  unfold Dict.keys. apply in_map. exact He.
Qed.

(** One node of the loop of [graph_data], for a node whose predecessors
    have their rank. *)
Lemma graph_data_node_spec g0 nd node s :
  edges (graph (recipe s)) = edges g0 ->
  is_declared (recipe s) node ->
  (forall u, In (u, node) (edges g0) ->
     u <> node /\ exists d k, Dict.get u nd = Some d /\ nd_rank d = Some k) ->
  exists d' s',
    graph_data_node nd node s = (Return (Dict.set node d' nd), s') /\
    nd_name d' = node /\
    nd_rank d' = Some (list_max (map (rank_in nd) (predecessors g0 node)) + 1) /\
    beakers (recipe s') = beakers (recipe s) /\
    edges (graph (recipe s')) = edges g0.
Proof.
  intros Hedges Hd Hpreds.
  unfold graph_data_node, bind, lookup_beaker, Beaker_len, get_recipe, put_recipe, ret.
  apply get_In_keys in Hd.
  destruct (Dict.get node (beakers (recipe s))) as [beaker|] eqn:Eb; [| congruence].
  set (d0 := {| nd_name := node; nd_temp := is_TempBeaker beaker;
                nd_len := List.length (rows_of (recipe s) node);
                nd_edges := []; nd_rank := None |}).
  assert (Hpg : predecessors (graph (recipe s)) node = predecessors g0 node).
  { rewrite !predecessors_eq, Hedges. reflexivity. }
  assert (Hmax : max_in_rank (Dict.set node d0 nd) (in_edges (graph (recipe s)) node) 0
                 = Return (list_max (map (rank_in nd) (predecessors g0 node)))).
  { rewrite max_in_rank_spec.
    - rewrite Nat.max_0_l. f_equal. f_equal. rewrite <- Hpg. unfold predecessors.
      rewrite map_map. apply map_ext_in. intros e He.
      apply rank_in_set_other.
      assert (Hu : In (fst (fst e)) (predecessors (graph (recipe s)) node)).
      { unfold predecessors. apply in_map_iff. exists e. auto. }
      rewrite Hpg in Hu. apply in_predecessors in Hu. apply Hpreds, Hu.
    - intros e He.
      assert (Hu : In (fst (fst e)) (predecessors (graph (recipe s)) node)).
      { unfold predecessors. apply in_map_iff. exists e. auto. }
      rewrite Hpg in Hu. apply in_predecessors in Hu.
      destruct (Hpreds _ Hu) as (Hne & d & k & Hget & Hrank).
      exists d, k. rewrite get_set_other by exact Hne. auto. }
  cbn [recipe]. rewrite Hmax.
  destruct (@collect_out_edges_spec (out_edges (graph (recipe s)) node) (graph (recipe s))
              (with_rank (list_max (map (rank_in nd) (predecessors g0 node)) + 1) d0))
    as (H1 & H2 & H3 & H4).
  { intros e He. eapply out_edges_keys, He. }
  destruct (collect_out_edges _ _ _) as [g' d'] eqn:Ec. cbn [fst snd] in *.
  exists d', (with_recipe (with_graph g' (recipe s)) s).
  rewrite set_set. cbn [with_recipe with_graph recipe beakers graph].
  repeat split; auto.
  unfold edges. rewrite H2. exact Hedges.
Qed.

Lemma ranked_snoc g0 nd done x d' :
  ranked g0 nd done ->
  ~ In x done ->
  (forall n u, In n done -> In (u, n) (edges g0) -> In u done) ->
  (forall u, In (u, x) (edges g0) -> In u done) ->
  nd_name d' = x ->
  nd_rank d' = Some (list_max (map (rank_in nd) (predecessors g0 x)) + 1) ->
  ranked g0 (Dict.set x d' nd) (done ++ [x]).
Proof.
  intros [Hkeys Hall] Hx Hclosed Hpx Hname Hrank.
  assert (Hsame : forall n, In n done -> rank_in (Dict.set x d' nd) n = rank_in nd n).
  { intros n Hn. apply rank_in_set_other. intros E. subst. contradiction. }
  assert (Hmap : forall n, (forall u, In (u, n) (edges g0) -> In u done) ->
            map (rank_in (Dict.set x d' nd)) (predecessors g0 n)
            = map (rank_in nd) (predecessors g0 n)).
  { intros n Hn. apply map_ext_in. intros u Hu. apply Hsame, Hn, in_predecessors, Hu. }
  split.
  - rewrite keys_set_fresh by (rewrite Hkeys; exact Hx). rewrite Hkeys. reflexivity.
  - intros n Hn. apply in_app_iff in Hn. destruct Hn as [Hn|[<-|[]]].
    + destruct (Hall n Hn) as (d & Hget & Hnm & Hrk & Hrec).
      exists d. rewrite get_set_other by (intros E; apply Hx; rewrite <- E; exact Hn).
      rewrite (Hsame n Hn), (Hmap n (fun u => Hclosed n u Hn)). auto.
    + exists d'. rewrite get_set_same.
      assert (Hrx : rank_in (Dict.set x d' nd) x
                    = list_max (map (rank_in nd) (predecessors g0 x)) + 1).
      { unfold rank_in at 1. rewrite get_set_same, Hrank. reflexivity. }
      rewrite (Hmap x Hpx), Hrx. auto.
Qed.

Lemma graph_data_loop_spec g0 B order :
  NoDup order ->
  topo_ordered g0 order ->
  (forall n, In n order -> In n (Dict.keys B)) ->
  forall rest done nd s,
  order = done ++ rest ->
  ranked g0 nd done ->
  beakers (recipe s) = B ->
  edges (graph (recipe s)) = edges g0 ->
  exists nd' s',
    graph_data_loop rest nd s = (Return nd', s') /\
    ranked g0 nd' order /\
    beakers (recipe s') = B /\
    edges (graph (recipe s')) = edges g0.
Proof.
  intros Hnd Htopo Hdecl.
  induction rest as [|x rest IH]; intros done nd s Horder Hranked HB Hedges.
  - exists nd, s. rewrite app_nil_r in Horder. subst done. auto.
  - cbn [graph_data_loop]. unfold bind.
    assert (Hx : ~ In x done).
    { rewrite Horder in Hnd. apply NoDup_remove_2 in Hnd. intros H. apply Hnd.
      apply in_app_iff. left. exact H. }
    assert (Hpx : forall u, In (u, x) (edges g0) -> In u done)
      by (intros u Hu; apply (Htopo done x rest Horder u Hu)).
    assert (Hclosed : forall n u, In n done -> In (u, n) (edges g0) -> In u done).
    { intros n u Hn Hu. apply in_split in Hn. destruct Hn as (l1 & l2 & E).
      rewrite E. apply in_app_iff. left.
      apply (Htopo l1 n (l2 ++ x :: rest)); [| exact Hu].
      rewrite Horder, E, <- app_assoc. reflexivity. }
    destruct (@graph_data_node_spec g0 nd x s Hedges) as (d' & s1 & Hrun & Hname & Hrank & HB1 & He1).
    { unfold is_declared. rewrite HB. apply Hdecl. rewrite Horder.
      apply in_app_iff. right. left. reflexivity. }
    { intros u Hu. pose proof (Hpx u Hu) as Hud. split; [intros E; subst; contradiction |].
      destruct Hranked as [_ Hall]. destruct (Hall u Hud) as (d & Hget & _ & Hrk & _).
      exists d, (rank_in nd u). auto. }
    rewrite Hrun.
    apply (IH (done ++ [x])).
    + rewrite <- app_assoc. exact Horder.
    + apply ranked_snoc; auto.
    + rewrite HB1. exact HB.
    + exact He1.
Qed.

Lemma decorate_ranked xs :
  (forall d, In d xs -> nd_rank d <> None) ->
  decorate xs = Return (map (fun d => (key_of d, d)) xs).
Proof.
  induction xs as [|x xs IH]; intros Hall; cbn [decorate map]; [reflexivity |].
  rewrite IH by (intros d Hd; apply Hall; right; exact Hd).
  unfold sort_key, key_of.
  destruct (nd_rank x) eqn:E; [reflexivity |].
  exfalso. apply (Hall x); [left; reflexivity | exact E].
Qed.

Lemma values_names nd :
  NoDup (Dict.keys nd) ->
  (forall n, In n (Dict.keys nd) -> exists d, Dict.get n nd = Some d /\ nd_name d = n) ->
  map (@nd_name World) (Dict.values nd) = Dict.keys nd.
Proof.
  intros Hnd Hall. unfold Dict.values, Dict.keys. rewrite map_map.
  apply map_ext_in. intros [k d] Hin. simpl.
  destruct (Hall k) as (d0 & Hget & Hname).
  { unfold Dict.keys. apply in_map_iff. exists (k, d). auto. }
  rewrite (In_get _ _ _ Hnd Hin) in Hget. congruence.
Qed.

Lemma order_permutation g order :
  NoDup (nodes g) -> NoDup order -> incl order (nodes g) -> incl (nodes g) order ->
  Permutation order (nodes g).
Proof.
  intros H1 H2 H3 H4. apply NoDup_Permutation; auto.
  intros x. split; [apply H3 | apply H4].
Qed.

Lemma graph_data_spec s :
  wf_graph (graph (recipe s)) -> levelled (graph (recipe s)) -> all_declared s ->
  exists descs s' rk,
    graph_data s = (Return descs, s') /\
    Permutation (map (@nd_name World) descs) (nodes (graph (recipe s))) /\
    (forall d, In d descs -> nd_rank d = Some (rk (nd_name d))) /\
    rank_rule (graph (recipe s)) rk /\
    StronglySorted key_before (map key_of descs).
Proof.
  intros Hwf Hac Hdecl.
  destruct (topological_sort_spec Hwf) as (Hnd & Hincl & Htopo & Hcomplete & Hnone).
  specialize (Hnone Hac).
  unfold graph_data, bind, get_recipe.
  destruct (topological_sort (graph (recipe s))) as [order err] eqn:Ets.
  cbn [fst snd] in *. subst err. specialize (Hcomplete eq_refl).
  destruct (@graph_data_loop_spec (graph (recipe s)) (beakers (recipe s)) order Hnd Htopo)
    with (rest := order) (done := @nil string) (nd := @nil (string * NodeData World)) (s := s)
    as (nd' & s' & Hrun & [Hkeys Hall] & HB & He); auto.
  { intros n Hn. apply Hdecl, Hincl, Hn. }
  { split; [reflexivity | intros n []]. }
  rewrite Hrun.
  assert (Hkd : NoDup (Dict.keys nd')) by (rewrite Hkeys; exact Hnd).
  assert (Hval : forall d, In d (Dict.values nd') ->
            nd_rank d = Some (rank_in nd' (nd_name d))).
  { intros d Hd. unfold Dict.values in Hd. apply in_map_iff in Hd.
    destruct Hd as ([k d0] & E & Hin). simpl in E. subst d0.
    destruct (Hall k) as (d1 & Hget & Hname & Hrank & _).
    { rewrite <- Hkeys. unfold Dict.keys. apply in_map_iff. exists (k, d). auto. }
    rewrite (In_get _ _ _ Hkd Hin) in Hget. inversion Hget; subst d1.
    rewrite Hname. exact Hrank. }
  assert (Hnames : map (@nd_name World) (Dict.values nd') = order).
  { rewrite <- Hkeys. apply values_names; [exact Hkd |].
    intros n Hn. rewrite Hkeys in Hn. destruct (Hall n Hn) as (d & Hget & Hname & _).
    exists d. auto. }
  unfold sorted. rewrite decorate_ranked
    by (intros d Hd; rewrite (Hval d Hd); discriminate).
  set (dec := map (fun d => (key_of d, d)) (Dict.values nd')).
  assert (Hsnd : map snd dec = Dict.values nd').
  { unfold dec. rewrite map_map. simpl. apply map_id. }
  assert (Hperm : Permutation (map snd (sort_by_key dec)) (Dict.values nd')).
  { rewrite <- Hsnd. apply Permutation_map, sort_by_key_perm. }
  exists (map snd (sort_by_key dec)), s', (rank_in nd').
  split; [reflexivity |]. split; [| split; [| split]].
  - eapply Permutation_trans; [apply Permutation_map, Hperm |].
    rewrite Hnames. apply order_permutation; auto. apply Hwf.
  - intros d Hd. apply Hval. eapply Permutation_in; [exact Hperm | exact Hd].
  - intros n Hn. destruct (Hall n (Hcomplete n Hn)) as (d & _ & _ & _ & Hrec). exact Hrec.
  - assert (Hfst : map key_of (map snd (sort_by_key dec)) = map fst (sort_by_key dec)).
    { rewrite map_map. apply map_ext_in. intros p Hp.
      apply (Permutation_in _ (sort_by_key_perm dec)) in Hp.
      unfold dec in Hp. apply in_map_iff in Hp. destruct Hp as (d & <- & _). reflexivity. }
    rewrite Hfst. apply sort_by_key_increasing.
    apply (NoDup_map_inv snd).
    unfold dec. rewrite !map_map. simpl.
    change (NoDup (map (@nd_name World) (Dict.values nd'))).
    rewrite Hnames. exact Hnd.
Qed.

Lemma list_max_same_set (f h : string -> nat) l1 l2 :
  (forall x, In x l1 <-> In x l2) -> (forall x, In x l1 -> f x = h x) ->
  list_max (map f l1) = list_max (map h l2).
Proof.
  intros Hs He.
  assert (Hle : forall (f : string -> nat) l x, In x l -> f x <= list_max (map f l)).
  { intros f0 l x Hx.
    assert (Hall : Forall (fun k => k <= list_max (map f0 l)) (map f0 l))
      by (apply list_max_le; lia).
    rewrite Forall_forall in Hall. apply Hall, in_map, Hx. }
  apply Nat.le_antisymm; apply list_max_le; apply Forall_forall; intros k Hk;
    apply in_map_iff in Hk; destruct Hk as (x & <- & Hx).
  - rewrite (He x Hx). apply Hle, Hs, Hx.
  - rewrite <- (He x (proj2 (Hs x) Hx)). apply Hle, Hs, Hx.
Qed.

Lemma rank_rule_unique g1 g2 rk1 rk2 :
  wf_graph g1 -> levelled g1 -> same_graph g1 g2 ->
  rank_rule g1 rk1 -> rank_rule g2 rk2 ->
  forall n, In n (nodes g1) -> rk1 n = rk2 n.
Proof.
  intros (_ & _ & Hends) [level Hlevel] [Hn He] H1 H2.
  assert (Hind : forall k n, level n < k -> In n (nodes g1) -> rk1 n = rk2 n).
  { induction k as [|k IH]; intros n Hlt Hin; [lia |].
    rewrite (H1 n Hin), (H2 n (proj1 (Hn n) Hin)). f_equal.
    apply list_max_same_set.
    - intros x. rewrite !in_predecessors. apply He.
    - intros x Hx. apply in_predecessors in Hx. apply IH.
      + pose proof (Hlevel _ _ Hx). lia.
      + apply (Hends _ _ Hx). }
  intros n Hin. apply (Hind (S (level n))); [lia | exact Hin].
Qed.

Lemma key_of_descs g rk descs k :
  Permutation (map (@nd_name World) descs) (nodes g) ->
  (forall d, In d descs -> nd_rank d = Some (rk (nd_name d))) ->
  In k (map key_of descs) <-> In (snd k) (nodes g) /\ fst k = rk (snd k).
Proof.
  intros Hperm Hrank. split.
  - intros Hk. apply in_map_iff in Hk. destruct Hk as (d & <- & Hd).
    unfold key_of. rewrite (Hrank d Hd). simpl. split; [| reflexivity].
    eapply Permutation_in; [exact Hperm |]. apply in_map, Hd.
  - intros [Hin Hfst]. apply (Permutation_in _ (Permutation_sym Hperm)) in Hin.
    apply in_map_iff in Hin. destruct Hin as (d & Hname & Hd).
    apply in_map_iff. exists d. split; [| exact Hd].
    unfold key_of. rewrite (Hrank d Hd), Hname. destruct k; simpl in *. congruence.
Qed.

Lemma keys_determined g1 g2 rk1 rk2 descs1 descs2 :
  wf_graph g1 -> levelled g1 -> same_graph g1 g2 ->
  Permutation (map (@nd_name World) descs1) (nodes g1) ->
  Permutation (map (@nd_name World) descs2) (nodes g2) ->
  (forall d, In d descs1 -> nd_rank d = Some (rk1 (nd_name d))) ->
  (forall d, In d descs2 -> nd_rank d = Some (rk2 (nd_name d))) ->
  rank_rule g1 rk1 -> rank_rule g2 rk2 ->
  StronglySorted key_before (map key_of descs1) ->
  StronglySorted key_before (map key_of descs2) ->
  map key_of descs2 = map key_of descs1.
Proof.
  intros Hwf Hac Hsame Hp1 Hp2 Hr1 Hr2 Hrule1 Hrule2 Hs1 Hs2.
  apply increasing_unique; auto. intros k.
  rewrite (@key_of_descs g1 rk1 descs1 k Hp1 Hr1), (@key_of_descs g2 rk2 descs2 k Hp2 Hr2).
  pose proof (rank_rule_unique Hwf Hac Hsame Hrule1 Hrule2) as Heq.
  destruct Hsame as [Hn _]. split; intros [Hin Hfst].
  - apply Hn in Hin. split; [exact Hin |]. rewrite Heq by exact Hin. exact Hfst.
  - split; [apply Hn, Hin |]. rewrite <- Heq by exact Hin. exact Hfst.
Qed.

Lemma levelled_same_graph g1 g2 : same_graph g1 g2 -> levelled g1 -> levelled g2.
Proof.
  intros [_ He] [level Hlevel]. exists level. intros u v Huv. apply Hlevel, He, Huv.
Qed.

(** *** The graphs that the declarations build *)

Lemma wf_empty : wf_graph (DiGraph_empty World).
Proof. repeat split; try constructor; destruct H. Qed.

Lemma wf_set_node n a g :
  wf_graph g -> wf_graph {| _node := Dict.set n a (_node g); _adj := _adj g |}.
Proof.
  intros (H1 & H2 & H3). split; [| split].
  - unfold nodes; simpl. apply NoDup_keys_set, H1.
  - exact H2.
  - intros u v Huv. destruct (H3 u v Huv). unfold nodes; simpl.
    rewrite !keys_set. auto.
Qed.

Lemma wf_add_node n dt g : wf_graph g -> wf_graph (add_node n dt g).
Proof. apply wf_set_node. Qed.

Lemma wf_touch_node n g : wf_graph g -> wf_graph (touch_node n g).
Proof.
  intros Hwf. pose proof Hwf as (H1 & H2 & H3). unfold touch_node.
  destruct (Dict.mem n (_node g)); [exact Hwf |].
  apply wf_set_node, Hwf.
Qed.

Lemma wf_add_edge u v t g : wf_graph g -> wf_graph (add_edge u v t g).
Proof.
  intros Hwf.
  pose proof (wf_touch_node v (wf_touch_node u Hwf)) as (H1 & H2 & H3).
  assert (Hu : In u (nodes (touch_node v (touch_node u g))))
    by (rewrite !nodes_touch_node; auto).
  assert (Hv : In v (nodes (touch_node v (touch_node u g))))
    by (rewrite !nodes_touch_node; auto).
  unfold add_edge. split; [| split].
  - exact H1.
  - unfold edges; simpl. apply NoDup_keys_set, H2.
  - intros a b Hab. unfold edges in Hab; simpl in Hab. apply keys_set in Hab.
    destruct Hab as [E|Hab]; [inversion E; subst; split; assumption | apply H3, Hab].
Qed.

Lemma wf_add_beaker n dt (r : Recipe World) :
  wf_graph (graph r) -> wf_graph (graph (add_beaker n dt r)).
Proof. intros Hwf. unfold add_beaker. destruct dt; simpl; apply wf_add_node, Hwf. Qed.

Lemma wf_add_transform f t fn nm em (r : Recipe World) :
  wf_graph (graph r) -> wf_graph (graph (add_transform f t fn nm em r)).
Proof. intros Hwf. unfold add_transform. simpl. apply wf_add_edge, Hwf. Qed.

Lemma wf_declare d (r : Recipe World) :
  wf_graph (graph r) -> wf_graph (graph (declare d r)).
Proof.
  intros Hwf. destruct d; cbn [declare].
  - apply wf_add_beaker, Hwf.
  - apply wf_add_transform, Hwf.
  - unfold add_conditional. destruct (String.eqb if_false "");
      repeat (apply wf_add_transform || apply wf_add_beaker); exact Hwf.
  - exact Hwf.
Qed.

Lemma wf_declare_all ds : forall r : Recipe World,
  wf_graph (graph r) -> wf_graph (graph (declare_all ds r)).
Proof.
  unfold declare_all. induction ds as [|d ds IH]; intros r Hwf; simpl; [exact Hwf |].
  apply IH, wf_declare, Hwf.
Qed.

(** *** Checking a given graph *)

Lemma levelled_check levels g : levels_increase levels g = true -> levelled g.
Proof.
  intros Hc. exists (level_of levels). intros u v Huv.
  unfold levels_increase in Hc. rewrite forallb_forall in Hc.
  apply Nat.ltb_lt. apply (Hc (u, v) Huv).
Qed.

Lemma all_declared_check s : all_declaredb s = true -> all_declared s.
Proof.
  intros Hc n Hn. unfold all_declaredb in Hc. rewrite forallb_forall in Hc.
  apply mem_In_keys, Hc, Hn.
Qed.

Lemma mem_edge_true e l : mem_edge e l = true -> In e l.
Proof.
  unfold mem_edge. rewrite existsb_exists. intros ([a b] & Hin & Heq).
  apply andb_true_iff in Heq. destruct Heq as [E1 E2].
  apply String.eqb_eq in E1, E2. destruct e; simpl in *. subst. exact Hin.
Qed.

Lemma same_graph_check g1 g2 : same_graphb g1 g2 = true -> same_graph g1 g2.
Proof.
  unfold same_graphb. rewrite !andb_true_iff, !forallb_forall.
  intros [[[H1 H2] H3] H4]. split.
  - intros n. split; intros Hn; apply mem_str_true; auto.
  - intros e. split; intros Hn; apply mem_edge_true; auto.
Qed.

End Rank.

Import Examples.

(** C7.  When the graph of a recipe has no cycle (no path from a node to
    itself) and all its nodes are declared beakers, [graph_data] returns one descriptor for each node;
    the rank [rk] it gives a node is one more than the largest rank of the
    node's predecessors, the largest rank of no predecessor being 0, so a
    node without predecessor has rank 1; the descriptors are in strictly
    increasing order of [(rank, name)]; and a recipe with the same nodes
    and edges in another insertion order gets the same list of
    [(rank, name)].  On the recipe of [test_graph_data_multiple_rank],
    with edges nouns -> normalized, verbs -> normalized,
    normalized -> english and normalized -> spanish, the descriptors
    returned are nouns and verbs of rank 1, normalized of rank 2, english
    and spanish of rank 3, in that order. *)
Theorem graph_data_ranks_and_order :
  (forall (World : Type) (s1 s2 : State World),
     wf_graph (graph (recipe s1)) -> acyclic (graph (recipe s1)) -> all_declared s1 ->
     wf_graph (graph (recipe s2)) -> all_declared s2 ->
     same_graph (graph (recipe s1)) (graph (recipe s2)) ->
     exists descs1 s1' descs2 s2' rk,
       graph_data s1 = (Return descs1, s1') /\
       graph_data s2 = (Return descs2, s2') /\
       Permutation (map (@nd_name World) descs1) (nodes (graph (recipe s1))) /\
       (forall d, In d descs1 -> nd_rank d = Some (rk (nd_name d))) /\
       rank_rule (graph (recipe s1)) rk /\
       (forall n, In n (nodes (graph (recipe s1))) ->
          predecessors (graph (recipe s1)) n = [] -> rk n = 1) /\
       StronglySorted key_before (map (@key_of World) descs1) /\
       map (@key_of World) descs2 = map (@key_of World) descs1) /\
  (exists descs s',
     graph_data (initial test_graph_data_multiple_rank) = (Return descs, s') /\
     map (fun d => (nd_name d, nd_rank d)) descs
     = [("nouns", Some 1); ("verbs", Some 1); ("normalized", Some 2);
        ("english", Some 3); ("spanish", Some 3)]).
Proof.
  split.
  - intros World s1 s2 Hwf1 Hcyc Hd1 Hwf2 Hd2 Hsame.
    pose proof (acyclic_levelled Hwf1 Hcyc) as Hac1.
    destruct (graph_data_spec Hwf1 Hac1 Hd1)
      as (descs1 & s1' & rk1 & Hrun1 & Hp1 & Hr1 & Hrule1 & Hs1).
    destruct (graph_data_spec Hwf2 (levelled_same_graph Hsame Hac1) Hd2)
      as (descs2 & s2' & rk2 & Hrun2 & Hp2 & Hr2 & Hrule2 & Hs2).
    exists descs1, s1', descs2, s2', rk1.
    repeat split; auto.
    + intros n Hn Hnil. rewrite (Hrule1 n Hn), Hnil. reflexivity.
    + apply (@keys_determined World (graph (recipe s1)) (graph (recipe s2)) rk1 rk2
               descs1 descs2); assumption.
  - eexists. eexists. split; vm_compute; reflexivity.
Qed.

Lemma graph_data_ranks_and_order_witness :
  exists descs1 s1' descs2 s2',
    graph_data (initial test_graph_data_multiple_rank) = (Return descs1, s1') /\
    graph_data (initial multiple_rank_reordered) = (Return descs2, s2') /\
    StronglySorted key_before (map (@key_of unit) descs1) /\
    map (@key_of unit) descs2 = map (@key_of unit) descs1.
Proof.
  destruct (proj1 graph_data_ranks_and_order unit
              (initial test_graph_data_multiple_rank) (initial multiple_rank_reordered))
    as (descs1 & s1' & descs2 & s2' & rk & H1 & H2 & _ & _ & _ & _ & H3 & H4).
  - repeat (apply wf_add_transform || apply wf_add_beaker). apply wf_empty.
  - apply levelled_acyclic.
    apply (@levelled_check unit
             [("nouns", 1); ("verbs", 1); ("normalized", 2); ("english", 3); ("spanish", 3)]).
    vm_compute. reflexivity.
  - apply all_declared_check. vm_compute. reflexivity.
  - repeat (apply wf_add_transform || apply wf_add_beaker). apply wf_empty.
  - apply all_declared_check. vm_compute. reflexivity.
  - apply same_graph_check. vm_compute. reflexivity.
  - exists descs1, s1', descs2, s2'. auto.
Defined.

(** A node that [add_transform] created and no [add_beaker] declared has
    no entry in [self.beakers]: [graph_data] raises [KeyError] there. *)
Example graph_data_undeclared_node :
  fst (graph_data (initial test_add_transform)) = Raise (KeyError "capitalized").
Proof. vm_compute. reflexivity. Qed.

End RankFacts.

(** ** [run_once]: what a run keeps, and partial runs *)

Module PartialRunFacts.
Import Beakers SeedDefs RunDefs PartialRunDefs DictFacts ListFacts SeedFacts RunFacts.

Section Partial.
Variable World : Type.
Implicit Types (s : State World) (r : Recipe World).
Implicit Types (ev : event World) (evs : list (event World)).

(** *** What a run keeps *)

Lemma keys_write_rows_set key id item r k i :
  In i (Dict.keys (rows_of r k)) ->
  In i (Dict.keys (rows_of (write_rows key (Dict.set id item (rows_of r key)) r) k)).
Proof.
  unfold write_rows, rows_of.
  destruct (Dict.get key (beakers r)) as [[n m|n its]|] eqn:Ekey; [| | auto].
  - simpl. destruct (Dict.get k (beakers r)) as [[n' m'|n' its']|]; simpl; auto.
    destruct (string_dec n' n) as [->|Hne].
    + rewrite get_set_same. intros Hi. apply keys_set. right. exact Hi.
    + rewrite get_set_other by exact Hne. auto.
  - simpl. destruct (string_dec k key) as [->|Hne].
    + rewrite get_set_same, Ekey. simpl. intros Hi. apply keys_set. right. exact Hi.
    + rewrite get_set_other by exact Hne.
      destruct (Dict.get k (beakers r)) as [[n' m'|n' its']|]; simpl; auto.
Qed.

Lemma kept_refl s : kept s s.
Proof. unfold kept. repeat split; auto. Qed.

Lemma kept_logged s0 s ev : kept s0 s -> kept s0 (logged_state ev s).
Proof. intros H. exact H. Qed.

Lemma kept_called s0 s u v t id item res w :
  kept s0 s -> kept s0 (called u v t id item res w s).
Proof. intros H. exact H. Qed.

Lemma kept_stored s0 s key id item : kept s0 s -> kept s0 (stored key id item s).
Proof.
  intros (Hg & Hs & Hl & Hn & Hd & Ha & Hu & Ho & Hk).
  unfold kept, stored. cbn [recipe uuid_counter stdout].
  rewrite graph_write_rows, seeds_write_rows, ledger_write_rows, name_write_rows.
  repeat split; auto.
  - intros H. apply Hd. eapply declared_write_rows, H.
  - intros H. apply declared_write_rows, Hd, H.
  - intros k x. rewrite accepts_write_rows. apply Ha.
  - intros k i Hi. apply keys_write_rows_set, Hk, Hi.
Qed.

Lemma route_exception_kept s0 em id item e s :
  kept s0 s -> kept s0 (snd (route_exception em id item e s)).
Proof.
  intros H. rewrite route_exception_eq.
  destruct (matching_entry em e) as [eb|]; [| exact H].
  destruct (Dict.get eb (beakers (recipe s))); [| exact H].
  destruct (is_BaseModel item); [| exact H].
  destruct (accepts (recipe s) eb (error_record item e)); [| exact H].
  apply kept_stored, H.
Qed.

Lemma process_item_kept s0 u v t id item :
  hoare (kept s0) (process_item u v t id item) (fun _ => kept s0) (fun _ => kept s0).
Proof.
  intros s H. rewrite process_item_eq.
  destruct (call (transform_func t) item (world s)) as [[x|e] w]; cbn zeta.
  - destruct (truthy x); [| exact H].
    destruct (accepts (recipe s) v x).
    + apply kept_stored, kept_called, H.
    + pose proof (@route_exception_kept s0 (error_map t) id item not_conforming
                    (called u v t id item (Return x) w s) (kept_called _ _ _ _ _ _ _ H)) as Hr.
      destruct (route_exception _ _ _ _ _) as [[[]|e'] s']; exact Hr.
  - destruct (isinstance1 e "Exception"); [| exact H].
    pose proof (@route_exception_kept s0 (error_map t) id item e
                  (called u v t id item (Raise e) w s) (kept_called _ _ _ _ _ _ _ H)) as Hr.
    destruct (route_exception _ _ _ _ _) as [[[]|e'] s']; exact Hr.
Qed.

(** *** The events of a partial run *)

Lemma extends_ret A (P : event World -> Prop) (a : A) : extends P (ret (World:=World) a).
Proof. intros s. exists []. rewrite app_nil_r. split; [reflexivity | constructor]. Qed.

Lemma extends_raise A (P : event World -> Prop) e : extends P (raise (World:=World) (A:=A) e).
Proof. intros s. exists []. rewrite app_nil_r. split; [reflexivity | constructor]. Qed.

Lemma extends_get_recipe (P : event World -> Prop) : extends P (get_recipe (World:=World)).
Proof. intros s. exists []. rewrite app_nil_r. split; [reflexivity | constructor]. Qed.

Lemma extends_emit (P : event World -> Prop) ev : P ev -> extends P (emit ev).
Proof. intros H s. exists [ev]. split; [reflexivity | repeat constructor; exact H]. Qed.

Lemma extends_bind A B (P : event World -> Prop) (m : M World A) (k : A -> M World B) :
  extends P m -> (forall a, extends P (k a)) -> extends P (bind m k).
Proof.
  intros Hm Hk s. unfold bind. destruct (Hm s) as (evs1 & H1 & HP1).
  destruct (m s) as [[a|e] s1]; simpl in *.
  - destruct (Hk a s1) as (evs2 & H2 & HP2).
    exists (evs1 ++ evs2). rewrite H2, H1, app_assoc.
    split; [reflexivity | apply Forall_app; auto].
  - exists evs1. auto.
Qed.

Lemma extends_for_each A (P : event World -> Prop) (body : A -> M World unit) l :
  (forall x, In x l -> extends P (body x)) -> extends P (for_each body l).
Proof.
  induction l as [|a l IH]; intros Hb; simpl.
  - apply extends_ret.
  - apply extends_bind; [apply Hb; left; reflexivity |].
    intros _. apply IH. intros x Hx. apply Hb. right. exact Hx.
Qed.

Lemma extends_weaken A (P Q : event World -> Prop) (m : M World A) :
  (forall ev, P ev -> Q ev) -> extends P m -> extends Q m.
Proof.
  intros HPQ Hm s. destruct (Hm s) as (evs & Ht & HP).
  exists evs. split; [exact Ht | eapply Forall_impl; [exact HPQ | exact HP]].
Qed.

Lemma from_in_logged l n f : from_in l (Logged (World:=World) n f).
Proof. intros u Hu. discriminate. Qed.

Lemma from_in_incl l l' ev : incl l l' -> from_in l ev -> from_in l' ev.
Proof. intros Hi H u Hu. apply Hi, H, Hu. Qed.

Lemma run_edge_from u v (edge : EdgeData World) : extends (from_in [u]) (run_edge (u, v, edge)).
Proof.
  intros s. destruct (run_edge_calls u v edge s) as (evs & rest & Ht & _ & _ & Hc).
  exists evs. split; [exact Ht |].
  unfold calls_on_edge in Hc. eapply Forall_impl; [| exact Hc].
  intros ev Hev u' Hu'. destruct ev; simpl in *; try discriminate.
  inversion Hu'; subst. left. symmetry. apply Hev.
Qed.

Lemma out_edges_from (g : DiGraph World) node e :
  In e (out_edges g node) -> fst (fst e) = node.
Proof.
  unfold out_edges. intros H. apply filter_In in H. destruct H as [_ H].
  destruct (string_dec (fst (fst e)) node); [assumption | discriminate].
Qed.

Lemma run_nodes_window st en order : forall started,
  extends (from_in (run_window st en order started))
    (run_nodes (World:=World) st en order started).
Proof.
  induction order as [|node order IH]; intros started; cbn [run_nodes run_window].
  - apply extends_ret.
  - destruct (negb started && negb (is_name node st))%bool.
    + apply extends_bind; [apply extends_emit, from_in_logged | intros _; apply IH].
    + assert (Hstart : extends (from_in (World:=World) [])
                (if started then ret tt else emit (Logged "partial run start" [("node", node)]))).
      { destruct started; [apply extends_ret | apply extends_emit, from_in_logged]. }
      destruct (given en && is_name node en)%bool.
      * apply extends_bind; [exact Hstart | intros _].
        apply extends_bind; [apply extends_emit, from_in_logged | intros _; apply extends_ret].
      * apply extends_bind.
        { eapply extends_weaken; [| exact Hstart].
          intros ev. apply from_in_incl. intros x []. }
        intros _. apply extends_bind; [apply extends_get_recipe | intros r].
        apply extends_bind.
        { apply extends_for_each. intros [[u v] edge] He.
          apply out_edges_from in He. simpl in He. subst u.
          eapply extends_weaken; [| apply run_edge_from].
          intros ev. apply from_in_incl. intros x [<-|[]]. left. reflexivity. }
        intros _. eapply extends_weaken; [| apply IH].
        intros ev. apply from_in_incl. intros x Hx. right. exact Hx.
Qed.

Lemma run_once_window st en s :
  exists evs,
    trace (snd (run_once st en s)) = trace s ++ run_once_log (recipe s) :: evs /\
    Forall (from_in (run_window st en (fst (topological_sort (graph (recipe s))))
                       (negb (given st)))) evs.
Proof.
  unfold run_once. unfold bind at 1. unfold get_recipe. unfold bind at 1.
  unfold emit at 1.
  set (s1 := {| recipe := recipe s; world := world s; uuid_counter := uuid_counter s;
                stdout := stdout s;
                trace := trace s ++ [Logged "run_once"
                  [("recipe", ("Recipe(" ++ recipe_name (recipe s) ++ ")")%string)]] |}).
  replace (if given st then false else true) with (negb (given st))
    by (destruct (given st); reflexivity).
  destruct (topological_sort (graph (recipe s))) as [order err]. cbn [fst].
  destruct (@run_nodes_window st en order (negb (given st)) s1) as (evs & Ht & HP).
  exists evs. split; [| exact HP].
  unfold bind. destruct (run_nodes st en order (negb (given st)) s1) as [[broke|e] s2];
    simpl in *.
  - assert (E : trace s2 = trace s ++ run_once_log (recipe s) :: evs).
    { rewrite Ht. unfold run_once_log. rewrite <- app_assoc. reflexivity. }
    destruct broke; [exact E |]. destruct err; exact E.
  - rewrite Ht. unfold run_once_log. rewrite <- app_assoc. reflexivity.
Qed.

(** *** The nodes of the window *)

Lemma window_split st en order : forall started u,
  In u (run_window st en order started) -> exists l1 l2, order = l1 ++ u :: l2.
Proof.
  induction order as [|node order IH]; intros started u; cbn [run_window]; [intros [] |].
  assert (Hrest : forall b, In u (run_window st en order b) ->
            exists l1 l2, node :: order = l1 ++ u :: l2).
  { intros b Hu. destruct (IH b u Hu) as (l1 & l2 & E).
    exists (node :: l1), l2. rewrite E. reflexivity. }
  destruct (negb started && negb (is_name node st))%bool; [apply Hrest |].
  destruct (given en && is_name node en)%bool; [intros [] |].
  intros [<-|Hu]; [exists [], order; reflexivity | eapply Hrest, Hu].
Qed.

Lemma window_before_end st en order : forall started u,
  In u (run_window st en order started) ->
  given en = true -> is_name u en = false.
Proof.
  induction order as [|node order IH]; intros started u; cbn [run_window]; [intros [] |].
  destruct (negb started && negb (is_name node st))%bool; [apply IH |].
  destruct (given en) eqn:Eg; [| intros _; discriminate].
  destruct (is_name node en) eqn:En; simpl; [intros [] |].
  intros [<-|Hu] _; [exact En | apply (IH true u Hu eq_refl)].
Qed.

Lemma window_started en order st : forall u,
  In u (run_window st en order true) ->
  exists l1 l2, order = l1 ++ u :: l2 /\
    (given en = true -> forall n, In n (l1 ++ [u]) -> is_name n en = false).
Proof.
  induction order as [|node order IH]; intros u; cbn [run_window]; [intros [] |].
  cbn [negb andb].
  destruct (given en && is_name node en)%bool eqn:Ec; [intros [] |].
  intros [<-|Hu].
  - exists [], order. split; [reflexivity |]. intros Hg n [<-|[]].
    rewrite Hg in Ec. exact Ec.
  - destruct (IH u Hu) as (l1 & l2 & E & Hb).
    exists (node :: l1), l2. split; [rewrite E; reflexivity |].
    intros Hg n [<-|Hn]; [rewrite Hg in Ec; exact Ec | apply Hb; assumption].
Qed.

Lemma window_waiting st en order : forall u,
  In u (run_window st en order false) ->
  exists l1 l2, order = l1 ++ u :: l2 /\ exists n, In n (l1 ++ [u]) /\ is_name n st = true.
Proof.
  induction order as [|node order IH]; intros u; cbn [run_window]; [intros [] |].
  cbn [negb andb].
  destruct (is_name node st) eqn:Es; cbn [negb].
  - destruct (given en && is_name node en)%bool; [intros [] |].
    intros [<-|Hu].
    + exists [], order. split; [reflexivity |]. exists node. split; [left; reflexivity | exact Es].
    + destruct (@window_split _ _ _ _ _ Hu) as (l1 & l2 & E).
      exists (node :: l1), l2. split; [rewrite E; reflexivity |].
      exists node. split; [left; reflexivity | exact Es].
  - intros Hu. destruct (IH u Hu) as (l1 & l2 & E & n & Hn & Hs).
    exists (node :: l1), l2. split; [rewrite E; reflexivity |].
    exists n. split; [right; exact Hn | exact Hs].
Qed.

Lemma is_name_eq n x : is_name n (Some x) = true <-> n = x.
Proof. simpl. apply String.eqb_eq. Qed.

Lemma given_Some x : x <> "" -> given (Some x) = true.
Proof.
  intros Hx. simpl. destruct (String.eqb_spec x ""); [contradiction | reflexivity].
Qed.

Lemma called_in_window l evs u v (t : Transform World) id item res :
  Forall (from_in l) evs -> In (Called u v t id item res) evs -> In u l.
Proof.
  intros HP Hin. rewrite Forall_forall in HP. apply (HP _ Hin). reflexivity.
Qed.

Lemma run_nodes_all_skipped st en order : forall s,
  (forall n, In n order -> is_name n st = false) ->
  run_nodes st en order false s =
    (Return false,
     {| recipe := recipe s; world := world s; uuid_counter := uuid_counter s;
        stdout := stdout s; trace := trace s ++ map (skip_log st) order |}).
Proof.
  induction order as [|node order IH]; intros s Hall; cbn [run_nodes map].
  - rewrite app_nil_r. destruct s; reflexivity.
  - rewrite (Hall node (or_introl eq_refl)). cbn [negb andb].
    unfold bind at 1. unfold emit at 1.
    rewrite IH by (intros n Hn; apply Hall; right; exact Hn).
    cbn [recipe world uuid_counter stdout trace]. unfold skip_log.
    rewrite <- app_assoc. reflexivity.
Qed.


(** X2: With [end_beaker] given, [run_once] calls no transform on an edge that
    leaves [end_beaker]; and when no [start_beaker] is given, every call
    is on an edge leaving a node that the topological order lists before
    [end_beaker]. *)
Theorem run_once_stops_at_end_beaker (start_beaker : option string) (e : string)
    (s : State World) :
  e <> "" ->
  exists evs,
    trace (snd (run_once start_beaker (Some e) s)) = trace s ++ evs /\
    forall u v t id item res,
      In (Called u v t id item res) evs ->
      u <> e /\
      (given start_beaker = false ->
       exists l1 l2,
         fst (topological_sort (graph (recipe s))) = l1 ++ u :: l2 /\ ~ In e l1).
Proof.
  intros He. destruct (run_once_window start_beaker (Some e) s) as (evs & Ht & HP).
  exists (run_once_log (recipe s) :: evs). split; [exact Ht |].
  intros u v t id item res [Hin|Hin]; [discriminate |].
  pose proof (@called_in_window _ evs u v t id item res HP Hin) as Hw.
  split.
  - pose proof (@window_before_end _ _ _ _ _ Hw (given_Some He)) as Hn.
    intros ->. simpl in Hn. rewrite String.eqb_refl in Hn. discriminate.
  - intros Hst. rewrite Hst in Hw. cbn [negb] in Hw.
    destruct (@window_started _ _ _ _ Hw) as (l1 & l2 & E & Hb).
    exists l1, l2. split; [exact E |]. intros Hin1.
    specialize (Hb (given_Some He) e).
    simpl in Hb. rewrite String.eqb_refl in Hb.
    assert (false = true -> False) by discriminate.
    apply H. symmetry. apply Hb. apply in_app_iff. left. exact Hin1.
Qed.

(** X3: With [start_beaker] given, every call of [run_once] is on an edge
    leaving [start_beaker] or a node that the topological order lists
    after it. *)
Theorem run_once_begins_at_start_beaker (x : string) (end_beaker : option string)
    (s : State World) :
  x <> "" ->
  exists evs,
    trace (snd (run_once (Some x) end_beaker s)) = trace s ++ evs /\
    forall u v t id item res,
      In (Called u v t id item res) evs ->
      exists l1 l2,
        fst (topological_sort (graph (recipe s))) = l1 ++ u :: l2 /\ In x (l1 ++ [u]).
Proof.
  intros Hx. destruct (run_once_window (Some x) end_beaker s) as (evs & Ht & HP).
  exists (run_once_log (recipe s) :: evs). split; [exact Ht |].
  intros u v t id item res [Hin|Hin]; [discriminate |].
  pose proof (@called_in_window _ evs u v t id item res HP Hin) as Hw.
  rewrite (given_Some Hx) in Hw. cbn [negb] in Hw.
  destruct (@window_waiting _ _ _ _ Hw) as (l1 & l2 & E & n & Hn & Hs).
  exists l1, l2. split; [exact E |]. apply is_name_eq in Hs. subst n. exact Hn.
Qed.

(** X4: A [start_beaker] that is not a node of the graph is not an error: the
    run passes over every node, logging each one, calls no transform,
    stores nothing, and ends as the topological sort does. *)
Theorem run_once_unknown_start_beaker (x : string) (end_beaker : option string)
    (s : State World) :
  x <> "" ->
  ~ In x (fst (topological_sort (graph (recipe s)))) ->
  run_once (Some x) end_beaker s =
    (match snd (topological_sort (graph (recipe s))) with
     | Some e => Raise e
     | None => Return tt
     end,
     {| recipe := recipe s; world := world s; uuid_counter := uuid_counter s;
        stdout := stdout s;
        trace := trace s ++ run_once_log (recipe s)
                   :: map (skip_log (Some x)) (fst (topological_sort (graph (recipe s)))) |}).
Proof.
  intros Hx Hnin. unfold run_once. unfold bind at 1. unfold get_recipe. unfold bind at 1.
  unfold emit at 1. rewrite (given_Some Hx).
  destruct (topological_sort (graph (recipe s))) as [order err]. cbn [fst snd] in *.
  unfold bind. rewrite run_nodes_all_skipped.
  - cbn [recipe world uuid_counter stdout trace]. unfold run_once_log.
    rewrite <- app_assoc. destruct err; reflexivity.
  - intros n Hn. destruct (is_name n (Some x)) eqn:E; [| reflexivity].
    apply is_name_eq in E. subst n. contradiction.
Qed.

End Partial.

Import Examples.

Lemma run_once_stops_at_end_beaker_witness :
  exists evs,
    trace (snd (run_once None (Some "capitalized") (initial (pair_recipe capitalized))))
      = trace (initial (pair_recipe capitalized)) ++ evs /\
    forall u v t id item res,
      In (Called u v t id item res) evs ->
      u <> "capitalized" /\
      (given None = false ->
       exists l1 l2,
         fst (topological_sort (graph (recipe (initial (pair_recipe capitalized)))))
           = l1 ++ u :: l2 /\ ~ In "capitalized" l1).
Proof.
  apply (@run_once_stops_at_end_beaker unit None "capitalized"
           (initial (pair_recipe capitalized))).
  discriminate.
Defined.

Lemma run_once_begins_at_start_beaker_witness :
  exists evs,
    trace (snd (run_once (Some "capitalized") None (initial (pair_recipe capitalized))))
      = trace (initial (pair_recipe capitalized)) ++ evs /\
    forall u v t id item res,
      In (Called u v t id item res) evs ->
      exists l1 l2,
        fst (topological_sort (graph (recipe (initial (pair_recipe capitalized)))))
          = l1 ++ u :: l2 /\ In "capitalized" (l1 ++ [u]).
Proof.
  apply (@run_once_begins_at_start_beaker unit "capitalized" None
           (initial (pair_recipe capitalized))).
  discriminate.
Defined.

Lemma run_once_unknown_start_beaker_witness :
  run_once (Some "words") None (initial (pair_recipe capitalized)) =
    (Return tt,
     {| recipe := pair_recipe capitalized; world := tt; uuid_counter := 0; stdout := [];
        trace := [Logged "run_once" [("recipe", "Recipe(test)")];
                  Logged "partial run skip" [("node", "word"); ("waiting_for", "words")];
                  Logged "partial run skip"
                    [("node", "capitalized"); ("waiting_for", "words")]] |}).
Proof.
  rewrite (@run_once_unknown_start_beaker unit "words" None
             (initial (pair_recipe capitalized))).
  - reflexivity.
  - discriminate.
  - vm_compute. intros [H|[H|[]]]; discriminate.
Defined.

End PartialRunFacts.

(** ** [run_once]: what a run stores, and a run over a chain *)

Module ChainFacts.
Import Beakers SeedDefs RunDefs PartialRunDefs.
Import DictFacts ListFacts SeedFacts RunFacts PartialRunFacts.

Section Chain.
Variable World : Type.
Implicit Types (s : State World) (r : Recipe World) (t : Transform World).

Lemma route_exception_named em id item e s :
  beakers_named (recipe s) ->
  beakers_named (recipe (snd (route_exception em id item e s))).
Proof.
  intros H. rewrite route_exception_eq.
  destruct (matching_entry em e) as [eb|]; [| exact H].
  destruct (Dict.get eb (beakers (recipe s))); [| exact H].
  destruct (is_BaseModel item); [| exact H].
  destruct (accepts (recipe s) eb (error_record item e)); [| exact H].
  cbn [snd recipe stored]. apply named_write_rows, H.
Qed.

Lemma process_item_named u v t id item :
  hoare (fun s => beakers_named (recipe s)) (process_item u v t id item)
    (fun _ s => beakers_named (recipe s)) (fun _ s => beakers_named (recipe s)).
Proof.
  intros s H. rewrite process_item_eq.
  destruct (call (transform_func t) item (world s)) as [[x|e] w]; cbn zeta.
  - destruct (truthy x); [| exact H].
    destruct (accepts (recipe s) v x).
    + cbn [recipe stored called]. apply named_write_rows, H.
    + pose proof (@route_exception_named (error_map t) id item not_conforming
                    (called u v t id item (Return x) w s) H) as Hr.
      destruct (route_exception _ _ _ _ _) as [[[]|e'] s']; exact Hr.
  - destruct (isinstance1 e "Exception"); [| exact H].
    pose proof (@route_exception_named (error_map t) id item e
                  (called u v t id item (Raise e) w s) H) as Hr.
    destruct (route_exception _ _ _ _ _) as [[[]|e'] s']; exact Hr.
Qed.

Lemma In_set (V : Type) (k k' : item_id) (v v' : V) (d : Dict.t item_id V) :
  In (k', v') (Dict.set k v d) -> (k', v') = (k, v) \/ In (k', v') d.
Proof.
  induction d as [|[k0 v0] d IH]; simpl.
  - intros [H|[]]. left. symmetry. exact H.
  - destruct (eq_dec k k0).
    + intros [H|H]; [left; symmetry; exact H | right; right; exact H].
    + intros [H|H]; [right; left; exact H |].
      destruct (IH H) as [H'|H']; [left; exact H' | right; right; exact H'].
Qed.

Lemma well_typed_stored key id item s :
  beakers_named (recipe s) -> well_typed (recipe s) ->
  accepts (recipe s) key item = true ->
  well_typed (recipe (stored key id item s)).
Proof.
  intros Hn Hw Hacc k i x. cbn [recipe stored]. rewrite accepts_write_rows.
  assert (Hd : is_declared (recipe s) key).
  { apply get_In_keys. unfold accepts in Hacc.
    destruct (Dict.get key (beakers (recipe s))); [discriminate | discriminate Hacc]. }
  destruct (string_dec k key) as [->|Hne].
  - rewrite rows_of_write_rows_same by exact Hd. intros Hin.
    apply In_set in Hin. destruct Hin as [Hin|Hin].
    + inversion Hin. subst. exact Hacc.
    + apply (Hw key i x Hin).
  - rewrite rows_of_write_rows_other by assumption. apply Hw.
Qed.

Lemma route_exception_typed em id item e s :
  beakers_named (recipe s) -> well_typed (recipe s) ->
  well_typed (recipe (snd (route_exception em id item e s))).
Proof.
  intros Hn H. rewrite route_exception_eq.
  destruct (matching_entry em e) as [eb|]; [| exact H].
  destruct (Dict.get eb (beakers (recipe s))); [| exact H].
  destruct (is_BaseModel item); [| exact H].
  destruct (accepts (recipe s) eb (error_record item e)) eqn:Hacc; [| exact H].
  cbn [snd]. apply well_typed_stored; assumption.
Qed.

Lemma process_item_typed u v t id item :
  hoare (fun s => beakers_named (recipe s) /\ well_typed (recipe s))
    (process_item u v t id item)
    (fun _ s => beakers_named (recipe s) /\ well_typed (recipe s))
    (fun _ s => beakers_named (recipe s) /\ well_typed (recipe s)).
Proof.
  intros s [Hn Hw].
  pose proof (@process_item_named u v t id item s Hn) as Hnamed.
  rewrite process_item_eq in *.
  destruct (call (transform_func t) item (world s)) as [[x|e] w]; cbn zeta in *.
  - destruct (truthy x); [| split; assumption].
    destruct (accepts (recipe s) v x) eqn:Hacc.
    + split; [exact Hnamed |].
      apply (@well_typed_stored v id x (called u v t id item (Return x) w s) Hn Hw Hacc).
    + pose proof (@route_exception_typed (error_map t) id item not_conforming
                    (called u v t id item (Return x) w s) Hn Hw) as Hr.
      destruct (route_exception _ _ _ _ _) as [[[]|e'] s']; split; assumption.
  - destruct (isinstance1 e "Exception"); [| split; assumption].
    pose proof (@route_exception_typed (error_map t) id item e
                  (called u v t id item (Raise e) w s) Hn Hw) as Hr.
    destruct (route_exception _ _ _ _ _) as [[[]|e'] s']; split; assumption.
Qed.

(** X22: a run stores only what the beakers take: when every stored
    record is one its beaker takes before [run_once], this is so after it,
    whether the run returns or raises, the records it stored in the
    destinations and the error records it stored in the error beakers
    included. *)
Theorem run_once_stores_only_accepted_records (start_beaker end_beaker : option string)
    (s : State World) :
  beakers_named (recipe s) -> well_typed (recipe s) ->
  well_typed (recipe (snd (run_once start_beaker end_beaker s))).
Proof.
  intros Hn Hw.
  pose proof (@run_once_inv World
                (fun s0 => beakers_named (recipe s0) /\ well_typed (recipe s0))
                (fun _ s0 => beakers_named (recipe s0) /\ well_typed (recipe s0))
                (fun n f s0 H0 => H0) process_item_typed (fun _ _ H0 => H0)
                start_beaker end_beaker s (conj Hn Hw)) as H.
  destruct (run_once start_beaker end_beaker s) as [[[]|e] s']; apply H.
Qed.

Lemma edge_loop_keeps s0 a b t already l :
  hoare (fun s => (beakers_named (recipe s) /\ well_typed (recipe s)) /\ kept s0 s)
    (for_each (edge_body a b t already) l)
    (fun _ s => (beakers_named (recipe s) /\ well_typed (recipe s)) /\ kept s0 s)
    (fun _ s => (beakers_named (recipe s) /\ well_typed (recipe s)) /\ kept s0 s).
Proof.
  apply hoare_for_each. intros [id item] _. cbn [edge_body].
  destruct (mem_id id already); [apply hoare_ret; auto |].
  intros s [Hn Hk].
  pose proof (@process_item_typed a b t id item s Hn) as H1.
  pose proof (@process_item_kept World s0 a b t id item s Hk) as H2.
  destruct (process_item a b t id item s) as [[[]|e] s']; auto.
Qed.

Lemma well_typed_check r :
  forallb (fun kb => forallb (fun row => accepts r (fst kb) (snd row)) (rows_of r (fst kb)))
    (beakers r) = true ->
  well_typed r.
Proof.
  intros H k id item Hin.
  assert (Hk : exists b, In (k, b) (beakers r)).
  { unfold rows_of in Hin. destruct (Dict.get k (beakers r)) as [b|] eqn:E; [| destruct Hin].
    exists b. apply get_Some_In, E. }
  destruct Hk as [b Hb]. rewrite forallb_forall in H. apply H in Hb.
  rewrite forallb_forall in Hb. apply (Hb (id, item) Hin).
Qed.

(** [run_once] on a recipe that is a chain [a -> b -> c]. *)
Lemma run_once_chain a b c (e1 e2 : EdgeData World) s s1 s2 :
  topological_sort (graph (recipe s)) = ([a; b; c], None) ->
  out_edges (graph (recipe s)) a = [(a, b, e1)] ->
  out_edges (graph (recipe s)) b = [(b, c, e2)] ->
  out_edges (graph (recipe s)) c = [] ->
  run_edge (a, b, e1) (logged_state (run_once_log (recipe s)) s) = (Return tt, s1) ->
  graph (recipe s1) = graph (recipe s) ->
  run_edge (b, c, e2) s1 = (Return tt, s2) ->
  graph (recipe s2) = graph (recipe s) ->
  run_once None None s = (Return tt, s2).
Proof.
  intros Htopo Ha Hb Hc Hrun1 Hg1 Hrun2 Hg2.
  unfold run_once. unfold bind at 1. unfold get_recipe. unfold bind at 1.
  change (emit (Logged "run_once"
                  [("recipe", ("Recipe(" ++ recipe_name (recipe s) ++ ")")%string)]) s)
    with (Return tt, logged_state (run_once_log (recipe s)) s).
  cbn iota. rewrite Htopo. cbn [given]. unfold bind at 1.
  cbn [run_nodes negb andb given is_name]. unfold bind at 1. unfold ret at 1.
  unfold bind at 1. unfold get_recipe at 1. unfold bind at 1.
  cbn [recipe logged_state]. rewrite Ha. cbn [for_each]. unfold bind at 1.
  rewrite Hrun1. unfold ret at 1.
  unfold bind at 1. unfold ret at 1. unfold bind at 1. unfold get_recipe at 1.
  unfold bind at 1. rewrite Hg1, Hb. cbn [for_each]. unfold bind at 1.
  rewrite Hrun2. unfold ret at 1.
  unfold bind at 1. unfold ret at 1. unfold bind at 1. unfold get_recipe at 1.
  unfold bind at 1. rewrite Hg2, Hc. cbn [for_each]. reflexivity.
Qed.

(** X21: on a recipe that is a chain [a -> b -> c] where every stored
    record is one its beaker takes, and where each of the two transforms
    returns, for every record its source beaker takes, a truthy record
    that the next beaker takes, one [run_once] carries every record of [a]
    through both transforms: it returns, and after it every id of [a] is an
    id of [b] and of [c], every stored record still being one its beaker
    takes. *)
Theorem run_once_carries_records_through_a_chain (a b c : string) (e1 e2 : EdgeData World)
    (s : State World) :
  topological_sort (graph (recipe s)) = ([a; b; c], None) ->
  out_edges (graph (recipe s)) a = [(a, b, e1)] ->
  out_edges (graph (recipe s)) b = [(b, c, e2)] ->
  out_edges (graph (recipe s)) c = [] ->
  beakers_named (recipe s) -> well_typed (recipe s) ->
  is_declared (recipe s) a -> is_declared (recipe s) b -> is_declared (recipe s) c ->
  (forall item w, accepts (recipe s) a item = true -> exists x w',
     call (transform_func (transform e1)) item w = (Return x, w') /\
     truthy x = true /\ accepts (recipe s) b x = true) ->
  (forall item w, accepts (recipe s) b item = true -> exists x w',
     call (transform_func (transform e2)) item w = (Return x, w') /\
     truthy x = true /\ accepts (recipe s) c x = true) ->
  exists s2,
    run_once None None s = (Return tt, s2) /\
    well_typed (recipe s2) /\
    forall id, In id (Dict.keys (rows_of (recipe s) a)) ->
      In id (Dict.keys (rows_of (recipe s2) b)) /\
      In id (Dict.keys (rows_of (recipe s2) c)).
Proof.
  intros Htopo Ha Hb Hc Hn Hw Hda Hdb Hdc Hf1 Hf2.
  set (r := recipe s) in *.
  assert (Hbc : b <> c) by (intros E; subst c; rewrite Hb in Hc; discriminate).
  assert (Hab : a <> b).
  { intros E. subst b. rewrite Ha in Hb. inversion Hb. contradiction. }
  set (s0 := logged_state (transform_log r a b (transform e1))
               (logged_state (run_once_log r) s)).
  assert (Hinv0 : (beakers_named (recipe s0) /\ well_typed (recipe s0)) /\ kept s s0)
    by (split; [split; [exact Hn | exact Hw] | exact (kept_refl s)]).
  destruct (@edge_loop_all_stored World a b (transform e1) (already_processed_of r a b)
              (rows_of r a) Hab s0 Hn Hdb)
    as (s1 & evs1 & H1 & _ & _ & _ & Hg1 & _ & Hd1 & Hids1).
  { intros id item w Hin _. apply Hf1. apply (Hw a id item Hin). }
  pose proof (@edge_loop_keeps s a b (transform e1) (already_processed_of r a b)
                (rows_of r a) s0 Hinv0) as Hk1.
  rewrite H1 in Hk1. destruct Hk1 as [[Hn1 Hw1] Hkept1].
  assert (Hin_b : forall id, In id (Dict.keys (rows_of r a)) ->
            In id (Dict.keys (rows_of (recipe s1) b))).
  { intros id Hid. apply Hids1.
    destruct (mem_id id (already_processed_of r a b)) eqn:Em.
    - left. apply mem_id_true in Em. unfold already_processed_of in Em.
      apply filter_In in Em. destruct Em as [_ Em]. apply mem_id_true in Em.
      unfold id_set in Em. apply nodup_In in Em. exact Em.
    - right. split; [exact Hid | reflexivity]. }
  assert (Haccepts1 : forall k x, accepts (recipe s1) k x = accepts r k x)
    by (destruct Hkept1 as (_ & _ & _ & _ & _ & Hacc & _); exact Hacc).
  set (s1' := logged_state (transform_log (recipe s1) b c (transform e2)) s1).
  assert (Hinv1 : (beakers_named (recipe s1') /\ well_typed (recipe s1')) /\ kept s s1')
    by (split; [split; [exact Hn1 | exact Hw1] | exact Hkept1]).
  destruct (@edge_loop_all_stored World b c (transform e2)
              (already_processed_of (recipe s1) b c) (rows_of (recipe s1) b) Hbc s1' Hn1)
    as (s2 & evs2 & H2 & _ & _ & Hrows_b & Hg2 & _ & Hd2 & Hids2).
  { apply Hd1. exact Hdc. }
  { intros id item w Hin _.
    destruct (Hf2 item w) as (x & w' & E1 & E2 & E3).
    { rewrite <- Haccepts1. apply (Hw1 b id item Hin). }
    exists x, w'. split; [exact E1 |]. split; [exact E2 |].
    cbn [recipe s1' logged_state]. rewrite Haccepts1. exact E3. }
  pose proof (@edge_loop_keeps s b c (transform e2) (already_processed_of (recipe s1) b c)
                (rows_of (recipe s1) b) s1' Hinv1) as Hk2.
  rewrite H2 in Hk2. destruct Hk2 as [[_ Hw2] _].
  cbn [recipe s0 s1' logged_state] in *. fold r in Hg1.
  exists s2. split; [| split; [exact Hw2 |]].
  - apply run_once_chain with (a := a) (b := b) (c := c) (e1 := e1) (e2 := e2) (s1 := s1).
    + exact Htopo.
    + exact Ha.
    + exact Hb.
    + exact Hc.
    + rewrite run_edge_eq. cbn [recipe logged_state]. fold r.
      apply get_In_keys in Hda. apply get_In_keys in Hdb.
      destruct (Dict.get a (beakers r)); [| congruence].
      destruct (Dict.get b (beakers r)); [| congruence].
      exact H1.
    + exact Hg1.
    + rewrite run_edge_eq.
      pose proof Hdb as Hdb'. pose proof Hdc as Hdc'.
      apply Hd1, get_In_keys in Hdb'. apply Hd1, get_In_keys in Hdc'.
      destruct (Dict.get b (beakers (recipe s1))); [| congruence].
      destruct (Dict.get c (beakers (recipe s1))); [| congruence].
      exact H2.
    + rewrite Hg2. exact Hg1.
  - intros id Hid. pose proof (Hin_b id Hid) as Hb1. split.
    + rewrite Hrows_b. exact Hb1.
    + apply Hids2.
      destruct (mem_id id (already_processed_of (recipe s1) b c)) eqn:Em.
      * left. apply mem_id_true in Em. unfold already_processed_of in Em.
        apply filter_In in Em. destruct Em as [_ Em]. apply mem_id_true in Em.
        unfold id_set in Em. apply nodup_In in Em. exact Em.
      * right. split; [exact Hb1 | reflexivity].
Qed.

End Chain.

Import Examples.

Lemma run_once_stores_only_accepted_records_witness :
  well_typed
    (recipe (snd (run_once None None
                    (initial (edge_recipe raises_ValueError [(["ValueError"], "errors")]))))).
Proof.
  apply (@run_once_stores_only_accepted_records unit None None
           (initial (edge_recipe raises_ValueError [(["ValueError"], "errors")]))).
  - apply beakers_named_check. reflexivity.
  - apply well_typed_check. reflexivity.
Defined.

Lemma run_once_carries_records_through_a_chain_witness :
  exists s2,
    run_once None None (initial chain_recipe) = (Return tt, s2) /\
    well_typed (recipe s2) /\
    forall id, In id (Dict.keys (rows_of (recipe (initial chain_recipe)) "word")) ->
      In id (Dict.keys (rows_of (recipe s2) "capitalized")) /\
      In id (Dict.keys (rows_of (recipe s2) "shouted")).
Proof.
  eapply (@run_once_carries_records_through_a_chain unit "word" "capitalized" "shouted" _ _
            (initial chain_recipe)).
  - vm_compute. reflexivity.
  - vm_compute. reflexivity.
  - vm_compute. reflexivity.
  - vm_compute. reflexivity.
  - apply beakers_named_check. reflexivity.
  - apply well_typed_check. reflexivity.
  - vm_compute. auto.
  - vm_compute. auto.
  - vm_compute. auto.
  - intros item w H. exists item, w.
    change (conforms "Word" item = true) in H.
    change (accepts (recipe (initial chain_recipe)) "capitalized" item)
      with (conforms "Word" item).
    split; [reflexivity |]. split; [| exact H].
    destruct item; try discriminate H; reflexivity.
  - intros item w H. exists item, w.
    change (conforms "Word" item = true) in H.
    change (accepts (recipe (initial chain_recipe)) "shouted" item)
      with (conforms "Word" item).
    split; [reflexivity |]. split; [| exact H].
    destruct item; try discriminate H; reflexivity.
Defined.

End ChainFacts.

(** ** Graphs with a cycle *)

Module CyclicFacts.
Import Beakers GraphDefs CycleDefs RankDefs OrderDefs PartialRunDefs.
Import DictFacts ListFacts DeclFacts GraphFacts CycleFacts RankFacts PartialRunFacts.

Section Cyclic.
Variable World : Type.
Implicit Types (g : DiGraph World) (s : State World).

Lemma index_in_head x l1 l2 : ~ In x l1 -> index_in x (l1 ++ x :: l2) = List.length l1.
Proof.
  induction l1 as [|y l1 IH]; simpl; intros Hn.
  - destruct (string_dec x x); congruence.
  - destruct (string_dec x y) as [->|_]; [exfalso; apply Hn; left; reflexivity |].
    f_equal. apply IH. tauto.
Qed.

Lemma index_in_lt x l1 l2 : In x l1 -> index_in x (l1 ++ l2) < List.length l1.
Proof.
  induction l1 as [|y l1 IH]; simpl; intros Hin; [destruct Hin |].
  destruct (string_dec x y); [lia |].
  destruct Hin as [->|Hin]; [congruence |]. specialize (IH Hin). lia.
Qed.

(** An order of all the nodes in which every node comes after its
    predecessors numbers the nodes by levels. *)
Lemma order_levelled g l :
  NoDup l -> topo_ordered g l ->
  (forall u v, In (u, v) (edges g) -> In v l) ->
  levelled g.
Proof.
  intros Hnd Htopo Hall. exists (fun v => index_in v l). intros u v Huv.
  destruct (in_split _ _ (Hall u v Huv)) as (l1 & l2 & E).
  pose proof (Htopo l1 v l2 E u Huv) as Hu.
  assert (Hv : ~ In v l1).
  { rewrite E in Hnd. apply NoDup_remove_2 in Hnd. intros H. apply Hnd.
    apply in_app_iff. left. exact H. }
  rewrite E, (@index_in_head v l1 l2 Hv). apply index_in_lt, Hu.
Qed.

Lemma loop_error_message fuel g : forall m zero msg,
  snd (topological_generations_loop fuel g m zero) = Some (NetworkXUnfeasible msg) ->
  msg = "Graph contains a cycle or graph changed during iteration".
Proof.
  induction fuel as [|fuel IH]; intros m zero msg.
  - destruct zero as [|x zero]; destruct m as [|p m]; simpl; intros H;
      inversion H; reflexivity.
  - destruct zero as [|x zero].
    + destruct m as [|p m]; simpl; intros H; inversion H; reflexivity.
    + cbn [topological_generations_loop].
      destruct (visit_generation g (x :: zero) m []) as [[m1 z1]|e] eqn:Ev.
      * specialize (IH m1 z1 msg).
        destruct (topological_generations_loop fuel g m1 z1) as [gens err].
        exact IH.
      * simpl. intros H. inversion H; subst e. exfalso.
        clear - Ev. revert Ev. generalize (@nil string). generalize m.
        generalize (x :: zero). intros gen.
        induction gen as [|y gen IHg]; intros m0 z0; cbn [visit_generation]; [discriminate |].
        destruct (Dict.mem y (_node g)); [| discriminate].
        destruct (visit_children (successors g y) m0 z0) as [[m2 z2]|e'] eqn:Ec.
        -- apply IHg.
        -- intros H. inversion H; subst e'. clear - Ec. revert Ec.
           generalize z0. generalize m0.
           induction (successors g y) as [|c cs IHc]; intros m3 z3; cbn [visit_children];
             [discriminate |].
           destruct (Dict.get c m3); [| discriminate].
           destruct (_ - 1 =? 0)%nat; apply IHc.
Qed.

(** The topological sort of a graph with a cycle ends with the exception
    of networkx for cycles. *)
Lemma cyclic_sort_raises g v :
  wf_graph g -> path g v v ->
  snd (topological_sort g)
  = Some (NetworkXUnfeasible "Graph contains a cycle or graph changed during iteration").
Proof.
  intros Hwf Hpath.
  destruct (topological_sort_spec Hwf) as (Hnd & Hincl & Htopo & Hcomplete & _).
  destruct (snd (topological_sort g)) as [e|] eqn:Eerr.
  - assert (Hkind : exists msg, e = NetworkXUnfeasible msg).
    { revert Eerr. unfold topological_sort, topological_generations.
      destruct (@kahn_loop_spec World g Hwf (S (List.length (nodes g))) [] _ _
                  (kahn_inv_initial Hwf)) as (m' & _ & Herr).
      { right. unfold initial_indegree_map.
        pose proof (filter_length_le (fun p : string * nat => (0 <? snd p)%nat)
                      (map (fun v => (v, in_degree g v)) (nodes g))) as Hle.
        rewrite length_map in Hle. lia. }
      destruct (topological_generations_loop _ g _ _) as [gens err]. cbn [fst snd] in *.
      intros ->. destruct Herr as [[H _]|[[msg H] _]]; [discriminate |].
      exists msg. congruence. }
    destruct Hkind as [msg ->]. f_equal. f_equal.
    revert Eerr. unfold topological_sort, topological_generations.
    pose proof (@loop_error_message (S (List.length (nodes g))) g
                  (initial_indegree_map g) (initial_zero_indegree g) msg) as Hmsg.
    destruct (topological_generations_loop _ g _ _) as [gens err]. cbn [snd] in *.
    exact Hmsg.
  - exfalso. apply (@levelled_acyclic World g) with (v := v); [| exact Hpath].
    apply order_levelled with (l := fst (topological_sort g)); auto.
    intros u w Huw. apply Hcomplete; [reflexivity |].
    destruct Hwf as (_ & _ & Hends). apply (Hends u w Huw).
Qed.

Lemma run_nodes_no_break st en order : forall started s b,
  given en = false ->
  fst (run_nodes st en order started s) = Return b -> b = false.
Proof.
  induction order as [|node order IH]; intros started s b Hg; cbn [run_nodes].
  - intros H. inversion H. reflexivity.
  - rewrite Hg. cbn [andb].
    destruct (negb started && negb (is_name node st))%bool.
    + unfold bind at 1. unfold emit at 1. apply IH, Hg.
    + unfold bind at 1.
      destruct ((if started then ret tt else emit _) s) as [[[]|e0] s1]; [| discriminate].
      unfold bind at 1. unfold get_recipe. unfold bind at 1.
      destruct (for_each _ _ s1) as [[[]|e1] s2]; [| discriminate].
      apply IH, Hg.
Qed.

(** X5: On a graph with a cycle a run with no [end_beaker] never ends
    normally: it raises, at the latest when the topological sort does. *)
Theorem run_once_raises_on_a_cycle (start_beaker : option string) (v : string)
    (s : State World) :
  wf_graph (graph (recipe s)) ->
  path (graph (recipe s)) v v ->
  exists e, fst (run_once start_beaker None s) = Raise e.
Proof.
  intros Hwf Hpath. pose proof (cyclic_sort_raises Hwf Hpath) as Herr.
  unfold run_once. unfold bind at 1. unfold get_recipe. unfold bind at 1.
  unfold emit at 1.
  destruct (topological_sort (graph (recipe s))) as [order err]. cbn [snd] in Herr.
  subst err. unfold bind.
  match goal with |- context [run_nodes ?a ?b ?c ?d ?s1] =>
    pose proof (@run_nodes_no_break a b c d s1) as Hb;
    destruct (run_nodes a b c d s1) as [[broke|e] s2] end.
  - rewrite (Hb broke eq_refl eq_refl). eexists. reflexivity.
  - exists e. reflexivity.
Qed.

(** X6: On a graph with a cycle whose nodes are declared beakers,
    [graph_data] raises the exception of networkx for cycles. *)
Theorem graph_data_raises_on_a_cycle (v : string) (s : State World) :
  wf_graph (graph (recipe s)) ->
  path (graph (recipe s)) v v ->
  all_declared s ->
  fst (graph_data s)
  = Raise (NetworkXUnfeasible "Graph contains a cycle or graph changed during iteration").
Proof.
  intros Hwf Hpath Hdecl. pose proof (cyclic_sort_raises Hwf Hpath) as Herr.
  destruct (topological_sort_spec Hwf) as (Hnd & Hincl & Htopo & _ & _).
  unfold graph_data, bind, get_recipe.
  destruct (topological_sort (graph (recipe s))) as [order err]. cbn [fst snd] in *.
  subst err.
  destruct (@graph_data_loop_spec World (graph (recipe s)) (beakers (recipe s)) order
              Hnd Htopo) with (rest := order) (done := @nil string)
              (nd := @nil (string * NodeData World)) (s := s)
    as (nd' & s' & Hrun & _); auto.
  { intros n Hn. apply Hdecl, Hincl, Hn. }
  { split; [reflexivity | intros n []]. }
  rewrite Hrun. reflexivity.
Qed.

End Cyclic.

Import Examples.

Lemma cyclic_recipe_wf : wf_graph (graph cyclic_recipe).
Proof. repeat (apply wf_add_transform || apply wf_add_beaker). apply wf_empty. Qed.

Lemma cyclic_recipe_path : path (graph cyclic_recipe) "a" "a".
Proof.
  apply path_step with (v := "b"); [| apply path_edge]; vm_compute; auto.
Qed.

Lemma run_once_raises_on_a_cycle_witness :
  exists e, fst (run_once None None (initial cyclic_recipe)) = Raise e.
Proof.
  apply (@run_once_raises_on_a_cycle unit None "a" (initial cyclic_recipe)).
  - exact cyclic_recipe_wf.
  - exact cyclic_recipe_path.
Defined.

Lemma graph_data_raises_on_a_cycle_witness :
  fst (graph_data (initial cyclic_recipe))
  = Raise (NetworkXUnfeasible "Graph contains a cycle or graph changed during iteration").
Proof.
  apply (@graph_data_raises_on_a_cycle unit "a" (initial cyclic_recipe)).
  - exact cyclic_recipe_wf.
  - exact cyclic_recipe_path.
  - apply all_declared_check. vm_compute. reflexivity.
Defined.

End CyclicFacts.

(** ** [graph_data]: what the descriptors say, and what the call changes *)

Module DescribeFacts.
Import Beakers GraphDefs CycleDefs SortDefs RankDefs DescribeDefs.
Import DictFacts ListFacts DeclFacts GraphFacts CycleFacts SortFacts RankFacts.

Section Updates.
Context {K V : Type} `{EqDec K}.
Implicit Types (d : Dict.t K V).

Lemma set_present_map k (v' : V) d :
  NoDup (Dict.keys d) -> In k (Dict.keys d) ->
  Dict.set k v' d = map (fun e => if eq_dec (fst e) k then (k, v') else e) d.
Proof.
  unfold Dict.keys. induction d as [|[k0 v0] d IH]; simpl; intros Hnd Hin; [destruct Hin |].
  inversion Hnd as [|? ? Hnin Hnd']; subst.
  destruct (eq_dec k k0) as [->|Hne].
  - destruct (eq_dec k0 k0); [| congruence]. f_equal.
    rewrite <- (map_id d) at 1. apply map_ext_in. intros [k1 v1] H1. simpl.
    destruct (eq_dec k1 k0) as [->|]; [| reflexivity].
    exfalso. apply Hnin. apply in_map_iff. exists (k0, v1). auto.
  - destruct (eq_dec k0 k); [congruence |]. f_equal.
    apply IH; [exact Hnd' |]. destruct Hin; [congruence | assumption].
Qed.

Lemma entries_same_key (e e' : K * V) d :
  NoDup (Dict.keys d) -> In e d -> In e' d -> fst e = fst e' -> e = e'.
Proof.
  intros Hnd He He' Hk. destruct e as [k v], e' as [k' v']. simpl in Hk. subst k'.
  pose proof (In_get _ _ _ Hnd He) as H1. pose proof (In_get _ _ _ Hnd He') as H2.
  congruence.
Qed.

End Updates.

Section Describe.
Variable World : Type.
Implicit Types (g : DiGraph World) (s : State World) (r : Recipe World).
Implicit Types (nd : Dict.t string (NodeData World)).
Implicit Types (adj es : list (string * string * EdgeData World)).

Lemma collect_out_edges_fold es : forall g (d : NodeData World),
  collect_out_edges es g d =
    (with_adj (fold_left (fun a e => Dict.set (fst e) (annotated e) a) es (_adj g)) g,
     {| nd_name := nd_name d; nd_temp := nd_temp d; nd_len := nd_len d;
        nd_edges := nd_edges d ++ map annotated es; nd_rank := nd_rank d |}).
Proof.
  induction es as [|[[u v] data] es IH]; intros g d; cbn [collect_out_edges fold_left map].
  - rewrite app_nil_r. destruct g, d; reflexivity.
  - rewrite IH. unfold with_adj, with_edge. cbn. rewrite <- app_assoc. reflexivity.
Qed.

Lemma fold_set_annotated es : forall adj,
  NoDup (Dict.keys adj) -> NoDup (Dict.keys es) -> incl es adj ->
  fold_left (fun a e => Dict.set (fst e) (annotated e) a) es adj
  = map (fun e => if in_dec eq_dec (fst e) (Dict.keys es) then (fst e, annotated e) else e) adj.
Proof.
  induction es as [|e0 es IH]; intros adj Hnd Hes Hincl; cbn [fold_left].
  - rewrite <- (map_id adj) at 1. apply map_ext. intros e. reflexivity.
  - assert (Hin0 : In e0 adj) by (apply Hincl; left; reflexivity).
    rewrite (@set_present_map _ _ _ (fst e0) (annotated e0) adj Hnd)
      by (unfold Dict.keys; apply in_map, Hin0).
    unfold Dict.keys in Hes. cbn [map] in Hes.
    inversion Hes as [|? ? Hnin Hes']; subst.
    rewrite IH.
    + rewrite map_map. apply map_ext_in. intros e He.
      destruct (eq_dec (fst e) (fst e0)) as [Ek|Ek].
      * assert (e = e0) by (apply (@entries_same_key _ _ _ e e0 adj Hnd He Hin0 Ek)). subst e0.
        cbn [fst].
        destruct (in_dec eq_dec (fst e) (Dict.keys es)) as [Hi|_]; [contradiction |].
        destruct (in_dec eq_dec (fst e) (Dict.keys (e :: es))) as [_|Hn]; [reflexivity |].
        exfalso. apply Hn. left. reflexivity.
      * destruct (in_dec eq_dec (fst e) (Dict.keys es)) as [Hi|Hi];
          destruct (in_dec eq_dec (fst e) (Dict.keys (e0 :: es))) as [Hj|Hj];
          try reflexivity.
        -- exfalso. apply Hj. right. exact Hi.
        -- exfalso. destruct Hj as [Hj|Hj]; [congruence | contradiction].
    + unfold Dict.keys. rewrite map_map.
      replace (map (fun x => fst (if eq_dec (fst x) (fst e0) then (fst e0, annotated e0) else x)) adj)
        with (map fst adj); [exact Hnd |].
      apply map_ext. intros e. destruct (eq_dec (fst e) (fst e0)) as [->|]; reflexivity.
    + exact Hes'.
    + intros e He. apply in_map_iff. exists e. split.
      * destruct (eq_dec (fst e) (fst e0)) as [Ek|]; [| reflexivity].
        exfalso. apply Hnin. rewrite <- Ek. apply in_map, He.
      * apply Hincl. right. exact He.
Qed.

Lemma keys_out_edges g node e :
  In e (_adj g) ->
  (In (fst e) (Dict.keys (out_edges g node)) <-> fst (fst e) = node).
Proof.
  intros He. unfold out_edges, Dict.keys. rewrite in_map_iff. split.
  - intros (e' & Ek & He'). apply filter_In in He'. destruct He' as [_ Hf].
    destruct (string_dec (fst (fst e')) node); [congruence | discriminate].
  - intros Hn. exists e. split; [reflexivity |]. apply filter_In. split; [exact He |].
    destruct (string_dec (fst (fst e)) node); [reflexivity | contradiction].
Qed.

Lemma collect_out_edges_exact g node (d : NodeData World) :
  NoDup (edges g) ->
  collect_out_edges (out_edges g node) g d =
    (with_adj (map (fun e => if string_dec (fst (fst e)) node
                             then (fst e, annotated e) else e) (_adj g)) g,
     {| nd_name := nd_name d; nd_temp := nd_temp d; nd_len := nd_len d;
        nd_edges := nd_edges d ++ map annotated (out_edges g node);
        nd_rank := nd_rank d |}).
Proof.
  intros Hnd. rewrite collect_out_edges_fold. f_equal. f_equal.
  rewrite fold_set_annotated.
  - apply map_ext_in. intros e He.
    pose proof (@keys_out_edges g node e He) as Hk.
    destruct (in_dec eq_dec (fst e) (Dict.keys (out_edges g node))) as [Hi|Hi];
      destruct (string_dec (fst (fst e)) node) as [Hn|Hn]; try reflexivity.
    + exfalso. apply Hn, Hk, Hi.
    + exfalso. apply Hi, Hk, Hn.
  - exact Hnd.
  - unfold out_edges, Dict.keys. apply NoDup_map_filter. exact Hnd.
  - unfold out_edges. intros e He. apply filter_In in He. apply He.
Qed.

Lemma keys_annotate_from visited adj : Dict.keys (annotate_from visited adj) = Dict.keys adj.
Proof.
  unfold annotate_from, Dict.keys. rewrite map_map. apply map_ext. intros e.
  destruct (in_dec string_dec (fst (fst e)) visited); reflexivity.
Qed.

Lemma annotate_from_nil adj : annotate_from [] adj = adj.
Proof.
  unfold annotate_from. rewrite <- (map_id adj) at 2. apply map_ext. intros e. reflexivity.
Qed.

Lemma annotate_from_snoc visited node adj :
  ~ In node visited ->
  map (fun e => if string_dec (fst (fst e)) node then (fst e, annotated e) else e)
      (annotate_from visited adj)
  = annotate_from (visited ++ [node]) adj.
Proof.
  intros Hn. unfold annotate_from. rewrite map_map. apply map_ext. intros e.
  destruct (in_dec string_dec (fst (fst e)) visited) as [Hi|Hi];
    destruct (in_dec string_dec (fst (fst e)) (visited ++ [node])) as [Hj|Hj]; cbn [fst].
  - destruct (string_dec (fst (fst e)) node) as [E|E]; [| reflexivity].
    exfalso. apply Hn. rewrite <- E. exact Hi.
  - exfalso. apply Hj, in_app_iff. left. exact Hi.
  - destruct (string_dec (fst (fst e)) node) as [E|E]; [reflexivity |].
    exfalso. apply in_app_iff in Hj. destruct Hj as [Hj|[Hj|[]]]; [contradiction | congruence].
  - destruct (string_dec (fst (fst e)) node) as [E|E]; [| reflexivity].
    exfalso. apply Hj, in_app_iff. right. left. symmetry. exact E.
Qed.

Lemma annotate_from_all visited adj :
  (forall e, In e adj -> In (fst (fst e)) visited) ->
  annotate_from visited adj = annotate_all adj.
Proof.
  intros Hall. unfold annotate_from, annotate_all. apply map_ext_in. intros e He.
  destruct (in_dec string_dec (fst (fst e)) visited) as [_|Hn]; [reflexivity |].
  exfalso. apply Hn, Hall, He.
Qed.

Lemma out_edges_annotate_from visited g n :
  map annotated (out_edges (with_adj (annotate_from visited (_adj g)) g) n)
  = map annotated (out_edges g n).
Proof.
  unfold out_edges, with_adj, annotate_from. cbn [_adj].
  induction (_adj g) as [|e adj IH]; [reflexivity |].
  cbn [map filter].
  assert (Hfst : fst (fst (if in_dec string_dec (fst (fst e)) visited
                           then (fst e, annotated e) else e)) = fst (fst e))
    by (destruct (in_dec string_dec (fst (fst e)) visited); reflexivity).
  rewrite Hfst.
  destruct (string_dec (fst (fst e)) n); [| exact IH].
  cbn [map]. rewrite IH. f_equal.
  destruct (in_dec string_dec (fst (fst e)) visited); reflexivity.
Qed.

(** What a successful visit of one node gives. *)
Lemma graph_data_node_result nd node s nd1 s1 beaker :
  NoDup (edges (graph (recipe s))) ->
  Dict.get node (beakers (recipe s)) = Some beaker ->
  graph_data_node nd node s = (Return nd1, s1) ->
  exists k,
    nd1 = Dict.set node
            {| nd_name := node; nd_temp := is_TempBeaker beaker;
               nd_len := List.length (rows_of (recipe s) node);
               nd_edges := map annotated (out_edges (graph (recipe s)) node);
               nd_rank := Some k |} nd /\
    s1 = with_recipe
           (with_graph
              (with_adj (map (fun e => if string_dec (fst (fst e)) node
                                       then (fst e, annotated e) else e)
                           (_adj (graph (recipe s)))) (graph (recipe s)))
              (recipe s)) s.
Proof.
  intros Hnd Hb.
  unfold graph_data_node, bind, lookup_beaker, Beaker_len, get_recipe, put_recipe, ret.
  rewrite Hb. cbn [recipe].
  destruct (max_in_rank _ _ 0) as [k|e]; [| intros H; discriminate].
  rewrite collect_out_edges_exact by exact Hnd.
  cbn [with_rank nd_name nd_temp nd_len nd_edges nd_rank app].
  rewrite set_set. intros H. inversion H; subst. exists (k + 1). split; reflexivity.
Qed.

Lemma graph_data_loop_exact r0 order :
  wf_graph (graph r0) ->
  NoDup order ->
  topo_ordered (graph r0) order ->
  (forall n, In n order -> is_declared r0 n) ->
  forall rest done nd s,
  order = done ++ rest ->
  ranked (graph r0) nd done ->
  (forall n d, Dict.get n nd = Some d -> describes r0 n d) ->
  recipe s = with_graph (with_adj (annotate_from done (_adj (graph r0))) (graph r0)) r0 ->
  exists nd',
    graph_data_loop rest nd s
    = (Return nd',
       with_recipe
         (with_graph (with_adj (annotate_from order (_adj (graph r0))) (graph r0)) r0) s) /\
    ranked (graph r0) nd' order /\
    (forall n d, Dict.get n nd' = Some d -> describes r0 n d).
Proof.
  intros Hwf Hnd Htopo Hdecl.
  induction rest as [|x rest IH]; intros done nd s Horder Hranked Hdesc Hs.
  - exists nd. rewrite app_nil_r in Horder. subst done.
    cbn [graph_data_loop]. unfold ret. rewrite <- Hs.
    split; [destruct s; reflexivity | auto].
  - cbn [graph_data_loop]. unfold bind.
    assert (Hx : ~ In x done).
    { rewrite Horder in Hnd. apply NoDup_remove_2 in Hnd. intros H. apply Hnd.
      apply in_app_iff. left. exact H. }
    assert (Hpx : forall u, In (u, x) (edges (graph r0)) -> In u done)
      by (intros u Hu; apply (Htopo done x rest Horder u Hu)).
    assert (Hclosed : forall n u, In n done -> In (u, n) (edges (graph r0)) -> In u done).
    { intros n u Hn Hu. apply in_split in Hn. destruct Hn as (l1 & l2 & E).
      rewrite E. apply in_app_iff. left.
      apply (Htopo l1 n (l2 ++ x :: rest)); [| exact Hu].
      rewrite Horder, E, <- app_assoc. reflexivity. }
    assert (Hedges : edges (graph (recipe s)) = edges (graph r0)).
    { rewrite Hs. unfold edges. cbn [graph with_graph with_adj _adj].
      apply keys_annotate_from. }
    assert (Hdx : is_declared (recipe s) x).
    { rewrite Hs. unfold is_declared. cbn [beakers with_graph]. apply Hdecl.
      rewrite Horder. apply in_app_iff. right. left. reflexivity. }
    destruct (@graph_data_node_spec World (graph r0) nd x s Hedges Hdx)
      as (d' & s1 & Hrun & Hname & Hrank & _ & _).
    { intros u Hu. pose proof (Hpx u Hu) as Hud. split; [intros E; subst; contradiction |].
      destruct Hranked as [_ Hall]. destruct (Hall u Hud) as (d & Hget & _ & Hrk & _).
      exists d, (rank_in nd u). auto. }
    pose proof Hdx as Hget. apply get_In_keys in Hget.
    destruct (Dict.get x (beakers (recipe s))) as [beaker|] eqn:Eb; [| congruence].
    assert (Hnde : NoDup (edges (graph (recipe s)))) by (rewrite Hedges; apply Hwf).
    destruct (@graph_data_node_result nd x s (Dict.set x d' nd) s1 beaker Hnde Eb Hrun)
      as (k & Hnd1 & Hs1).
    assert (Hd' : d' = {| nd_name := x; nd_temp := is_TempBeaker beaker;
                          nd_len := List.length (rows_of (recipe s) x);
                          nd_edges := map annotated (out_edges (graph (recipe s)) x);
                          nd_rank := Some k |}).
    { assert (E : Dict.get x (Dict.set x d' nd) = Dict.get x (Dict.set x d' nd)) by reflexivity.
      rewrite Hnd1 in E at 2. rewrite !get_set_same in E. congruence. }
    rewrite Hrun.
    destruct (IH (done ++ [x]) (Dict.set x d' nd) s1) as (nd' & Hloop & Hr' & Hdesc').
    + rewrite <- app_assoc. exact Horder.
    + apply ranked_snoc; auto.
    + intros n d. destruct (string_dec n x) as [->|Hne].
      * rewrite get_set_same. intros E. inversion E; subst d. clear E.
        rewrite Hd'. rewrite Hs in Eb. cbn [beakers with_graph] in Eb.
        split; [reflexivity |]. split; [exists beaker; auto |].
        split.
        -- cbn [nd_len]. rewrite Hs. reflexivity.
        -- cbn [nd_edges]. rewrite Hs. cbn [graph with_graph].
           apply out_edges_annotate_from.
      * rewrite get_set_other by exact Hne. apply Hdesc.
    + rewrite Hs1, Hs. cbn [recipe with_recipe with_graph graph with_adj _adj _node].
      rewrite annotate_from_snoc by exact Hx. reflexivity.
    + exists nd'. split; [| auto]. rewrite Hloop. rewrite Hs1. reflexivity.
Qed.

Lemma graph_data_exact s :
  wf_graph (graph (recipe s)) -> levelled (graph (recipe s)) -> all_declared s ->
  exists descs rk,
    graph_data s
    = (Return descs,
       with_recipe
         (with_graph (with_adj (annotate_all (_adj (graph (recipe s)))) (graph (recipe s)))
            (recipe s)) s) /\
    Permutation (map (@nd_name World) descs) (nodes (graph (recipe s))) /\
    (forall d, In d descs -> nd_rank d = Some (rk (nd_name d))) /\
    rank_rule (graph (recipe s)) rk /\
    StronglySorted key_before (map (@key_of World) descs) /\
    (forall d, In d descs -> describes (recipe s) (nd_name d) d).
Proof.
  intros Hwf Hac Hdecl.
  destruct (topological_sort_spec Hwf) as (Hnd & Hincl & Htopo & Hcomplete & Hnone).
  specialize (Hnone Hac).
  unfold graph_data, bind, get_recipe.
  destruct (topological_sort (graph (recipe s))) as [order err] eqn:Ets.
  cbn [fst snd] in *. subst err. specialize (Hcomplete eq_refl).
  assert (Hdo : forall n, In n order -> is_declared (recipe s) n)
    by (intros n Hn; apply Hdecl, Hincl, Hn).
  assert (Hr0 : ranked (graph (recipe s)) (@nil (string * NodeData World)) [])
    by (split; [reflexivity | intros n []]).
  assert (Hd0 : forall n d, Dict.get n (@nil (string * NodeData World)) = Some d ->
                  describes (recipe s) n d) by (intros n d H; discriminate).
  assert (Hs0 : recipe s = with_graph
                  (with_adj (annotate_from [] (_adj (graph (recipe s)))) (graph (recipe s)))
                  (recipe s)).
  { rewrite annotate_from_nil. destruct (recipe s) as [nm g b sd dbs]. destruct g.
    reflexivity. }
  destruct (@graph_data_loop_exact (recipe s) order Hwf Hnd Htopo Hdo order [] [] s
              eq_refl Hr0 Hd0 Hs0) as (nd' & Hrun & [Hkeys Hall] & Hdesc).
  rewrite Hrun.
  rewrite annotate_from_all.
  2:{ intros e He. apply Hcomplete. destruct Hwf as (_ & _ & Hends).
      destruct e as [[u v] data]. apply (Hends u v).
      unfold edges, Dict.keys. apply in_map_iff. exists (u, v, data). auto. }
  assert (Hkd : NoDup (Dict.keys nd')) by (rewrite Hkeys; exact Hnd).
  assert (Hentry : forall d, In d (Dict.values nd') ->
            exists k, Dict.get k nd' = Some d /\ In k order).
  { intros d Hd. unfold Dict.values in Hd. apply in_map_iff in Hd.
    destruct Hd as ([k d0] & E & Hin). simpl in E. subst d0. exists k.
    split; [apply (In_get _ _ _ Hkd Hin) |].
    rewrite <- Hkeys. unfold Dict.keys. apply in_map_iff. exists (k, d). auto. }
  assert (Hval : forall d, In d (Dict.values nd') ->
            nd_rank d = Some (rank_in nd' (nd_name d)) /\ describes (recipe s) (nd_name d) d).
  { intros d Hd. destruct (Hentry d Hd) as (k & Hget & Hk).
    destruct (Hall k Hk) as (d1 & Hget1 & Hname & Hrank & _).
    rewrite Hget in Hget1. inversion Hget1; subst d1.
    rewrite Hname. split; [exact Hrank | apply Hdesc, Hget]. }
  assert (Hnames : map (@nd_name World) (Dict.values nd') = order).
  { rewrite <- Hkeys. apply values_names; [exact Hkd |].
    intros n Hn. rewrite Hkeys in Hn. destruct (Hall n Hn) as (d & Hget & Hname & _).
    exists d. auto. }
  unfold sorted. rewrite decorate_ranked
    by (intros d Hd; rewrite (proj1 (Hval d Hd)); discriminate).
  set (dec := map (fun d => (key_of d, d)) (Dict.values nd')).
  assert (Hsnd : map snd dec = Dict.values nd').
  { unfold dec. rewrite map_map. simpl. apply map_id. }
  assert (Hperm : Permutation (map snd (sort_by_key dec)) (Dict.values nd')).
  { rewrite <- Hsnd. apply Permutation_map, sort_by_key_perm. }
  exists (map snd (sort_by_key dec)), (rank_in nd').
  split; [reflexivity |]. split; [| split; [| split; [| split]]].
  - eapply Permutation_trans; [apply Permutation_map, Hperm |].
    rewrite Hnames. apply order_permutation; auto. apply Hwf.
  - intros d Hd. apply Hval. eapply Permutation_in; [exact Hperm | exact Hd].
  - intros n Hn. destruct (Hall n (Hcomplete n Hn)) as (d & _ & _ & _ & Hrec). exact Hrec.
  - assert (Hfst : map key_of (map snd (sort_by_key dec)) = map fst (sort_by_key dec)).
    { rewrite map_map. apply map_ext_in. intros p Hp.
      apply (Permutation_in _ (sort_by_key_perm dec)) in Hp.
      unfold dec in Hp. apply in_map_iff in Hp. destruct Hp as (d & <- & _). reflexivity. }
    rewrite Hfst. apply sort_by_key_increasing.
    apply (NoDup_map_inv snd).
    unfold dec. rewrite !map_map. simpl.
    change (NoDup (map (@nd_name World) (Dict.values nd'))).
    rewrite Hnames. exact Hnd.
  - intros d Hd. apply Hval. eapply Permutation_in; [exact Hperm | exact Hd].
Qed.

Lemma annotate_all_twice adj : annotate_all (annotate_all adj) = annotate_all adj.
Proof. unfold annotate_all. rewrite map_map. apply map_ext. intros e. reflexivity. Qed.

Lemma keys_annotate_all adj : Dict.keys (annotate_all adj) = Dict.keys adj.
Proof. unfold annotate_all, Dict.keys. rewrite map_map. reflexivity. Qed.

Lemma out_edges_annotate_all g n :
  map annotated (out_edges (with_adj (annotate_all (_adj g)) g) n)
  = map annotated (out_edges g n).
Proof.
  unfold out_edges, with_adj, annotate_all. cbn [_adj].
  induction (_adj g) as [|e adj IH]; [reflexivity |].
  cbn [map filter fst].
  destruct (string_dec (fst (fst e)) n); [| exact IH].
  cbn [map]. rewrite IH. reflexivity.
Qed.

Lemma described_unique r (l1 : list (NodeData World)) : forall l2,
  map (@key_of World) l1 = map (@key_of World) l2 ->
  (forall d, In d l1 -> describes r (nd_name d) d /\ nd_rank d <> None) ->
  (forall d, In d l2 -> describes r (nd_name d) d /\ nd_rank d <> None) ->
  l1 = l2.
Proof.
  induction l1 as [|d1 l1 IH]; intros [|d2 l2] Hk H1 H2; try discriminate; [reflexivity |].
  cbn [map] in Hk. inversion Hk as [[Hr Hn Hrest]].
  f_equal.
  - destruct (H1 d1 (or_introl eq_refl)) as ((_ & (b1 & Hb1 & Ht1) & Hl1 & He1) & Hk1).
    destruct (H2 d2 (or_introl eq_refl)) as ((_ & (b2 & Hb2 & Ht2) & Hl2 & He2) & Hk2).
    rewrite Hn in Hb1, Hl1, He1. rewrite Hb2 in Hb1. inversion Hb1; subst b1.
    destruct d1 as [n1 t1 len1 e1 [k1|]], d2 as [n2 t2 len2 e2 [k2|]];
      cbn in *; try congruence.
  - apply IH; [exact Hrest | |]; intros d Hd; [apply H1 | apply H2]; right; exact Hd.
Qed.

(** X7: For a recipe whose graph has no cycle and whose nodes are declared
    beakers, every descriptor that [graph_data] returns gives, for the node
    it names, whether the beaker is temporary, the number of its records,
    and its outgoing edges in order, each with its transform and its
    destination; and the call changes nothing in the recipe but the edge
    dictionaries of the graph, each of which gets its [to_beaker] key. *)
Theorem graph_data_describes_the_recipe (s : State World) :
  wf_graph (graph (recipe s)) -> acyclic (graph (recipe s)) -> all_declared s ->
  exists descs,
    graph_data s
    = (Return descs,
       with_recipe
         (with_graph (with_adj (annotate_all (_adj (graph (recipe s)))) (graph (recipe s)))
            (recipe s)) s) /\
    forall d, In d descs -> describes (recipe s) (nd_name d) d.
Proof.
  intros Hwf Hcyc Hdecl.
  destruct (graph_data_exact Hwf (acyclic_levelled Hwf Hcyc) Hdecl)
    as (descs & rk & Hrun & _ & _ & _ & _ & Hdesc).
  exists descs. split; [exact Hrun | exact Hdesc].
Qed.

(** X8: A second call of [graph_data] returns the same descriptors as the
    first and changes nothing. *)
Theorem graph_data_is_repeatable (s : State World) :
  wf_graph (graph (recipe s)) -> acyclic (graph (recipe s)) -> all_declared s ->
  exists descs s',
    graph_data s = (Return descs, s') /\ graph_data s' = (Return descs, s').
Proof.
  intros Hwf Hcyc Hdecl. pose proof (acyclic_levelled Hwf Hcyc) as Hlev.
  destruct (graph_data_exact Hwf Hlev Hdecl)
    as (descs & rk & Hrun & Hp & Hr & Hrule & Hsorted & Hdesc).
  set (g := graph (recipe s)) in *.
  set (g' := with_adj (annotate_all (_adj g)) g) in *.
  set (s' := with_recipe (with_graph g' (recipe s)) s) in *.
  assert (Hnodes : nodes g' = nodes g) by reflexivity.
  assert (Hedges : edges g' = edges g) by (unfold edges, g'; apply keys_annotate_all).
  assert (Hwf' : wf_graph (graph (recipe s'))).
  { unfold s'. cbn [recipe with_recipe graph with_graph]. unfold wf_graph.
    rewrite Hnodes, Hedges. exact Hwf. }
  assert (Hlev' : levelled (graph (recipe s'))).
  { unfold s'. cbn [recipe with_recipe graph with_graph].
    destruct Hlev as [level Hl]. exists level. rewrite Hedges. exact Hl. }
  assert (Hdecl' : all_declared s') by exact Hdecl.
  destruct (graph_data_exact Hwf' Hlev' Hdecl')
    as (descs2 & rk2 & Hrun2 & Hp2 & Hr2 & Hrule2 & Hsorted2 & Hdesc2).
  exists descs, s'. split; [exact Hrun |].
  assert (Hstate : with_recipe
            (with_graph (with_adj (annotate_all (_adj (graph (recipe s')))) (graph (recipe s')))
               (recipe s')) s' = s').
  { unfold s', g'. cbn [recipe with_recipe graph with_graph with_adj _adj _node].
    rewrite annotate_all_twice. reflexivity. }
  rewrite Hstate in Hrun2. rewrite Hrun2. f_equal. f_equal.
  assert (Hsame : same_graph g (graph (recipe s'))).
  { unfold s'. cbn [recipe with_recipe graph with_graph]. split.
    - intros n. rewrite Hnodes. reflexivity.
    - intros e. rewrite Hedges. reflexivity. }
  pose proof (@keys_determined World g (graph (recipe s')) rk rk2 descs descs2
                Hwf Hlev Hsame Hp Hp2 Hr Hr2 Hrule Hrule2 Hsorted Hsorted2) as Hkeys.
  apply (@described_unique (recipe s)).
  - exact Hkeys.
  - intros d Hd. destruct (Hdesc2 d Hd) as (H1 & H2 & H3 & H4).
    split; [| rewrite (Hr2 d Hd); discriminate].
    split; [exact H1 |]. split; [exact H2 |]. split; [exact H3 |].
    rewrite H4. unfold s'. cbn [recipe with_recipe graph with_graph].
    apply out_edges_annotate_all.
  - intros d Hd. split; [apply Hdesc, Hd | rewrite (Hr d Hd); discriminate].
Qed.

End Describe.

Import Examples.

Lemma multiple_rank_hypotheses :
  wf_graph (graph (recipe (initial test_graph_data_multiple_rank))) /\
  acyclic (graph (recipe (initial test_graph_data_multiple_rank))) /\
  all_declared (initial test_graph_data_multiple_rank).
Proof.
  split; [| split].
  - repeat (apply wf_add_transform || apply wf_add_beaker). apply wf_empty.
  - apply levelled_acyclic.
    apply (@levelled_check unit
             [("nouns", 1); ("verbs", 1); ("normalized", 2); ("english", 3); ("spanish", 3)]).
    vm_compute. reflexivity.
  - apply all_declared_check. vm_compute. reflexivity.
Qed.

Lemma graph_data_describes_the_recipe_witness :
  exists descs,
    fst (graph_data (initial test_graph_data_multiple_rank)) = Return descs /\
    forall d, In d descs -> describes test_graph_data_multiple_rank (nd_name d) d.
Proof.
  destruct multiple_rank_hypotheses as (H1 & H2 & H3).
  destruct (@graph_data_describes_the_recipe unit (initial test_graph_data_multiple_rank)
              H1 H2 H3) as (descs & Hrun & Hdesc).
  exists descs. rewrite Hrun. split; [reflexivity | exact Hdesc].
Defined.

Lemma graph_data_is_repeatable_witness :
  exists descs s',
    graph_data (initial test_graph_data_multiple_rank) = (Return descs, s') /\
    graph_data s' = (Return descs, s').
Proof.
  destruct multiple_rank_hypotheses as (H1 & H2 & H3).
  exact (@graph_data_is_repeatable unit (initial test_graph_data_multiple_rank) H1 H2 H3).
Defined.

End DescribeFacts.

(** ** Seeds, [reset] and the commands *)

Module SeedListFacts.
Import Beakers SeedDefs RunDefs SeedListDefs DictFacts ListFacts SeedFacts RunFacts.

Section Listing.
Variable World : Type.
Implicit Types (r : Recipe World) (s : State World).

(** *** [list_seeds] *)

Lemma list_seeds_loop_get r b items : forall acc,
  Dict.get b (list_seeds_loop items r acc) =
    match map (fun e => seed_entry r (fst e))
              (filter (fun e => String.eqb (fst (snd e)) b) items) with
    | [] => Dict.get b acc
    | l => Some (match Dict.get b acc with Some l0 => l0 | None => [] end ++ l)
    end.
Proof.
  induction items as [|[sname [bname f]] items IH]; intros acc; [reflexivity |].
  cbn [list_seeds_loop filter fst snd]. rewrite IH.
  fold (seed_entry r sname).
  destruct (String.eqb_spec bname b) as [->|Hne].
  - rewrite get_set_same. cbn [map fst].
    destruct (map _ (filter _ items)) as [|x l]; [reflexivity |].
    rewrite <- app_assoc. reflexivity.
  - rewrite get_set_other by (intros E; apply Hne; symmetry; exact E). reflexivity.
Qed.

Lemma list_seeds_loop_keys r items : forall acc,
  NoDup (Dict.keys acc) -> NoDup (Dict.keys (list_seeds_loop items r acc)).
Proof.
  induction items as [|[sname [bname f]] items IH]; intros acc Hnd; [exact Hnd |].
  cbn [list_seeds_loop]. apply IH, NoDup_keys_set, Hnd.
Qed.

(** X9: [list_seeds] groups the registered seeds by target beaker: a beaker is
    a key exactly when a seed is registered for it, and its list holds one
    entry for each of its seeds, in the order of registration; no key
    occurs twice. *)
Theorem list_seeds_groups_by_beaker (r : Recipe World) (b : string) :
  Dict.get b (list_seeds r) =
    match seeds_for r b with
    | [] => None
    | l => Some l
    end /\
  NoDup (Dict.keys (list_seeds r)).
Proof.
  split.
  - unfold list_seeds, seeds_for. rewrite list_seeds_loop_get. reflexivity.
  - apply list_seeds_loop_keys. constructor.
Qed.

(** *** [run_seed] *)

(** A run of a registered seed that has no ledger row: the records are
    stored, then the exception of the generator is raised or the ledger
    row is written. *)
Lemma run_seed_result now sname bname (seed_func : SeedFunc World) items err w' s :
  Dict.get sname (seeds (recipe s)) = Some (bname, seed_func) ->
  is_declared (recipe s) bname ->
  _db_get_seed sname (recipe s) = None ->
  seed_func (world s) = ((items, err), w') ->
  Forall (fun item => accepts (recipe s) bname item = true) items ->
  ids_below s bname ->
  exists s',
    rows_of (recipe s') bname =
      rows_of (recipe s) bname ++ combine (seq (uuid_counter s) (List.length items)) items /\
    seeds (recipe s') = seeds (recipe s) /\
    _seeds (db (recipe s')) = _seeds (db (recipe s)) /\
    (forall k, is_declared (recipe s') k <-> is_declared (recipe s) k) /\
    run_seed now sname s =
      match err with
      | Some e => (Raise e, s')
      | None =>
          (Return tt,
           with_recipe
             (with_db {| _seeds := _seeds (db (recipe s')) ++
                           [{| row_name := sname; row_beaker_name := bname;
                               row_num_items := List.length items;
                               row_imported_at := now |}];
                         tables := tables (db (recipe s')) |} (recipe s')) s')
      end.
Proof.
  intros Hseed Hd Hrow Hgen Hacc Hlt.
  set (s0 := {| recipe := recipe s; world := w'; uuid_counter := uuid_counter s;
                stdout := stdout s;
                trace := trace s ++ [Logged "run_seed"
                           [("seed_name", sname); ("beaker_name", bname)]] |}).
  destruct (@add_seed_items_spec World bname items s0 0) as (s' & Hrun & Hr & Hs & Hl & Hk & Hw);
    auto.
  exists s'. split; [exact Hr |]. split; [exact Hs |]. split; [exact Hl |].
  split; [exact Hk |].
  pose proof Hd as Hd'. apply get_In_keys in Hd'.
  unfold run_seed, bind, get_recipe, lookup_beaker, emit.
  rewrite Hseed.
  destruct (Dict.get bname (beakers (recipe s))); [| congruence].
  rewrite Hrow. simpl. rewrite Hgen. simpl.
  change (add_seed_items bname items 0 _) with (add_seed_items bname items 0 s0).
  rewrite Hrun. simpl.
  destruct err; [reflexivity |].
  unfold insert_seed_row, bind, get_recipe, put_recipe. reflexivity.
Qed.

(** X10: When the generator of a seed raises after yielding some records,
    [run_seed] raises that exception; the records yielded before it are
    stored in the beaker, and no ledger row is written, so that the seed
    is not marked as run. *)
Theorem run_seed_keeps_records_of_a_failed_seed (now sname bname : string)
    (seed_func : SeedFunc World) (items : list value) (e : exn) (w' : World)
    (s : State World) :
  Dict.get sname (seeds (recipe s)) = Some (bname, seed_func) ->
  is_declared (recipe s) bname ->
  _db_get_seed sname (recipe s) = None ->
  seed_func (world s) = ((items, Some e), w') ->
  Forall (fun item => accepts (recipe s) bname item = true) items ->
  ids_below s bname ->
  exists s1,
    run_seed now sname s = (Raise e, s1) /\
    rows_of (recipe s1) bname =
      rows_of (recipe s) bname ++ combine (seq (uuid_counter s) (List.length items)) items /\
    _seeds (db (recipe s1)) = _seeds (db (recipe s)) /\
    _db_get_seed sname (recipe s1) = None.
Proof.
  intros Hseed Hd Hrow Hgen Hacc Hlt.
  destruct (@run_seed_result now sname bname seed_func items (Some e) w' s
              Hseed Hd Hrow Hgen Hacc Hlt) as (s1 & Hr & _ & Hl & _ & Hrun).
  exists s1. split; [exact Hrun |]. split; [exact Hr |]. split; [exact Hl |].
  unfold _db_get_seed in *. rewrite Hl. exact Hrow.
Qed.

(** *** The [seed] command *)

(** X11: The [seed] command exits with code 1 after printing the message of the
    seed error for a name that is not registered and for a seed that has
    run, leaving the recipe as it was; the [KeyError] for a seed whose
    target beaker is not declared is not turned into an exit code. *)
Theorem cli_seed_outcomes (now sname : string) (s : State World) :
  (Dict.get sname (seeds (recipe s)) = None ->
   cli_seed now sname s = (Return 1, printed ("Seed " ++ sname ++ " not found") s)) /\
  (forall bname seed_func seed,
     Dict.get sname (seeds (recipe s)) = Some (bname, seed_func) ->
     is_declared (recipe s) bname ->
     _db_get_seed sname (recipe s) = Some seed ->
     cli_seed now sname s =
       (Return 1, printed (sname ++ " already run at " ++ str_imported_at seed) s)) /\
  (forall bname seed_func,
     Dict.get sname (seeds (recipe s)) = Some (bname, seed_func) ->
     ~ is_declared (recipe s) bname ->
     cli_seed now sname s = (Raise (KeyError bname), s)).
Proof.
  split; [| split].
  - intros Hnone. unfold cli_seed.
    assert (E : run_seed now sname s
                = (Raise (SeedError ("Seed " ++ sname ++ " not found")), s)).
    { unfold run_seed, bind, get_recipe, raise. rewrite Hnone. reflexivity. }
    rewrite E. reflexivity.
  - intros bname seed_func seed Hseed Hd Hrow. unfold cli_seed.
    rewrite (@run_seed_already_run World now sname bname seed_func seed s Hseed Hd Hrow).
    reflexivity.
  - intros bname seed_func Hseed Hnd. unfold cli_seed.
    assert (E : run_seed now sname s = (Raise (KeyError bname), s)).
    { unfold run_seed, bind, get_recipe, lookup_beaker. rewrite Hseed.
      destruct (Dict.get bname (beakers (recipe s))) eqn:Eb; [| reflexivity].
      exfalso. apply Hnd. apply get_In_keys. congruence. }
    rewrite E. reflexivity.
Qed.

(** *** [reset] *)

Lemma rows_write_empty key r k :
  rows_of r k = [] -> rows_of (write_rows key [] r) k = [].
Proof.
  unfold write_rows, rows_of.
  destruct (Dict.get key (beakers r)) as [[n m|n its]|] eqn:Ekey; [| | auto].
  - simpl. destruct (Dict.get k (beakers r)) as [[n' m'|n' its']|]; simpl; auto.
    destruct (string_dec n' n) as [->|Hne].
    + rewrite get_set_same. reflexivity.
    + rewrite get_set_other by exact Hne. auto.
  - simpl. destruct (string_dec k key) as [->|Hne].
    + rewrite get_set_same. reflexivity.
    + rewrite get_set_other by exact Hne.
      destruct (Dict.get k (beakers r)) as [[n' m'|n' its']|]; simpl; auto.
Qed.

Lemma reset_beaker_result key beaker s :
  is_declared (recipe s) key ->
  exists r1 line,
    reset_beaker (key, beaker) s = (Return tt, printed line (with_recipe r1 s)) /\
    rows_of r1 key = [] /\
    (forall k, rows_of (recipe s) k = [] -> rows_of r1 k = []) /\
    _seeds (db r1) = _seeds (db (recipe s)) /\
    seeds r1 = seeds (recipe s) /\
    graph r1 = graph (recipe s) /\
    (forall k, is_declared r1 k <-> is_declared (recipe s) k) /\
    (forall k x, accepts r1 k x = accepts (recipe s) k x).
Proof.
  intros Hd.
  unfold reset_beaker, bind, Beaker_len, Beaker_reset, get_recipe, put_recipe, secho.
  cbn [fst snd]. destruct (0 <? List.length (rows_of (recipe s) key))%nat eqn:E.
  - exists (write_rows key [] (recipe s)). eexists. split; [reflexivity |].
    split; [apply rows_of_write_rows_same, Hd |].
    split; [intros k; apply rows_write_empty |].
    split; [apply ledger_write_rows |]. split; [apply seeds_write_rows |].
    split; [apply graph_write_rows |].
    split; [intros k; apply declared_write_rows | intros k x; apply accepts_write_rows].
  - exists (recipe s). eexists. split.
    + unfold printed, with_recipe. reflexivity.
    + apply Nat.ltb_ge in E.
      split; [apply length_zero_iff_nil; lia |]. repeat split; auto.
Qed.

Lemma reset_loop (l : list (string * Beaker)) : forall s,
  (forall kb, In kb l -> is_declared (recipe s) (fst kb)) ->
  exists r1 lines,
    for_each (reset_beaker (World:=World)) l s
    = (Return tt,
       {| recipe := r1; world := world s; uuid_counter := uuid_counter s;
          stdout := stdout s ++ lines; trace := trace s |}) /\
    List.length lines = List.length l /\
    (forall kb, In kb l -> rows_of r1 (fst kb) = []) /\
    (forall k, rows_of (recipe s) k = [] -> rows_of r1 k = []) /\
    _seeds (db r1) = _seeds (db (recipe s)) /\
    seeds r1 = seeds (recipe s) /\
    graph r1 = graph (recipe s) /\
    (forall k, is_declared r1 k <-> is_declared (recipe s) k) /\
    (forall k x, accepts r1 k x = accepts (recipe s) k x).
Proof.
  induction l as [|[key beaker] l IH]; intros s Hd.
  - exists (recipe s), []. cbn [for_each]. unfold ret. rewrite app_nil_r.
    split; [destruct s; reflexivity |]. split; [reflexivity |].
    split; [intros kb [] |]. repeat split; auto.
  - cbn [for_each]. unfold bind.
    destruct (@reset_beaker_result key beaker s (Hd (key, beaker) (or_introl eq_refl)))
      as (r1 & line & Hrun & Hkey & Hempty & Hl & Hs & Hg & Hdecl & Hacc).
    rewrite Hrun.
    destruct (IH (printed line (with_recipe r1 s)))
      as (r2 & lines & Hrun2 & Hlen & Hall & Hempty2 & Hl2 & Hs2 & Hg2 & Hdecl2 & Hacc2).
    { intros kb Hkb. cbn [recipe printed with_recipe]. apply Hdecl, Hd. right. exact Hkb. }
    cbn [recipe world uuid_counter stdout trace printed with_recipe] in *.
    exists r2, (line :: lines). rewrite Hrun2. rewrite <- app_assoc.
    split; [reflexivity |]. split; [simpl; lia |].
    split.
    { intros kb [<-|Hkb]; [apply Hempty2, Hkey | apply Hall, Hkb]. }
    split; [intros k Hk; apply Hempty2, Hempty, Hk |].
    split; [congruence |]. split; [congruence |]. split; [congruence |].
    split.
    + intros k. rewrite Hdecl2. apply Hdecl.
    + intros k x. rewrite Hacc2. apply Hacc.
Qed.

Lemma reset_result s :
  exists r1 lines,
    reset s = (Return tt,
               {| recipe := r1; world := world s; uuid_counter := uuid_counter s;
                  stdout := stdout s ++ "seeds reset" :: lines; trace := trace s |}) /\
    List.length lines = List.length (beakers (recipe s)) /\
    emptied s {| recipe := r1; world := world s; uuid_counter := uuid_counter s;
                 stdout := stdout s ++ "seeds reset" :: lines; trace := trace s |}.
Proof.
  unfold reset. unfold bind at 1. unfold get_recipe. unfold bind at 1. unfold put_recipe.
  unfold bind at 1. unfold secho at 1.
  cbn [recipe world uuid_counter stdout trace with_recipe].
  set (r0 := with_db {| _seeds := []; tables := tables (db (recipe s)) |} (recipe s)).
  set (s0 := {| recipe := r0; world := world s; uuid_counter := uuid_counter s;
                stdout := stdout s ++ ["seeds reset"]; trace := trace s |}).
  destruct (@reset_loop (beakers (recipe s)) s0)
    as (r1 & lines & Hrun & Hlen & Hall & _ & Hl & Hs & Hg & Hdecl & Hacc).
  { intros [k b] Hkb. unfold is_declared, Dict.keys. cbn. apply in_map_iff.
    exists (k, b). auto. }
  exists r1, lines. rewrite Hrun. cbn [recipe world uuid_counter stdout trace s0] in *.
  rewrite <- app_assoc. split; [reflexivity |]. split; [exact Hlen |].
  unfold emptied. cbn [recipe world uuid_counter stdout trace].
  split.
  { intros k. destruct (Dict.get k (beakers (recipe s))) as [b|] eqn:Eb.
    - apply (Hall (k, b)). apply get_Some_In, Eb.
    - assert (Hn : ~ is_declared r1 k).
      { intros H. apply Hdecl in H. unfold is_declared, r0 in H. cbn in H.
        apply get_In_keys in H. congruence. }
      unfold rows_of. destruct (Dict.get k (beakers r1)) eqn:E1; [| reflexivity].
      exfalso. apply Hn. apply get_In_keys. congruence. }
  split; [rewrite Hl; reflexivity |]. split; [rewrite Hs; reflexivity |].
  split; [rewrite Hg; reflexivity |].
  split; [intros k; rewrite Hdecl; reflexivity |].
  split; [intros k x; rewrite Hacc; reflexivity |]. auto.
Qed.

(** X12: After [reset] every beaker is empty and the ledger has no row, while
    the graph, the registered seeds and the declared beakers are as
    before; the call prints [seeds reset] and then one line for each
    beaker. *)
Theorem reset_empties_every_beaker (s : State World) :
  emptied s (snd (reset s)) /\
  exists lines,
    stdout (snd (reset s)) = stdout s ++ "seeds reset" :: lines /\
    List.length lines = List.length (beakers (recipe s)).
Proof.
  destruct (reset_result s) as (r1 & lines & Hrun & Hlen & Hemp).
  rewrite Hrun. cbn [snd]. split; [exact Hemp |].
  exists lines. split; [reflexivity | exact Hlen].
Qed.

(** X13: After [reset] a seed can be run again, whether it had run or not: its
    records are then the only records of its beaker. *)
Theorem run_seed_again_after_reset (now sname bname : string) (seed_func : SeedFunc World)
    (items : list value) (w' : World) (s : State World) :
  Dict.get sname (seeds (recipe s)) = Some (bname, seed_func) ->
  is_declared (recipe s) bname ->
  seed_func (world s) = ((items, None), w') ->
  Forall (fun item => accepts (recipe s) bname item = true) items ->
  exists s2,
    run_seed now sname (snd (reset s)) = (Return tt, s2) /\
    rows_of (recipe s2) bname = combine (seq (uuid_counter s) (List.length items)) items /\
    _seeds (db (recipe s2)) =
      [{| row_name := sname; row_beaker_name := bname;
          row_num_items := List.length items; row_imported_at := now |}].
Proof.
  intros Hseed Hd Hgen Hacc.
  destruct (reset_result s) as (r1 & lines & Hrun & _ & Hemp).
  rewrite Hrun. cbn [snd].
  set (s1 := {| recipe := r1; world := world s; uuid_counter := uuid_counter s;
                stdout := stdout s ++ "seeds reset" :: lines; trace := trace s |}) in *.
  destruct Hemp as (Hrows & Hl & Hs & Hg & Hdecl & Hacc1 & Hw & Hu & Ht).
  destruct (@run_seed_result now sname bname seed_func items None w' s1)
    as (s' & Hr & _ & Hl' & _ & Hrun').
  - rewrite Hs. exact Hseed.
  - apply Hdecl, Hd.
  - unfold _db_get_seed. rewrite Hl. reflexivity.
  - exact Hgen.
  - eapply Forall_impl; [| exact Hacc]. intros a Ha. rewrite Hacc1. exact Ha.
  - intros id Hin. rewrite Hrows in Hin. destruct Hin.
  - eexists. split; [exact Hrun' |]. cbn [recipe with_recipe with_db db _seeds].
    split.
    + change (rows_of (with_db _ (recipe s')) bname) with (rows_of (recipe s') bname).
      rewrite Hr, Hrows. reflexivity.
    + rewrite Hl', Hl. reflexivity.
Qed.

End Listing.

Import Examples.

Lemma run_seed_keeps_records_of_a_failed_seed_witness :
  exists s1,
    run_seed "2023-07-01" "broken" (initial broken_recipe)
      = (Raise (ValueError "bad row"), s1) /\
    rows_of (recipe s1) "word" = [(0%nat, Word "apple")] /\
    _seeds (db (recipe s1)) = [] /\
    _db_get_seed "broken" (recipe s1) = None.
Proof.
  apply (@run_seed_keeps_records_of_a_failed_seed unit "2023-07-01" "broken" "word"
           broken_seed [Word "apple"] (ValueError "bad row") tt (initial broken_recipe)).
  - reflexivity.
  - vm_compute. auto.
  - reflexivity.
  - reflexivity.
  - repeat constructor.
  - intros id Hin. vm_compute in Hin. destruct Hin.
Defined.

Lemma cli_seed_outcomes_witness :
  cli_seed "2023-07-01" "xyz" (initial seeded_recipe)
    = (Return 1%nat, printed "Seed xyz not found" (initial seeded_recipe)) /\
  cli_seed "2023-07-01" "abc" (initial stray_recipe)
    = (Raise (KeyError "words"), initial stray_recipe).
Proof.
  split.
  - apply (proj1 (@cli_seed_outcomes unit "2023-07-01" "xyz" (initial seeded_recipe))).
    reflexivity.
  - apply (proj2 (proj2 (@cli_seed_outcomes unit "2023-07-01" "abc" (initial stray_recipe)))
             "words" abc).
    + reflexivity.
    + vm_compute. intros [H|[]]. discriminate.
Defined.

Lemma run_seed_again_after_reset_witness :
  exists s2,
    run_seed "2023-07-02" "abc"
      (snd (reset (snd (run_seed "2023-07-01" "abc" (initial seeded_recipe)))))
      = (Return tt, s2) /\
    rows_of (recipe s2) "word"
      = [(3%nat, Word "apple"); (4%nat, Word "banana"); (5%nat, Word "cucumber")] /\
    _seeds (db (recipe s2)) =
      [{| row_name := "abc"; row_beaker_name := "word";
          row_num_items := 3; row_imported_at := "2023-07-02" |}].
Proof.
  apply (@run_seed_again_after_reset unit "2023-07-02" "abc" "word" abc
           [Word "apple"; Word "banana"; Word "cucumber"] tt
           (snd (run_seed "2023-07-01" "abc" (initial seeded_recipe)))).
  - reflexivity.
  - vm_compute. auto.
  - reflexivity.
  - repeat constructor.
Defined.

End SeedListFacts.

(** ** [show], conditionals and repeated declarations *)

Module DisplayFacts.
Import Beakers SeedDefs RunDefs GraphDefs SeedListDefs.
Import DictFacts ListFacts SeedFacts RunFacts GraphFacts.

Section Display.
Variable World : Type.
Implicit Types (r : Recipe World) (s : State World).

(** *** The text printed by [show] *)

Lemma appends_ret A (a : A) : appends (ret (World:=World) a).
Proof. intros s. exists []. rewrite app_nil_r. reflexivity. Qed.

Lemma appends_raise A e : appends (raise (World:=World) (A:=A) e).
Proof. intros s. exists []. rewrite app_nil_r. reflexivity. Qed.

Lemma appends_get_recipe : appends (get_recipe (World:=World)).
Proof. intros s. exists []. rewrite app_nil_r. reflexivity. Qed.

Lemma appends_put_recipe r : appends (put_recipe r).
Proof. intros s. exists []. rewrite app_nil_r. reflexivity. Qed.

Lemma appends_secho line : appends (secho (World:=World) line).
Proof. intros s. exists [line]. reflexivity. Qed.

Lemma appends_lookup_beaker key : appends (lookup_beaker (World:=World) key).
Proof.
  intros s. exists []. rewrite app_nil_r. unfold lookup_beaker.
  destruct (Dict.get key (beakers (recipe s))); reflexivity.
Qed.

Lemma appends_Beaker_len key : appends (Beaker_len (World:=World) key).
Proof. intros s. exists []. rewrite app_nil_r. reflexivity. Qed.

Lemma appends_bind A B (m : M World A) (k : A -> M World B) :
  appends m -> (forall a, appends (k a)) -> appends (bind m k).
Proof.
  intros Hm Hk s. unfold bind. destruct (Hm s) as (l1 & H1).
  destruct (m s) as [[a|e] s1]; simpl in *.
  - destruct (Hk a s1) as (l2 & H2). exists (l1 ++ l2). rewrite H2, H1, app_assoc.
    reflexivity.
  - exists l1. exact H1.
Qed.

Lemma appends_for_each A (body : A -> M World unit) l :
  (forall x, appends (body x)) -> appends (for_each body l).
Proof.
  intros Hb. induction l as [|a l IH]; simpl.
  - apply appends_ret.
  - apply appends_bind; [apply Hb | intros _; exact IH].
Qed.

Lemma appends_graph_data_node nd node : appends (graph_data_node (World:=World) nd node).
Proof.
  unfold graph_data_node.
  apply appends_bind; [apply appends_lookup_beaker | intros beaker].
  apply appends_bind; [apply appends_Beaker_len | intros len].
  apply appends_bind; [apply appends_get_recipe | intros r].
  destruct (max_in_rank _ _ 0); [| apply appends_raise].
  destruct (collect_out_edges _ _ _) as [g d].
  apply appends_bind; [apply appends_put_recipe | intros _; apply appends_ret].
Qed.

Lemma appends_graph_data_loop order : forall nd,
  appends (graph_data_loop (World:=World) order nd).
Proof.
  induction order as [|node order IH]; intros nd; cbn [graph_data_loop].
  - apply appends_ret.
  - apply appends_bind; [apply appends_graph_data_node | intros nd'; apply IH].
Qed.

Lemma appends_graph_data : appends (graph_data (World:=World)).
Proof.
  unfold graph_data. apply appends_bind; [apply appends_get_recipe | intros r].
  destruct (topological_sort (graph r)) as [order err].
  apply appends_bind; [apply appends_graph_data_loop | intros nd].
  destruct err; [apply appends_raise |].
  destruct (sorted (Dict.values nd)); [apply appends_ret | apply appends_raise].
Qed.

Lemma appends_show_node (d : NodeData World) : appends (show_node d).
Proof.
  unfold show_node. apply appends_bind.
  - destruct (nd_temp d); apply appends_secho.
  - intros _. apply appends_for_each. intros edge. unfold show_edge.
    destruct (to_beaker edge); [| apply appends_raise].
    apply appends_bind; [apply appends_secho | intros _].
    apply appends_for_each. intros [k v]. apply appends_secho.
Qed.

Lemma for_each_secho A (f : A -> string) l : forall s,
  for_each (fun x => secho (f x)) l s =
    (Return tt,
     {| recipe := recipe s; world := world s; uuid_counter := uuid_counter s;
        stdout := stdout s ++ map f l; trace := trace s |}).
Proof.
  induction l as [|x l IH]; intros s; cbn [for_each map].
  - rewrite app_nil_r. destruct s; reflexivity.
  - unfold bind at 1. unfold secho at 1. rewrite IH.
    cbn [recipe world uuid_counter stdout trace]. rewrite <- app_assoc. reflexivity.
Qed.

Lemma Counter_loop_fresh keys : forall c,
  NoDup keys -> (forall k, In k keys -> ~ In k (Dict.keys c)) ->
  Counter_loop keys c = c ++ map (fun k => (k, 1)) keys.
Proof.
  induction keys as [|k keys IH]; intros c Hnd Hfresh; cbn [Counter_loop map].
  - rewrite app_nil_r. reflexivity.
  - inversion Hnd as [|? ? Hnin Hnd']; subst.
    assert (Hk : ~ In k (Dict.keys c)) by (apply Hfresh; left; reflexivity).
    assert (Hget : Dict.get k c = None).
    { destruct (Dict.get k c) eqn:E; [| reflexivity].
      exfalso. apply Hk. apply get_In_keys. congruence. }
    rewrite Hget, (@set_fresh _ _ _ k 1 c Hk), IH.
    + rewrite <- app_assoc. reflexivity.
    + exact Hnd'.
    + intros k' Hk' Hin. unfold Dict.keys in Hin. rewrite map_app, in_app_iff in Hin.
      destruct Hin as [Hin|[<-|[]]]; [| contradiction].
      apply (Hfresh k' (or_intror Hk')). exact Hin.
Qed.

(** X14: Whatever the graph, the text [show] prints begins with the line
    [Seeds] and one line for each registered seed, in the order of
    registration, made of the name of the seed and the count 1. *)
Theorem show_lists_the_seeds_first (s : State World) :
  NoDup (Dict.keys (seeds (recipe s))) ->
  exists rest,
    stdout (snd (show s)) =
      stdout s ++ "Seeds" :: map (fun sname => "  " ++ sname ++ " (1)")%string
                               (Dict.keys (seeds (recipe s))) ++ rest.
Proof.
  intros Hnd. unfold show. unfold bind at 1. unfold get_recipe.
  unfold bind at 1. unfold secho at 1. unfold bind at 1.
  rewrite (for_each_secho (fun bc : string * nat =>
             ("  " ++ fst bc ++ " (" ++ str_nat (snd bc) ++ ")")%string)).
  cbn [recipe world uuid_counter stdout trace].
  unfold Counter. rewrite Counter_loop_fresh by (auto; intros k _ []).
  cbn [app]. rewrite map_map. cbn [fst snd].
  assert (Ha : appends (bind (graph_data (World:=World))
                          (fun described => for_each (show_node (World:=World)) described))).
  { apply appends_bind; [apply appends_graph_data | intros gd].
    apply appends_for_each, appends_show_node. }
  match goal with |- context [bind _ _ ?s1] => destruct (Ha s1) as (rest & Hrest) end.
  exists rest. rewrite Hrest. cbn [stdout]. change (str_nat 1) with "1".
  rewrite <- !app_assoc. reflexivity.
Qed.

(** *** The two branches of a conditional *)


(** *** A transform declared twice *)

Lemma adj_touch_node n (g : DiGraph World) : _adj (touch_node n g) = _adj g.
Proof. unfold touch_node. destruct (Dict.mem n (_node g)); reflexivity. Qed.

(** X16: Between two beakers there is one edge: [add_transform] for a pair of
    beakers that already has a transform leaves the list of edges as it
    is and puts the new transform in place of the old one; the other
    edges, the beakers, the seeds and the database are untouched. *)
Theorem add_transform_replaces (f t : string) (fn : Callable World) (nm : option string)
    (em : option (list (list string * string))) (r : Recipe World) :
  In (f, t) (edges (graph r)) ->
  let r' := add_transform f t fn nm em r in
  edges (graph r') = edges (graph r) /\
  (exists data,
     Dict.get (f, t) (_adj (graph r')) = Some data /\
     transform_func (transform data) = fn /\
     error_map (transform data) = match em with Some m => m | None => [] end) /\
  (forall k, k <> (f, t) -> Dict.get k (_adj (graph r')) = Dict.get k (_adj (graph r))) /\
  beakers r' = beakers r /\ seeds r' = seeds r /\ db r' = db r.
Proof.
  intros Hin r'. unfold r', add_transform, add_edge, edges.
  cbn [graph with_graph _adj beakers seeds db]. rewrite !adj_touch_node.
  split; [apply keys_set_present, Hin |].
  split.
  - eexists. rewrite get_set_same. split; [reflexivity |].
    destruct (Dict.get (f, t) (_adj (graph r))); split; reflexivity.
  - split; [intros k Hk; apply get_set_other, Hk | auto].
Qed.

End Display.

Import Examples.

Lemma show_lists_the_seeds_first_witness :
  exists rest,
    stdout (snd (show (initial seeded_recipe))) = "Seeds" :: "  abc (1)" :: rest.
Proof.
  destruct (@show_lists_the_seeds_first unit (initial seeded_recipe)) as (rest & H).
  - vm_compute. repeat constructor. intros [].
  - exists rest. rewrite H. reflexivity.
Defined.


Lemma add_transform_replaces_witness :
  edges (graph (add_transform "word" "capitalized" identity None None
                  (pair_recipe capitalized)))
  = [("word", "capitalized")].
Proof.
  destruct (@add_transform_replaces unit "word" "capitalized" identity None None
              (pair_recipe capitalized)) as (H & _).
  - vm_compute. auto.
  - rewrite H. reflexivity.
Defined.

End DisplayFacts.

(** ** Transform wrappers: budgets, log entries and spacing *)

Module WrapperEdgeFacts.
Import Wrappers WrapperDefs WrapperFacts.

Section Facts.
Variable World : Type.
Variable time_time : World -> Q.
Variable asyncio_sleep : Q -> World -> World.
Variable edge_func : edge_function World.
Variable retries : Z.
Variable item : value.

Local Abbreviation loop := (Retry_loop edge_func retries item).
Local Abbreviation attempt_ := (attempt edge_func item).

(** X17: With a negative number of retries the wrapped function is not called
    at all: the call returns [None] and logs nothing. *)
Theorem Retry_negative_budget (w : World) :
  (retries < 0)%Z ->
  Retry edge_func retries item w
  = {| outcome := Return VNone; final_world := w; logged := []; calls := 0 |}.
Proof.
  intros Hneg. unfold Retry, range.
  replace (Z.to_nat (retries + 1)) with 0%nat by lia. reflexivity.
Qed.

Lemma loop_stopped k : forall ns exception w e,
  (k < List.length ns)%nat ->
  (forall j, (j < k)%nat -> caught edge_func item j w) ->
  attempt_ k w = Raise e ->
  isinstance1 e "Exception" = false ->
  outcome (loop ns exception w) = Raise e /\
  calls (loop ns exception w) = S k /\
  List.length (logged (loop ns exception w)) = k.
Proof.
  induction k as [|k IH]; intros ns exception w e Hlen Hfail Hraise Hbase.
  - destruct ns as [|n ns]; [simpl in Hlen; lia |].
    unfold attempt in Hraise. rewrite loop_cons. cbn [world_before] in Hraise.
    destruct (await_call edge_func item w) as [[v'|e'] w']; cbn [fst] in *; [discriminate |].
    inversion Hraise; subst e'. rewrite Hbase. auto.
  - destruct ns as [|n ns]; [simpl in Hlen; lia |].
    destruct (Hfail 0%nat) as (e0 & He0 & Hcatch); [lia |].
    unfold attempt in He0. cbn [world_before] in He0.
    rewrite attempt_shift in Hraise. rewrite loop_cons.
    destruct (await_call edge_func item w) as [[v'|e'] w'] eqn:Ecall; cbn [fst snd] in *;
      [discriminate |].
    inversion He0; subst e'. rewrite Hcatch.
    destruct (IH ns (Some e0) w' e) as (H1 & H2 & H3);
      [simpl in Hlen; lia | | exact Hraise | exact Hbase |].
    + intros j Hj. destruct (Hfail (S j)) as (e1 & He1 & Hc1); [lia |].
      exists e1. split; [| exact Hc1].
      rewrite attempt_shift, Ecall in He1. exact He1.
    + cbn [outcome calls logged List.length]. rewrite H1, H2, H3. auto.
Qed.

(** X18: An exception that is not an instance of [Exception] is not retried:
    when attempt [k] raises one, the earlier attempts having failed with
    exceptions that are, the call raises it after [k + 1] calls of the
    wrapped function, whatever is left of the budget. *)
Theorem Retry_gives_up_outside_Exception (w : World) (k : nat) (e : exn) :
  (k < Z.to_nat (retries + 1))%nat ->
  (forall j, (j < k)%nat -> caught edge_func item j w) ->
  attempt_ k w = Raise e ->
  isinstance1 e "Exception" = false ->
  outcome (Retry edge_func retries item w) = Raise e /\
  calls (Retry edge_func retries item w) = S k /\
  List.length (logged (Retry edge_func retries item w)) = k.
Proof.
  unfold Retry. intros Hk Hfail Hraise Hbase.
  rewrite <- (range_length (retries + 1)) in Hk.
  exact (@loop_stopped k (range (retries + 1)) None w e Hk Hfail Hraise Hbase).
Qed.

Lemma loop_logged n : forall a exception w,
  let r := loop (map Z.of_nat (seq a n)) exception w in
  map log_retry (logged r)
    = map (fun j => (Z.of_nat j + 1)%Z) (seq a (List.length (logged r))) /\
  Forall (fun l => log_max_retries l = retries) (logged r) /\
  (forall j entry,
     nth_error (logged r) j = Some entry ->
     exists e, attempt_ j w = Raise e /\ isinstance1 e "Exception" = true /\
               log_exception entry = exc_str e) /\
  (List.length (logged r) <= calls r <= S (List.length (logged r)))%nat.
Proof.
  induction n as [|n IH]; intros a exception w; cbn [seq map].
  - destruct exception; cbn; (split; [reflexivity |]); (split; [constructor |]);
      (split; [intros [|j] entry H; discriminate | lia]).
  - cbn zeta. rewrite loop_cons.
    destruct (await_call edge_func item w) as [[v|e] w'] eqn:Ecall.
    + cbn. split; [reflexivity |]. split; [constructor |].
      split; [intros [|j] entry H; discriminate | lia].
    + destruct (isinstance1 e "Exception") eqn:Hcatch.
      * destruct (IH (S a) (Some e) w') as (H1 & H2 & H3 & H4).
        cbn [logged calls outcome List.length map seq log_retry].
        split; [rewrite H1; reflexivity |].
        split; [constructor; [reflexivity | exact H2] |].
        split.
        -- intros [|j] entry Hj.
           ++ cbn in Hj. inversion Hj; subst entry. exists e.
              unfold attempt. cbn [world_before]. rewrite Ecall. auto.
           ++ cbn [nth_error] in Hj. destruct (H3 j entry Hj) as (e1 & He1 & Hc1 & Hl1).
              exists e1. rewrite attempt_shift, Ecall. auto.
        -- lia.
      * cbn. split; [reflexivity |]. split; [constructor |].
        split; [intros [|j] entry H; discriminate | lia].
Qed.

(** X19: Every failed attempt that is retried leaves one log entry: the
    entries of a call are numbered 1, 2, ... in the order of the attempts,
    each carries the budget and the message of the exception of its
    attempt, and the wrapped function was called once for each entry and
    at most once more. *)
Theorem Retry_logs_each_failed_attempt (w : World) :
  let r := Retry edge_func retries item w in
  map log_retry (logged r)
    = map (fun j => (Z.of_nat j + 1)%Z) (seq 0 (List.length (logged r))) /\
  Forall (fun l => log_max_retries l = retries) (logged r) /\
  (forall j entry,
     nth_error (logged r) j = Some entry ->
     exists e, attempt_ j w = Raise e /\ isinstance1 e "Exception" = true /\
               log_exception entry = exc_str e) /\
  (List.length (logged r) <= calls r <= S (List.length (logged r)))%nat.
Proof. unfold Retry, range. apply loop_logged. Qed.

(** X20: When [asyncio.sleep] lets the time asked for pass, two calls through
    [RateLimit] enter the wrapped function at least
    [1 / requests_per_second] seconds apart: the time recorded for a call
    is no earlier than that long after the time recorded for the call
    before it, whatever the wrapped function does. *)
Theorem RateLimit_spaces_calls (requests_per_second t : Q) (w : World) :
  (forall d w0, (0 < d)%Q -> (time_time w0 + d <= time_time (asyncio_sleep d w0))%Q) ->
  Qeq_bool requests_per_second 0%Q = false ->
  exists t',
    fst (snd (RateLimit time_time asyncio_sleep edge_func requests_per_second item (Some t) w))
      = Some t' /\
    (t + 1 / requests_per_second <= t')%Q.
Proof.
  intros Hsleep Hrps. unfold RateLimit. rewrite Hrps.
  set (diff := (1 / requests_per_second - (time_time w - t))%Q).
  destruct (Qle_bool diff 0%Q) eqn:Ed.
  - exists (time_time w). split.
    + destruct (edge_func item w) as [[e|v|run] w2]; [reflexivity | reflexivity |].
      destruct (run w2); reflexivity.
    + apply Qle_bool_iff in Ed. unfold diff in Ed.
      apply (Qplus_le_l _ _ (time_time w - t)) in Ed.
      setoid_replace (1 / requests_per_second - (time_time w - t) + (time_time w - t))%Q
        with (1 / requests_per_second)%Q in Ed by ring.
      setoid_replace (0 + (time_time w - t))%Q with (time_time w - t)%Q in Ed by ring.
      apply (Qplus_le_l _ _ t) in Ed.
      setoid_replace (time_time w - t + t)%Q with (time_time w) in Ed by ring.
      setoid_replace (1 / requests_per_second + t)%Q with (t + 1 / requests_per_second)%Q
        in Ed by ring.
      exact Ed.
  - exists (time_time (asyncio_sleep diff w)). split.
    + destruct (edge_func item (asyncio_sleep diff w)) as [[e|v|run] w2];
        [reflexivity | reflexivity |].
      destruct (run w2); reflexivity.
    + assert (Hpos : (0 < diff)%Q).
      { apply Qnot_le_lt. intros Hle. apply Qle_bool_iff in Hle. congruence. }
      eapply Qle_trans; [| apply (Hsleep diff w Hpos)].
      unfold diff.
      setoid_replace (time_time w + (1 / requests_per_second - (time_time w - t)))%Q
        with (t + 1 / requests_per_second)%Q by ring.
      apply Qle_refl.
Qed.

End Facts.

Import Beakers Examples.

Lemma Retry_negative_budget_witness :
  Retry fails_twice (-1) (Word "apple") 0%nat
  = {| outcome := Return VNone; final_world := 0%nat; logged := []; calls := 0 |}.
Proof. apply (@Retry_negative_budget nat fails_twice (-1)%Z (Word "apple") 0%nat). lia. Defined.

(** A wrapped function whose first call is cancelled. *)
Lemma Retry_gives_up_outside_Exception_witness :
  let cancelled : edge_function nat :=
    fun item n => (Awaitable (fun m => (Raise (Exn ["CancelledError"; "BaseException"; "object"]
                                                  "cancelled"), m)), S n) in
  outcome (Retry cancelled 5 (Word "apple") 0%nat)
    = Raise (Exn ["CancelledError"; "BaseException"; "object"] "cancelled") /\
  calls (Retry cancelled 5 (Word "apple") 0%nat) = 1%nat /\
  List.length (logged (Retry cancelled 5 (Word "apple") 0%nat)) = 0%nat.
Proof.
  intros cancelled.
  apply (@Retry_gives_up_outside_Exception nat cancelled 5%Z (Word "apple") 0%nat 0%nat).
  - vm_compute. lia.
  - intros j Hj. lia.
  - reflexivity.
  - reflexivity.
Defined.

(** The world is the clock, and sleeping moves it on. *)
Lemma RateLimit_spaces_calls_witness :
  exists t',
    fst (snd (RateLimit (fun w : Q => w) (fun d w => (w + d)%Q)
                (fun item w => (Plain Q item, w)) 1 (Word "apple") (Some 0%Q) 0%Q))
      = Some t' /\
    (0 + 1 / 1 <= t')%Q.
Proof.
  apply (@RateLimit_spaces_calls Q (fun w : Q => w) (fun d w => (w + d)%Q)
           (fun item w => (Plain Q item, w)) (Word "apple") 1%Q 0%Q 0%Q).
  - intros d w0 Hd. apply Qle_refl.
  - reflexivity.
Defined.

End WrapperEdgeFacts.
